(** * N-ary tree (ntree.hpp, main.cpp): traversal, generation and codec

    A shallow embedding of [NLeaf<T, N>] over an explicit heap.  Nodes live
    in a store indexed by addresses, address [0] is [nullptr], and every
    method of the class is a function on that store.  [T] is [int], as in
    the program's [NTree<int, 5>]; the capacity [N] is a parameter of the
    class section.

    Loops take a bound [fuel] on the number of their iterations and answer
    [Err OutOfFuel] when it is reached; the theorems say how much is
    enough.  What C++ leaves undefined (an access through a null pointer or
    outside an array) is a fault of the model.

    Part I is the model, Part II the notions the statements use, Part III
    the proofs. *)

From Stdlib Require Import ZArith Ascii String.
From stdpp Require Import base numbers option list strings gmap.

Local Open Scope Z_scope.

(** * Part I: the model *)

(** ** Results of partial operations *)

(** What can stop a run short of a value. *)
Inductive fault : Type :=
  | NullDeref            (* [p->...] with [p] null or not pointing at a node *)
  | OutOfBounds          (* [mChildren[i]] with [i] outside [0, N) *)
  | InvalidArgument      (* thrown by the value deserializer *)
  | OutOfRange           (* thrown by the value deserializer *)
  | OutOfFuel.           (* the loop bound of the model was reached *)

Inductive res (A : Type) : Type :=
  | Ok (a : A)
  | Err (f : fault).
Arguments Ok {A} a.
Arguments Err {A} f.

#[global] Instance res_ret : MRet res := fun A a => Ok a.
#[global] Instance res_bind : MBind res := fun A B f m =>
  match m with Ok a => f a | Err e => Err e end.
#[global] Instance res_fmap : FMap res := fun A B f m =>
  match m with Ok a => Ok (f a) | Err e => Err e end.

Definition of_option {A} (e : fault) (o : option A) : res A :=
  match o with Some a => Ok a | None => Err e end.

(** ** Machine integers *)

Definition UINT16_MOD : Z := 65536.
Definition INT_MIN : Z := -2147483648.
Definition INT_MAX : Z := 2147483647.

(** Conversion to [uint16_t]. *)
Definition to_uint16 (z : Z) : Z := z mod UINT16_MOD.

Definition is_uint16 (z : Z) : Prop := 0 <= z < UINT16_MOD.
Definition is_int (z : Z) : Prop := INT_MIN <= z <= INT_MAX.

(** ** Text: [operator<<] on integers *)

Definition newline : ascii := "010"%char.
Definition tab : ascii := "009"%char.
Definition colon : ascii := ":"%char.

Definition digit_char (d : Z) : ascii := ascii_of_nat (48 + Z.to_nat d).

Fixpoint print_digits (fuel : nat) (n : Z) (acc : string) : string :=
  let acc' := String (digit_char (n mod 10)) acc in
  match fuel with
  | O => acc'
  | S f => if n <? 10 then acc' else print_digits f (n / 10) acc'
  end.

(** Decimal digits of a non-negative number. *)
Definition print_nat (n : Z) : string :=
  print_digits (Z.to_nat (Z.log2 n)) n "".

(** [stream << z] for an integer [z]. *)
Definition print_int (z : Z) : string :=
  if z <? 0 then String "-" (print_nat (- z)) else print_nat z.

(** ** The heap of nodes *)

(** Addresses; [0] is the null pointer. *)
Abbreviation ptr := Z (only parsing).
Definition nullptr : ptr := 0.

(** The fields of [NLeaf<int, N>] (ntree.hpp:54-67).  [mDepth],
    [mChildIndex] and [mChildrenAmount] are [uint16_t]; [mChildren] is the
    array of [N] child pointers. *)
Record NLeaf : Type := mkNLeaf {
  mValue : Z;
  mDepth : Z;
  mChildIndex : Z;
  mChildrenAmount : Z;
  mChildren : list ptr
}.

Definition set_mDepth (d : Z) (l : NLeaf) : NLeaf :=
  mkNLeaf (mValue l) d (mChildIndex l) (mChildrenAmount l) (mChildren l).
Definition set_mChildIndex (i : Z) (l : NLeaf) : NLeaf :=
  mkNLeaf (mValue l) (mDepth l) i (mChildrenAmount l) (mChildren l).
Definition set_mChildrenAmount (a : Z) (l : NLeaf) : NLeaf :=
  mkNLeaf (mValue l) (mDepth l) (mChildIndex l) a (mChildren l).
Definition set_mChildren (cs : list ptr) (l : NLeaf) : NLeaf :=
  mkNLeaf (mValue l) (mDepth l) (mChildIndex l) (mChildrenAmount l) cs.

(** The store: the allocated nodes and the next address [new] hands out.
    Addresses are handed out in increasing order and never reused. *)
Record heap : Type := mkHeap {
  cells : gmap Z NLeaf;
  next : ptr
}.

Definition empty_heap : heap := mkHeap ∅ 1.

(** [p->...]: the node [p] points at. *)
Definition load (h : heap) (p : ptr) : res NLeaf :=
  of_option NullDeref (cells h !! p).

Definition store (h : heap) (p : ptr) (l : NLeaf) : heap :=
  mkHeap (<[p := l]> (cells h)) (next h).

(** [p->field = ...]. *)
Definition update (h : heap) (p : ptr) (f : NLeaf → NLeaf) : res heap :=
  l ← load h p; Ok (store h p (f l)).

(** ** Running a callback over a visit order *)

Section Callback.
Context {St : Type}.

(** A [walk_callback_t] with the variables it captures by reference as
    explicit state: it maps the visited node and the state to the stop
    flag and the new state. *)
Definition walk_callback_t : Type := ptr → St → res (bool * St).

(** The callback applied along a list of nodes, until it asks to stop. *)
Fixpoint run_walker (walker : walk_callback_t) (order : list ptr) (s : St)
  : res St :=
  match order with
  | [] => Ok s
  | leaf :: rest =>
      '(shouldStop, s') ← walker leaf s;
      if shouldStop : bool then Ok s' else run_walker walker rest s'
  end.
End Callback.
Arguments walk_callback_t St : clear implicits.

(** ** The class NLeaf<int, N> *)

Section NLeafClass.
Variable N : Z.

(** [new NLeaf<int, N>(value)] (ntree.hpp:82-91): depth, index and child
    count 0, all [N] slots null. *)
Definition new_NLeaf (value : Z) (h : heap) : ptr * heap :=
  let l := mkNLeaf value 0 0 0 (replicate (Z.to_nat N) nullptr) in
  (next h, mkHeap (<[next h := l]> (cells h)) (next h + 1)).

(** [mChildren[index]] read; the array has [N] slots. *)
Definition read_child (l : NLeaf) (index : Z) : res ptr :=
  if (0 <=? index) && (index <? N)
  then of_option OutOfBounds (mChildren l !! Z.to_nat index)
  else Err OutOfBounds.

(** [mChildren[index] = leaf] on the node at [this]. *)
Definition write_child (h : heap) (this : ptr) (index : Z) (leaf : ptr)
  : res heap :=
  l ← load h this;
  if (0 <=? index) && (index <? N) && (index <? Z.of_nat (length (mChildren l)))
  then Ok (store h this (set_mChildren (<[Z.to_nat index := leaf]> (mChildren l)) l))
  else Err OutOfBounds.

(** The children a traversal pushes: [mChildren[c]] for
    [c = 0 .. mChildrenAmount - 1]. *)
Definition pushed_children (l : NLeaf) : res (list ptr) :=
  mapM (read_child l) (seqZ 0 (mChildrenAmount l)).

(** [Walk] (ntree.hpp:129-173): the loop over the queue [collected].  The
    children of the front node are pushed before the callback runs.  The
    callbacks of [Serialize], [GetMaxChildrenSubtree] and [GetByteSize]
    write no node, so the store is the same for the whole traversal; the
    callback of the destructor gives nodes back, and [Walk_store] below
    threads the store through it. *)
Fixpoint Walk_loop {St} (fuel : nat) (h : heap) (walker : walk_callback_t St)
    (collected : list ptr) (s : St) : res St :=
  match fuel with
  | O => Err OutOfFuel
  | S fuel' =>
      match collected with
      | [] => Ok s
      | leaf :: rest =>
          l ← load h leaf;
          kids ← pushed_children l;
          '(shouldStop, s') ← walker leaf s;
          if shouldStop : bool then Ok s'
          else Walk_loop fuel' h walker (rest ++ kids) s'
      end
  end.

Definition Walk {St} (fuel : nat) (h : heap) (this : ptr)
    (walker : walk_callback_t St) (includeSelf : bool) (s : St) : res St :=
  collected ← (if includeSelf then Ok [this]
               else l ← load h this; pushed_children l);
  Walk_loop fuel h walker collected s.

(** [SetNChild(index, leaf)] on the node at [this] (ntree.hpp:180-188),
    statement by statement; [mDepth + 1] and [mChildrenAmount++] are
    stored into [uint16_t] fields. *)
Definition SetNChild (h : heap) (this : ptr) (index : Z) (leaf : ptr)
  : res heap :=
  h1 ← write_child h this index leaf;
  l1 ← load h1 this;
  c ← read_child l1 index;
  h2 ← update h1 c (set_mChildIndex index);
  l2 ← load h2 this;
  h3 ← update h2 c (set_mDepth (to_uint16 (mDepth l2 + 1)));
  update h3 this (fun l => set_mChildrenAmount (to_uint16 (mChildrenAmount l + 1)) l).

(** [GetMaxChildrenSubtree(output, outputHolder)] (ntree.hpp:242-255); the
    two references are the state of the callback. *)
Definition max_children_walker (h : heap) : walk_callback_t (Z * ptr) :=
  fun leaf s =>
    l ← load h leaf;
    let amount := mChildrenAmount l in
    if s.1 <? amount then Ok (false, (amount, leaf)) else Ok (false, s).

Definition GetMaxChildrenSubtree (fuel : nat) (h : heap) (this : ptr)
    (output : Z) (outputHolder : ptr) : res (Z * ptr) :=
  Walk fuel h this (max_children_walker h) true (output, outputHolder).

(** [Serialize(stream, skipDeep, pretty)] (ntree.hpp:266-301); the output
    stream is the state of the callback.  [skipDeep] is a [uint16_t], so
    the default argument [-1] arrives as [to_uint16 (-1) = 65535], and in
    [skipDeep != -1] it is promoted to [int] before the comparison.  The
    record is written (line 289) before the depth is tested (line 292). *)
Definition serialize_walker (h : heap) (skipDeep : Z) (pretty : bool)
  : walk_callback_t string :=
  fun leaf stream =>
    l ← load h leaf;
    let stream :=
      if pretty then
        let tabDepth := if mDepth l <? 32 then mDepth l else 32 in
        let tabDepth := to_uint16 (tabDepth + mChildIndex l) in
        let stream := stream +:+ string_of_list_ascii
                                  (replicate (Z.to_nat tabDepth) tab) in
        stream +:+ print_int (mDepth l) +:+ ": "
      else stream in
    let stream := stream +:+ print_int (mChildrenAmount l) +:+ ":"
                         +:+ print_int (mValue l) +:+ String newline "" in
    if negb (skipDeep =? -1) && (skipDeep <? mDepth l)
    then Ok (true, stream +:+ "..." +:+ String newline "")
    else Ok (false, stream).

Definition Serialize (fuel : nat) (h : heap) (this : ptr) (stream : string)
    (skipDeep : Z) (pretty : bool) : res string :=
  Walk fuel h this (serialize_walker h skipDeep pretty) true stream.

End NLeafClass.

(** ** The destructor *)

(** [~NLeaf] (ntree.hpp:94-102) walks the nodes below [this] with a callback
    that deletes the visited node.  [delete leaf] runs [~NLeaf] on [leaf]
    and then gives its storage back.  [destroy] is the log of the releases,
    in their order, of a run in which storage that was given back stays
    readable with its old contents ([~NLeaf] writes no field).  It is the
    run of the program where no released node is read again; where one is,
    the read is undefined in C++, and [destructor_NLeaf] below, which takes
    the storage away, is the model. *)
Fixpoint destroy (N : Z) (fuel : nat) (h : heap) (this : ptr)
    (released : list ptr) : res (list ptr) :=
  match fuel with
  | O => Err OutOfFuel
  | S fuel' =>
      Walk N fuel' h this
        (fun leaf released =>
           released' ← destroy N fuel' h leaf released;
           Ok (false, released' ++ [leaf]))
        false released
  end.

(** *** The destructor with the storage given back *)

(** [delete] gives the storage of the node back: the address no longer
    points at a node. *)
Definition free (h : heap) (p : ptr) : heap :=
  mkHeap (delete p (cells h)) (next h).

Section WalkStore.
Variable N : Z.
Context {St : Type}.

(** A callback that changes the store. *)
Definition store_callback_t : Type :=
  ptr → heap → St → res (bool * heap * St).

(** [Walk] (ntree.hpp:129-173) with such a callback: [leaf->mChildrenAmount]
    and [leaf->mChildren[c]] (lines 159-162) are read from the store as
    the callbacks so far have left it. *)
Fixpoint Walk_store_loop (fuel : nat) (walker : store_callback_t)
    (collected : list ptr) (h : heap) (s : St) : res (heap * St) :=
  match fuel with
  | O => Err OutOfFuel
  | S fuel' =>
      match collected with
      | [] => Ok (h, s)
      | leaf :: rest =>
          l ← load h leaf;
          kids ← pushed_children N l;
          '(shouldStop, h', s') ← walker leaf h s;
          if shouldStop : bool then Ok (h', s')
          else Walk_store_loop fuel' walker (rest ++ kids) h' s'
      end
  end.

Definition Walk_store (fuel : nat) (this : ptr) (walker : store_callback_t)
    (includeSelf : bool) (h : heap) (s : St) : res (heap * St) :=
  collected ← (if includeSelf then Ok [this]
               else l ← load h this; pushed_children N l);
  Walk_store_loop fuel walker collected h s.
End WalkStore.
Arguments store_callback_t St : clear implicits.

(** [delete leaf] (ntree.hpp:98): [~NLeaf] on [leaf], then its storage is
    given back.  The state of the callback is the log of the releases. *)
Fixpoint delete_NLeaf (N : Z) (fuel : nat) (leaf : ptr) (h : heap)
    (released : list ptr) : res (heap * list ptr) :=
  match fuel with
  | O => Err OutOfFuel
  | S fuel' =>
      '(h', released') ←
        Walk_store N fuel' leaf
          (fun leaf h released =>
             '(h', released') ← delete_NLeaf N fuel' leaf h released;
             Ok (false, h', released'))
          false h released;
      Ok (free h' leaf, released' ++ [leaf])
  end.

(** [~NLeaf] (ntree.hpp:94-102) on the node at [this]. *)
Definition destructor_NLeaf (N : Z) (fuel : nat) (this : ptr) (h : heap)
    (released : list ptr) : res (heap * list ptr) :=
  Walk_store N fuel this
    (fun leaf h released =>
       '(h', released') ← delete_NLeaf N fuel leaf h released;
       Ok (false, h', released'))
    false h released.

(** ** Input streams *)

(** A [std::istream]: the characters not yet read and the result of
    [good()]. *)
Record istream : Type := mkIstream {
  buffer : string;
  good : bool
}.

(** The characters up to the first newline, and what follows that newline;
    [None] when the end of the input is hit first. *)
Fixpoint split_line (s : string) : string * option string :=
  match s with
  | EmptyString => (EmptyString, None)
  | String c s' =>
      if Ascii.eqb c newline then (EmptyString, Some s')
      else let '(line, rest) := split_line s' in (String c line, rest)
  end.

(** [std::getline(stream, curline)] on a stream that is [good()]: the
    delimiter is extracted and dropped; hitting the end of the input sets
    [eofbit] (and [failbit] when nothing was extracted). *)
Definition getline (stream : istream) : string * istream :=
  match split_line (buffer stream) with
  | (line, Some rest) => (line, mkIstream rest true)
  | (line, None) => (line, mkIstream EmptyString false)
  end.

(** [curline.find(c)]. *)
Fixpoint find (c : ascii) (s : string) : option nat :=
  match s with
  | EmptyString => None
  | String c' s' => if Ascii.eqb c' c then Some O else S <$> find c s'
  end.

(** ** Building a tree through a queue of pending slots *)

(** A [NLeaf<T, N>**]: the caller's variable, or the slot [mChildren[index]]
    of the node at [owner]. *)
Inductive slot : Type :=
  | VarSlot
  | ChildSlot (owner : ptr) (index : Z).

Record leaf_generation_data_t : Type := mkData {
  output : slot;
  parent : ptr;
  childIndex : Z
}.

(** The store, the caller's tree variable and the queue. *)
Record build_state : Type := mkBuild {
  bheap : heap;
  result : ptr;
  pending : list leaf_generation_data_t
}.

Section Building.
Variable N : Z.

(** [( *leafData.output ) = leaf]. *)
Definition write_slot (h : heap) (var : ptr) (s : slot) (leaf : ptr)
  : res (heap * ptr) :=
  match s with
  | VarSlot => Ok (h, leaf)
  | ChildSlot owner index =>
      h' ← write_child N h owner index leaf; Ok (h', var)
  end.

(** The statements [Deserialize] (ntree.hpp:346-353) and [GenerateTree]
    (main.cpp:28-38) share: [new NLeaf(value)] stored through
    [leafData.output], then attached to [leafData.parent] when there is
    one.  The result is the new node, the store and the caller's
    variable. *)
Definition create_leaf (leafData : leaf_generation_data_t) (value : Z)
    (h : heap) (var : ptr) : res (ptr * heap * ptr) :=
  let '(leaf, h1) := new_NLeaf N value h in
  '(h2, var2) ← write_slot h1 var (output leafData) leaf;
  h3 ← (if decide (parent leafData = nullptr) then Ok h2
        else SetNChild N h2 (parent leafData) (childIndex leafData) leaf);
  Ok (leaf, h3, var2).

(** The requests [{ leaf->GetNChild(c), leaf, c }] for
    [c = 0 .. childrenAmount - 1]. *)
Definition child_requests (leaf : ptr) (childrenAmount : Z)
  : list leaf_generation_data_t :=
  (fun c => mkData (ChildSlot leaf c) leaf c) <$> seqZ 0 childrenAmount.

(** *** Deserialize *)

Section Deserialize.
Variable valueDeserializer : string → res Z.

(** One pass of the loop body over a non-empty [curline]
    (ntree.hpp:328-362).  The parsed count is converted to [uint16_t]
    and compared with nothing. *)
Definition Deserialize_line (curline : string) (st : build_state)
  : res build_state :=
  match find colon curline with
  | None => Ok st
  | Some delimiterPos =>
      let childAmountString := substring 0 delimiterPos curline in
      let valueString :=
        substring (delimiterPos + 1)
                  (String.length curline - delimiterPos) curline in
      amount ← valueDeserializer childAmountString;
      let childrenAmount := to_uint16 amount in
      value ← valueDeserializer valueString;
      match pending st with
      | [] => Err NullDeref
      | leafData :: rest =>
          '(leaf, h, var) ← create_leaf leafData value (bheap st) (result st);
          Ok (mkBuild h var (rest ++ child_requests leaf childrenAmount))
      end
  end.

Fixpoint Deserialize_loop (fuel : nat) (stream : istream)
    (st : build_state) : res (istream * build_state) :=
  match fuel with
  | O => Err OutOfFuel
  | S fuel' =>
      if good stream && negb (Nat.eqb (length (pending st)) 0) then
        let '(curline, stream') := getline stream in
        if Nat.leb (String.length curline) 0
        then Deserialize_loop fuel' stream' st
        else st' ← Deserialize_line curline st;
             Deserialize_loop fuel' stream' st'
      else Ok (stream, st)
  end.

(** [Deserialize(stream, output, valueDeserializer)] (ntree.hpp:309-364);
    [var] is the value of [*output] at the call. *)
Definition Deserialize (fuel : nat) (stream : istream) (h : heap)
    (var : ptr) : res (istream * build_state) :=
  Deserialize_loop fuel stream
    (mkBuild h var [mkData VarSlot nullptr 0]).
End Deserialize.
End Building.

(** *** GenerateTree *)

(** [GenerateTree(maxLeaves)] (main.cpp:11-60) for [NTree<int, 5>].
    [rand k] is what the [k]-th call of [rand()] returns: a non-negative
    [int].  The limit is tested after the node is created (lines 41-45);
    on [break] the queue is left as it is. *)
Fixpoint GenerateTree_loop (fuel : nat) (rand : nat → nat) (maxLeaves : Z)
    (calls : nat) (leavesGenerated : Z) (st : build_state)
  : res build_state :=
  match fuel with
  | O => Err OutOfFuel
  | S fuel' =>
      match pending st with
      | [] => Ok st
      | leafData :: rest =>
          let leafValue := Z.of_nat (rand calls) mod 255 in
          '(leaf, h, var) ← create_leaf 5 leafData leafValue (bheap st) (result st);
          let leavesGenerated := leavesGenerated + 1 in
          if maxLeaves <=? leavesGenerated
          then Ok (mkBuild h var (pending st))
          else
            let childrenAmount := 2 + Z.of_nat (rand (S calls)) mod 4 in
            GenerateTree_loop fuel' rand maxLeaves (S (S calls)) leavesGenerated
              (mkBuild h var (rest ++ child_requests leaf childrenAmount))
      end
  end.

Definition GenerateTree (fuel : nat) (rand : nat → nat) (maxLeaves : Z)
    (h : heap) : res build_state :=
  GenerateTree_loop fuel rand maxLeaves 0 0
    (mkBuild h nullptr [mkData VarSlot nullptr 0]).

(** ** The value deserializer of the program: [std::stoi] (main.cpp:82-85) *)

Definition is_space (c : ascii) : bool :=
  let n := nat_of_ascii c in
  Nat.eqb n 32 || (Nat.leb 9 n && Nat.leb n 13).

Definition digit_val (c : ascii) : option Z :=
  let n := Z.of_nat (nat_of_ascii c) in
  if (48 <=? n) && (n <=? 57) then Some (n - 48) else None.

Fixpoint skip_space (s : string) : string :=
  match s with
  | String c s' => if is_space c then skip_space s' else s
  | EmptyString => s
  end.

Fixpoint parse_digits (s : string) (acc : Z) : Z :=
  match s with
  | String c s' =>
      match digit_val c with
      | Some d => parse_digits s' (10 * acc + d)
      | None => acc
      end
  | EmptyString => acc
  end.

(** Digits after optional white space and sign; what follows the digits is
    ignored. *)
Definition stoi (s : string) : res Z :=
  let s1 := skip_space s in
  let '(negative, s2) :=
    match s1 with
    | String "-" r => (true, r)
    | String "+" r => (false, r)
    | _ => (false, s1)
    end in
  match s2 with
  | String c _ =>
      match digit_val c with
      | Some _ =>
          let v := parse_digits s2 0 in
          let v := if negative : bool then - v else v in
          if (INT_MIN <=? v) && (v <=? INT_MAX) then Ok v else Err OutOfRange
      | None => Err InvalidArgument
      end
  | EmptyString => Err InvalidArgument
  end.

(** ** The other methods of the class *)

Definition SIZE_MOD : Z := 2 ^ 64.

Definition set_mValue (v : Z) (l : NLeaf) : NLeaf :=
  mkNLeaf v (mDepth l) (mChildIndex l) (mChildrenAmount l) (mChildren l).

Section NLeafRest.
Variable N : Z.

(** [new NLeaf<int, N>()] (ntree.hpp:70-79); [T()] is [0]. *)
Definition new_NLeaf_default (h : heap) : ptr * heap :=
  let l := mkNLeaf 0 0 0 0 (replicate (Z.to_nat N) nullptr) in
  (next h, mkHeap (<[next h := l]> (cells h)) (next h + 1)).

(** [GetNChild(index) const] (ntree.hpp:192-195): the child pointer. *)
Definition GetNChild_const (h : heap) (this : ptr) (index : Z) : res ptr :=
  l ← load h this; read_child N l index.

(** [GetNChild(index)] (ntree.hpp:202-205): the address of the slot. *)
Definition GetNChild (this : ptr) (index : Z) : slot := ChildSlot this index.

(** [GetValue], [SetValue], [GetDepth], [GetChildAmount],
    [GetChildIndex] (ntree.hpp:209-234). *)
Definition GetValue (h : heap) (this : ptr) : res Z :=
  l ← load h this; Ok (mValue l).
Definition SetValue (h : heap) (this : ptr) (value : Z) : res heap :=
  update h this (set_mValue value).
Definition GetDepth (h : heap) (this : ptr) : res Z :=
  l ← load h this; Ok (mDepth l).
Definition GetChildAmount (h : heap) (this : ptr) : res Z :=
  l ← load h this; Ok (mChildrenAmount l).
Definition GetChildIndex (h : heap) (this : ptr) : res Z :=
  l ← load h this; Ok (mChildIndex l).

(** [GetByteSize()] (ntree.hpp:105-117).  [sizeof( *leaf )] is the
    constant [sizeof(NLeaf<int, N>)]: its operand is not evaluated.  The
    sum is a [size_t], taken to have 64 bits. *)
Definition GetByteSize (sizeof_NLeaf : Z) (fuel : nat) (h : heap)
    (this : ptr) : res Z :=
  Walk N fuel h this
    (fun leaf result => Ok (false, (result + sizeof_NLeaf) mod SIZE_MOD))
    true 0.
End NLeafRest.

(** ** The program (main.cpp:62-171) *)

(** What the run of [main] depends on. *)
Record environment : Type := mkEnv {
  (** the contents of the file [ntree.nt], when it can be opened for
      reading *)
  ntree_nt : option string;
  (** whether [ntree.nt] can be opened for writing *)
  ntree_nt_writable : bool;
  (** the value [std::cin >> maxLeaves] leaves in [maxLeaves] *)
  cin_maxLeaves : Z;
  (** the values [rand()] returns, call by call *)
  env_rand : nat → nat;
  (** what [profile::GetProfiledTime().count()] and
      [profile::GetProfiledMemory()] report for the measurements of the
      run, in their order *)
  profiled_time : nat → Z;
  profiled_memory : nat → Z;
  (** [sizeof(NLeaf<int, 5>)] *)
  sizeof_NLeaf : Z
}.

Definition endl : string := String newline "".

(** The two lines printed after a measurement. *)
Definition profile_report (env : environment) (label : string) (k : nat)
  : string :=
  label +:+ print_int (profiled_time env k) +:+ " microseconds." +:+ endl
  +:+ String tab " with " +:+ print_int (profiled_memory env k)
  +:+ " bytes of memory allocated in total" +:+ endl +:+ endl.

(** The variables of [main] before its last statement: [tree], the store,
    what was written to [std::cout] and to the file behind [output] (when
    it is open), [maxChildren] and [maxChildrenSubtree]. *)
Record main_state : Type := mkMain {
  main_tree : ptr;
  main_heap : heap;
  main_cout : string;
  main_output : option string;
  maxChildren : Z;
  maxChildrenSubtree : ptr
}.

(** Lines 65-121: the tree is loaded from the file if there is one, and
    generated otherwise. *)
Definition main_obtain (fuel : nat) (env : environment)
  : res (ptr * heap * string * option string) :=
  match ntree_nt env with
  | Some input =>
      let '(tree, h) := new_NLeaf_default 5 empty_heap in
      '(_, st) ← Deserialize 5 stoi fuel (mkIstream input true) h tree;
      Ok (result st, bheap st,
          profile_report env "1. Deserialization (loading from file) took " 0,
          None)
  | None =>
      let cout := "Enter max amount of leaves: " +:+ endl in
      st ← GenerateTree fuel (env_rand env) (cin_maxLeaves env) empty_heap;
      Ok (result st, bheap st,
          cout +:+ profile_report env "1. Generation took " 0,
          if ntree_nt_writable env then Some EmptyString else None)
  end.

(** Lines 123-167: the search, the file, the size and the tree. *)
Definition main_before_last (fuel : nat) (env : environment) : res main_state :=
  '(tree, h, cout, output) ← main_obtain fuel env;
  '(maxChildren, maxChildrenSubtree) ←
    GetMaxChildrenSubtree 5 fuel h tree 0 nullptr;
  let cout := cout +:+ profile_report env "2. Search took " 1 in
  '(cout, output) ←
    match output with
    | Some file =>
        file ← Serialize 5 fuel h tree file (to_uint16 (-1)) false;
        Ok (cout +:+ profile_report env
                       "3. Serialization (writing to file) took " 2,
            Some file)
    | None => Ok (cout, None)
    end;
  size ← GetByteSize 5 (sizeof_NLeaf env) fuel h tree;
  let cout := cout +:+ print_int size +:+ " bytes used by tree" +:+ endl in
  let cout := cout +:+ endl +:+ "Tree: " +:+ endl in
  cout ← Serialize 5 fuel h tree cout 6 true;
  let cout := cout +:+ endl +:+ "Maximum children subtree: " +:+ endl in
  let cout := cout +:+ print_int maxChildren +:+ " children; Tree: " +:+ endl in
  Ok (mkMain tree h cout output maxChildren maxChildrenSubtree).

(** [main]: the exit code, what was written to [std::cout] and the contents
    of the file written, if any. *)
Definition main (fuel : nat) (env : environment)
  : res (Z * string * option string) :=
  s ← main_before_last fuel env;
  cout ← Serialize 5 fuel (main_heap s) (maxChildrenSubtree s) (main_cout s)
           6 true;
  Ok (0, cout, main_output s).

(** * Part II: the notions of the statements *)

(** ** Trees in the store *)

(** The shape of an owned subtree: the address of its root, the contents of
    that node and the subtrees under its first [mChildrenAmount] slots. *)
Unset Elimination Schemes.
Inductive tree : Type :=
  | Tree (a : ptr) (l : NLeaf) (ks : list tree).
Set Elimination Schemes.

Definition addr (t : tree) : ptr := match t with Tree a _ _ => a end.
Definition leaf (t : tree) : NLeaf := match t with Tree _ l _ => l end.
Definition kids (t : tree) : list tree := match t with Tree _ _ ks => ks end.

Section tree_ind.
Variable P : tree → Prop.
Hypothesis P_Tree : ∀ a l ks, Forall P ks → P (Tree a l ks).

Fixpoint tree_ind (t : tree) : P t :=
  match t with
  | Tree a l ks =>
      P_Tree a l ks
        ((fix go (ks : list tree) : Forall P ks :=
            match ks with
            | [] => @List.Forall_nil tree P
            | k :: ks' => @List.Forall_cons tree P k ks' (tree_ind k) (go ks')
            end) ks)
  end.
End tree_ind.

Fixpoint size (t : tree) : nat :=
  match t with Tree _ _ ks => S (sum_list_with size ks) end.

Fixpoint height (t : tree) : nat :=
  match t with Tree _ _ ks => S (max_list_with height ks) end.

(** All the nodes of a subtree, the root first. *)
Fixpoint nodes (t : tree) : list tree :=
  match t with Tree _ _ ks => t :: (ks ≫= nodes) end.

(** Breadth-first order: the first [n] levels of a forest, level by level,
    each level from left to right. *)
Fixpoint levels (n : nat) (ts : list tree) : list tree :=
  match n with
  | O => []
  | S n' => ts ++ levels n' (ts ≫= kids)
  end.

Definition bfs (t : tree) : list tree := levels (height t) [t].

(** The nodes below the root, in breadth-first order. *)
Definition bfs_below (t : tree) : list tree :=
  levels (pred (height t)) (kids t).

(** The order in which a queue hands out the nodes of a forest. *)
Fixpoint queue_order (fuel : nat) (q : list tree) : list tree :=
  match fuel, q with
  | S fuel', t :: q' => t :: queue_order fuel' (q' ++ kids t)
  | _, _ => []
  end.

Section TreeAt.
Variable N : Z.

(** The fields hold what their C++ types can hold. *)
Definition wf_leaf (l : NLeaf) : Prop :=
  is_int (mValue l) ∧ is_uint16 (mDepth l) ∧ is_uint16 (mChildIndex l) ∧
  is_uint16 (mChildrenAmount l) ∧ Z.of_nat (length (mChildren l)) = N.

(** [tree_at h t]: the store [h] holds the tree [t]. *)
Unset Elimination Schemes.
Inductive tree_at (h : heap) : tree → Prop :=
  | tree_at_Tree a l ks :
      cells h !! a = Some l →
      wf_leaf l →
      mChildrenAmount l = Z.of_nat (length ks) →
      take (length ks) (mChildren l) = addr <$> ks →
      Forall (tree_at h) ks →
      tree_at h (Tree a l ks).
Set Elimination Schemes.
End TreeAt.

(** ** Callbacks and observations used in the statements *)

(** A callback that never asks to stop, with [f] as its effect. *)
Definition always_false {St} (f : ptr → St → St) : walk_callback_t St :=
  fun leaf s => Ok (false, f leaf s).

(** A callback that counts its invocations and returns [true] on the
    [K]-th one, with [f] as its effect. *)
Definition stop_at {St} (K : Z) (f : ptr → St → St) : walk_callback_t (Z * St) :=
  fun leaf s =>
    let count := s.1 + 1 in
    Ok (count =? K, (count, f leaf s.2)).

(** The effect that records the visited node. *)
Definition record_visit (leaf : ptr) (visited : list ptr) : list ptr :=
  visited ++ [leaf].

(** [childCount] of the root of [t]. *)
Definition child_count (t : tree) : Z := mChildrenAmount (leaf t).

(** [m] is the largest [childCount] in [order] and [a] is the address of
    the first node of [order] that has it. *)
Definition first_max (order : list tree) (m : Z) (a : ptr) : Prop :=
  ∃ pre x post,
    order = pre ++ x :: post ∧ addr x = a ∧ child_count x = m ∧
    Forall (fun y => child_count y < m) pre ∧
    Forall (fun y => child_count y ≤ m) post.

(** The lines of a text, each closed by a newline. *)
Definition unlines (lines : list string) : string :=
  foldr (fun line text => line +:+ String newline text) EmptyString lines.

(** ** Sample stores *)

(** A root with two children, the first of which has one child; this is
    what [Deserialize] builds from the records [2:10], [1:-7], [0:3],
    [0:4]. *)
Definition sample_heap : heap :=
  mkHeap (list_to_map
            [(1, mkNLeaf 10 0 0 2 [2; 3; 0; 0; 0]);
             (2, mkNLeaf (-7) 1 0 1 [4; 0; 0; 0; 0]);
             (3, mkNLeaf 3 1 1 0 [0; 0; 0; 0; 0]);
             (4, mkNLeaf 4 2 0 0 [0; 0; 0; 0; 0])]) 5.

Definition sample_tree : tree :=
  Tree 1 (mkNLeaf 10 0 0 2 [2; 3; 0; 0; 0])
    [Tree 2 (mkNLeaf (-7) 1 0 1 [4; 0; 0; 0; 0])
       [Tree 4 (mkNLeaf 4 2 0 0 [0; 0; 0; 0; 0]) []];
     Tree 3 (mkNLeaf 3 1 1 0 [0; 0; 0; 0; 0]) []].

Definition sample_text : string :=
  unlines ["2:10"; "1:-7"; "0:3"; "0:4"].

(** A tree of one node, as [GenerateTree(1)] builds it. *)
Definition single_heap : heap :=
  mkHeap {[ 1 := mkNLeaf 7 0 0 0 [0; 0; 0; 0; 0] ]} 2.

Definition single_tree : tree :=
  Tree 1 (mkNLeaf 7 0 0 0 [0; 0; 0; 0; 0]) [].

(** A chain of three nodes: root, child, grandchild. *)
Definition chain_heap : heap :=
  mkHeap (list_to_map
            [(1, mkNLeaf 10 0 0 1 [2; 0; 0; 0; 0]);
             (2, mkNLeaf 20 1 0 1 [3; 0; 0; 0; 0]);
             (3, mkNLeaf 30 2 0 0 [0; 0; 0; 0; 0])]) 4.

Definition chain_tree : tree :=
  Tree 1 (mkNLeaf 10 0 0 1 [2; 0; 0; 0; 0])
    [Tree 2 (mkNLeaf 20 1 0 1 [3; 0; 0; 0; 0])
       [Tree 3 (mkNLeaf 30 2 0 0 [0; 0; 0; 0; 0]) []]].

(** A root with three children that have 5, 5 and 2 children: in
    breadth-first order the [childCount]s are 3, 5, 5, 2 and then 0 for the
    twelve nodes of the last level. *)
Definition max_sample_text : string :=
  unlines (["3:100"; "5:101"; "5:102"; "2:103"] ++ replicate 12 "0:0").

(** ** What a population queue has built *)

Definition sumZ (l : list Z) : Z := foldr Z.add 0 l.

(** Nodes are numbered in the order of their creation, the root being node
    0.  With [cs] the child counts requested so far, the children of node
    [j] are the nodes [first_child cs j], [first_child cs j + 1], ... *)
Definition first_child (cs : list Z) (j : nat) : Z := 1 + sumZ (take j cs).

Definition clamp (x c : Z) : Z := Z.max 0 (Z.min x c).

Section Built.
Variable N : Z.
(** The address of node 0. *)
Variable b : ptr.
(** For each node created so far, the child count requested for it and
    its value. *)
Variable rs : list (Z * Z).

Definition created : Z := Z.of_nat (length rs).

(** Node [j], for which [c] children were requested: it holds [v], and
    as many of its children as have been created are attached, in slot
    order. *)
Definition node_ok (h : heap) (j : nat) (c v : Z) : Prop :=
  ∃ l, cells h !! (b + Z.of_nat j) = Some l ∧
       mValue l = v ∧
       is_uint16 (mDepth l) ∧
       Z.of_nat (length (mChildren l)) = N ∧
       mChildrenAmount l = clamp (created - first_child rs.*1 j) c ∧
       ∀ t, 0 ≤ t < mChildrenAmount l →
            mChildren l !! Z.to_nat t = Some (b + first_child rs.*1 j + t).

(** The child in slot [t] of node [j] knows its slot and is one level
    below its parent, in 16-bit arithmetic. *)
Definition link_ok (h : heap) (j : nat) (t : Z) : Prop :=
  ∃ lp lc,
    cells h !! (b + Z.of_nat j) = Some lp ∧
    cells h !! (b + first_child rs.*1 j + t) = Some lc ∧
    mChildIndex lc = t ∧
    mDepth lc = to_uint16 (mDepth lp + 1).

(** The request at position [k] of the queue: the root request before
    anything is created, else the slot [t] of some node [j], to be filled
    by node [created + k]. *)
Definition request_ok (k : nat) (req : leaf_generation_data_t) : Prop :=
  (rs = [] ∧ req = mkData VarSlot nullptr 0) ∨
  ∃ j c v t,
    rs !! j = Some (c, v) ∧ 0 ≤ t < c ∧
    first_child rs.*1 j + t = created + Z.of_nat k ∧
    req = mkData (ChildSlot (b + Z.of_nat j) t) (b + Z.of_nat j) t.

Record built_heap (h : heap) (var : ptr) : Prop := {
  built_cap : 0 ≤ N;
  built_base : 0 < b;
  built_counts : Forall (fun r => is_uint16 r.1) rs;
  built_next : next h = b + created;
  built_result : 0 < created → var = b;
  built_root : 0 < created →
    ∃ l, cells h !! b = Some l ∧ mDepth l = 0 ∧ mChildIndex l = 0;
  built_fed : ∀ j, (j < length rs)%nat → Z.of_nat j < first_child rs.*1 j;
  built_nodes : ∀ j c v, rs !! j = Some (c, v) → node_ok h j c v;
  built_links : ∀ j c v t,
    rs !! j = Some (c, v) → 0 ≤ t < c →
    first_child rs.*1 j + t < created → link_ok h j t
}.

Record built_queue (q : list leaf_generation_data_t) : Prop := {
  built_pending_length :
    Z.of_nat (length q) = first_child rs.*1 (length rs) - created;
  built_pending : ∀ k req, q !! k = Some req → request_ok k req
}.
End Built.

(** ** Lines and records *)

(** The lines of a text, as [std::getline] delivers them. *)
Fixpoint stream_lines (s : string) : list string :=
  match s with
  | EmptyString => [EmptyString]
  | String c s' =>
      if Ascii.eqb c newline then EmptyString :: stream_lines s'
      else match stream_lines s' with
           | line :: lines => String c line :: lines
           | [] => [String c EmptyString]
           end
  end.

(** The child count and the value [Deserialize] reads from a line. *)
Definition line_record (valueDeserializer : string → res Z) (curline : string)
  : option (Z * Z) :=
  match find colon curline with
  | None => None
  | Some delimiterPos =>
      match valueDeserializer (substring 0 delimiterPos curline),
            valueDeserializer
              (substring (delimiterPos + 1)
                 (String.length curline - delimiterPos) curline) with
      | Ok amount, Ok value => Some (to_uint16 amount, value)
      | _, _ => None
      end
  end.

(** The line [Serialize] writes for a node with [c] children and value [v]. *)
Definition record_line (c v : Z) : string :=
  print_int c +:+ ":" +:+ print_int v +:+ String newline EmptyString.

Definition encode (rs : list (Z * Z)) : string :=
  foldr (fun r text => record_line r.1 r.2 +:+ text) EmptyString rs.

(** The record of a node. *)
Definition leaf_record (l : NLeaf) : Z * Z := (mChildrenAmount l, mValue l).

Definition tree_record (t : tree) : Z * Z := leaf_record (leaf t).

(** The effect that notes the record of the visited node. *)
Definition record_node (h : heap) (leaf : ptr) (log : list (Z * Z))
  : list (Z * Z) :=
  log ++ [from_option leaf_record (0, 0) (cells h !! leaf)].

(** ** Properties of a built tree *)

(** The effect that counts the visited node. *)
Definition count_node (leaf : ptr) (count : Z) : Z := count + 1.

(** Among the nodes at the addresses [lo .. hi - 1]: every attached child
    is a node, knows its slot, and its depth is its parent's depth plus one
    in 16-bit arithmetic. *)
Definition depth_linked (h : heap) (lo hi : ptr) : Prop :=
  ∀ p lp t c,
    lo ≤ p < hi → cells h !! p = Some lp →
    0 ≤ t < mChildrenAmount lp → mChildren lp !! Z.to_nat t = Some c →
    ∃ lc, cells h !! c = Some lc ∧ mChildIndex lc = t ∧
          is_uint16 (mDepth lp) ∧
          mDepth lc = to_uint16 (mDepth lp + 1).

(** The same with the depth of the child being exactly one more. *)
Definition depth_exact (h : heap) (lo hi : ptr) : Prop :=
  ∀ p lp t c,
    lo ≤ p < hi → cells h !! p = Some lp →
    0 ≤ t < mChildrenAmount lp → mChildren lp !! Z.to_nat t = Some c →
    ∃ lc, cells h !! c = Some lc ∧ mDepth lc = mDepth lp + 1.

Definition root_depth_0 (h : heap) (root : ptr) : Prop :=
  ∃ l, cells h !! root = Some l ∧ mDepth l = 0.

(** Every node at the addresses [lo .. hi - 1] has at most [N] children. *)
Definition within_capacity (N : Z) (h : heap) (lo hi : ptr) : Prop :=
  ∀ a, lo ≤ a < hi →
    ∃ l, cells h !! a = Some l ∧ 0 ≤ mChildrenAmount l ≤ N.

(** Every pending request for a child slot asks for a slot below [N]. *)
Definition requests_in_bounds (N : Z) (q : list leaf_generation_data_t) : Prop :=
  ∀ req p t, req ∈ q → output req = ChildSlot p t → 0 ≤ t < N.

(** ** More sample inputs *)

(** The records of a chain of [n + 1] nodes: [n] nodes with one child each
    and a last node without children. *)
Definition chain_records (n : nat) : list (Z * Z) :=
  replicate n (1, 0) ++ [(0, 0)].

(** One record that asks for six children, and six records for them. *)
Definition overfull_text : string :=
  unlines ("6:0" :: replicate 6 "0:0").

(** ** Auxiliary notions of the proofs *)

(** One step of the maximum search. *)
Definition max_step (s : Z * ptr) (x : tree) : Z * ptr :=
  if s.1 <? child_count x then (child_count x, addr x) else s.

(** The node [new NLeaf(value)] makes. *)
Definition fresh_leaf (N : Z) (value : Z) : NLeaf :=
  mkNLeaf value 0 0 0 (replicate (Z.to_nat N) nullptr).

(** Every character of [s] satisfies [p]. *)
Fixpoint all_chars (p : ascii → bool) (s : string) : bool :=
  match s with
  | EmptyString => true
  | String c s' => p c && all_chars p s'
  end.

Definition is_digit (c : ascii) : bool :=
  let n := nat_of_ascii c in Nat.leb 48 n && Nat.leb n 57.

Definition is_digit_or_minus (c : ascii) : bool :=
  is_digit c || Ascii.eqb c "-".

Definition is_record_char (c : ascii) : bool :=
  is_digit_or_minus c || Ascii.eqb c colon.

(** ** Notions for the further properties *)

(** What [Serialize] puts before the record of a node when [pretty] is
    set: the tabs, the depth and a colon. *)
Definition pretty_prefix (l : NLeaf) : string :=
  string_of_list_ascii
    (replicate
       (Z.to_nat (to_uint16 ((if mDepth l <? 32 then mDepth l else 32)
                             + mChildIndex l))) tab)
  +:+ print_int (mDepth l) +:+ ": ".

(** The line of a node. *)
Definition serialized_line (pretty : bool) (l : NLeaf) : string :=
  (if pretty then pretty_prefix l else EmptyString)
  +:+ record_line (mChildrenAmount l) (mValue l).

(** The lines of the nodes of [order] up to and including the first one
    that lies deeper than [skipDeep], which is followed by the marker. *)
Fixpoint serialized (skipDeep : Z) (pretty : bool) (order : list NLeaf)
  : string :=
  match order with
  | [] => EmptyString
  | l :: rest =>
      serialized_line pretty l
      +:+ (if skipDeep <? mDepth l then "..." +:+ endl
           else serialized skipDeep pretty rest)
  end.

(** A line in which [Deserialize] finds a delimiter. *)
Definition has_colon (line : string) : bool :=
  match find colon line with Some _ => true | None => false end.

(** [Deserialize] line by line: each line is given to the loop body, as
    long as the queue is not empty. *)
Fixpoint decode_lines (N : Z) (valueDeserializer : string → res Z)
    (lines : list string) (st : build_state) : res build_state :=
  match lines with
  | [] => Ok st
  | line :: lines' =>
      match pending st with
      | [] => Ok st
      | _ :: _ =>
          st' ← Deserialize_line N valueDeserializer line st;
          decode_lines N valueDeserializer lines' st'
      end
  end.

(** The tree [t] with the value [v] in the node at [p]. *)
Fixpoint with_value (p : ptr) (v : Z) (t : tree) : tree :=
  match t with
  | Tree a l ks =>
      Tree a (if decide (a = p) then set_mValue v l else l)
        (with_value p v <$> ks)
  end.

(** The callback of the destructor (ntree.hpp:97-101): it deletes the
    visited node and lets the traversal go on. *)
Definition deleter (N : Z) (h : heap) (fuel : nat)
  : walk_callback_t (list ptr) :=
  fun leaf released =>
    released' ← destroy N fuel h leaf released;
    Ok (false, released' ++ [leaf]).

(** The callback of the destructor when [delete] gives the storage back. *)
Definition delete_callback (N : Z) (fuel : nat)
  : store_callback_t (list ptr) :=
  fun leaf h released =>
    '(h', released') ← delete_NLeaf N fuel leaf h released;
    Ok (false, h', released').

(** What such a callback did on the node [x] in the store [h']: a null
    dereference, or it went on and [x] and all the nodes below it are
    gone from the store, which has lost nodes only. *)
Definition removes (x : tree) (h' : heap)
    (r : res (bool * heap * list ptr)) : Prop :=
  r = Err NullDeref ∨
  ∃ h'' released,
    r = Ok (false, h'', released) ∧ cells h'' ⊆ cells h' ∧
    cells h'' !! addr x = None ∧
    Forall (fun y => cells h'' !! addr y = None) (bfs_below x).

(** A tree held by [h] for which the fuel [M] is enough. *)
Definition small_tree (N : Z) (h : heap) (M : nat) (x : tree) : Prop :=
  tree_at N h x ∧ (size x + 1 < M)%nat.

(** * Part III: proofs *)

(** ** Traversal *)

Lemma bind_Ok {A B} (f : A → res B) (a : A) : (Ok a ≫= f) = f a.
Proof. reflexivity. Qed.

Lemma mapM_Ok {A B} (f : A → res B) (l : list A) (k : list B) :
  Forall2 (fun x y => f x = Ok y) l k → mapM f l = Ok k.
Proof.
  induction 1 as [|x y l k Hxy _ IH]; simpl; [done|].
  by rewrite Hxy, bind_Ok, IH.
Qed.

Section WalkFacts.
Variable N : Z.

Lemma tree_at_inv h a l ks :
  tree_at N h (Tree a l ks) →
  cells h !! a = Some l ∧ wf_leaf N l ∧
  mChildrenAmount l = Z.of_nat (length ks) ∧
  take (length ks) (mChildren l) = addr <$> ks ∧
  Forall (tree_at N h) ks.
Proof. by inversion 1. Qed.

Lemma tree_at_load h t : tree_at N h t → load h (addr t) = Ok (leaf t).
Proof.
  destruct t as [a l ks]. intros (Ha & _)%tree_at_inv.
  unfold load. simpl. by rewrite Ha.
Qed.

Lemma tree_at_amount_le h t :
  tree_at N h t → Z.of_nat (length (kids t)) ≤ N.
Proof.
  destruct t as [a l ks]. intros (_ & Hwf & _ & Htake & _)%tree_at_inv.
  destruct Hwf as (_ & _ & _ & _ & Hlen). simpl.
  apply (f_equal length) in Htake.
  rewrite length_take, length_fmap in Htake. lia.
Qed.

Lemma tree_at_child h t (i : nat) k :
  tree_at N h t → kids t !! i = Some k →
  read_child N (leaf t) (Z.of_nat i) = Ok (addr k).
Proof.
  intros Ht Hk. pose proof (tree_at_amount_le _ _ Ht) as Hle.
  destruct t as [a l ks]. apply tree_at_inv in Ht as (_ & _ & _ & Htake & _).
  simpl in *. pose proof (lookup_lt_Some _ _ _ Hk) as Hi.
  unfold read_child.
  replace ((0 <=? Z.of_nat i) && (Z.of_nat i <? N)) with true
    by (symmetry; apply andb_true_iff; split; [apply Z.leb_le|apply Z.ltb_lt]; lia).
  rewrite Nat2Z.id.
  assert (mChildren l !! i = Some (addr k)) as ->; [|done].
  rewrite <- (lookup_take_lt _ (length ks)) by lia.
  by rewrite Htake, list_lookup_fmap, Hk.
Qed.

Lemma tree_at_pushed h t :
  tree_at N h t → pushed_children N (leaf t) = Ok (addr <$> kids t).
Proof.
  intros Ht. unfold pushed_children. apply mapM_Ok.
  assert (mChildrenAmount (leaf t) = Z.of_nat (length (kids t))) as ->.
  { destruct t. by apply tree_at_inv in Ht as (_ & _ & ? & _). }
  apply Forall2_same_length_lookup. split.
  { by rewrite length_seqZ, length_fmap, Nat2Z.id. }
  intros i c a [-> Hi]%lookup_seqZ Ha.
  apply list_lookup_fmap_Some in Ha as (k & -> & Hk).
  rewrite Z.add_0_l. by eapply tree_at_child.
Qed.

Lemma tree_at_kids h t : tree_at N h t → Forall (tree_at N h) (kids t).
Proof. destruct t. by intros (_ & _ & _ & _ & ?)%tree_at_inv. Qed.

(** The loop of [Walk] hands the nodes to the callback in queue order. *)
Lemma Walk_loop_queue_order {St} h (walker : walk_callback_t St) fuel q s :
  Forall (tree_at N h) q →
  (sum_list_with size q < fuel)%nat →
  Walk_loop N fuel h walker (addr <$> q) s
  = run_walker walker (addr <$> queue_order fuel q) s.
Proof.
  revert q s. induction fuel as [|fuel IH]; intros q s Hq Hfuel; [lia|].
  destruct q as [|t q]; [done|].
  apply Forall_cons in Hq as [Ht Hq]. simpl.
  rewrite (tree_at_load _ _ Ht), bind_Ok, (tree_at_pushed _ _ Ht), bind_Ok.
  destruct (walker (addr t) s) as [[stop s']|e]; simpl; [|done].
  destruct stop; [done|].
  rewrite <- fmap_app. apply IH.
  - apply Forall_app; split; [done|]. by eapply tree_at_kids.
  - rewrite sum_list_with_app. destruct t; simpl in *. lia.
Qed.
End WalkFacts.

(** *** Queue order is level order *)

Lemma height_kid k ks : k ∈ ks → (height k ≤ max_list_with height ks)%nat.
Proof.
  induction 1 as [k ks|k k' ks _ IH]; simpl; lia.
Qed.

Lemma kids_height n (ts : list tree) :
  Forall (fun t => (height t ≤ S n)%nat) ts →
  Forall (fun t => (height t ≤ n)%nat) (ts ≫= kids).
Proof.
  induction 1 as [|t ts Ht _ IH]; [constructor|].
  rewrite bind_cons. apply Forall_app; split; [|done].
  destruct t as [a l ks]; simpl in *.
  apply Forall_forall. intros k Hk.
  apply height_kid in Hk. lia.
Qed.

Lemma kids_flat ts :
  Forall (fun t => (height t ≤ 1)%nat) ts → ts ≫= kids = [].
Proof.
  intros H%kids_height. destruct (ts ≫= kids) as [|t ?]; [done|].
  apply Forall_cons in H as [H _]. destruct t; simpl in *; lia.
Qed.

Lemma size_bind_kids ts :
  (sum_list_with size ts = length ts + sum_list_with size (ts ≫= kids))%nat.
Proof.
  induction ts as [|[a l ks] ts IH]; [done|].
  rewrite bind_cons, sum_list_with_app. simpl. lia.
Qed.

Lemma queue_order_levels n : ∀ q p fuel,
  Forall (fun t => (height t ≤ S n)%nat) (p ++ q) →
  (sum_list_with size (q ++ (p ≫= kids)) < fuel)%nat →
  queue_order fuel (q ++ (p ≫= kids)) = q ++ levels n ((p ++ q) ≫= kids).
Proof.
  induction n as [|n IHn].
  - induction q as [|t q IHq]; intros p fuel Hh Hfuel.
    + rewrite app_nil_r in *. rewrite (kids_flat p Hh). by destruct fuel.
    + destruct fuel as [|fuel]; [simpl in *; lia|]. simpl. f_equal.
      rewrite <- app_assoc.
      replace ((p ≫= kids) ++ kids t) with ((p ++ [t]) ≫= kids)
        by (rewrite bind_app; simpl; by rewrite app_nil_r).
      rewrite IHq; [done|by rewrite <- app_assoc|].
      revert Hfuel. rewrite !sum_list_with_app, bind_app, sum_list_with_app.
      simpl. rewrite app_nil_r. destruct t; simpl. lia.
  - induction q as [|t q IHq]; intros p fuel Hh Hfuel.
    + rewrite app_nil_r in *. simpl.
      rewrite <- (app_nil_r (p ≫= kids)) at 1.
      change (@nil tree) with (@nil tree ≫= kids) at 1.
      rewrite IHn; [done| |].
      * simpl. by apply kids_height.
      * simpl in *. rewrite app_nil_r. done.
    + destruct fuel as [|fuel]; [simpl in *; lia|]. simpl. f_equal.
      rewrite <- app_assoc.
      replace ((p ≫= kids) ++ kids t) with ((p ++ [t]) ≫= kids)
        by (rewrite bind_app; simpl; by rewrite app_nil_r).
      rewrite IHq; [by rewrite <- app_assoc|by rewrite <- app_assoc|].
      revert Hfuel. rewrite !sum_list_with_app, bind_app, sum_list_with_app.
      simpl. rewrite app_nil_r. destruct t; simpl. lia.
Qed.

Lemma bind_nodes_kids ts : ts ≫= nodes ≡ₚ ts ++ ((ts ≫= kids) ≫= nodes).
Proof.
  induction ts as [|[a l ks] ts IH]; [done|].
  simpl. constructor. rewrite bind_app, IH.
  by rewrite (Permutation_app_swap_app ts).
Qed.

(** Level order lists every node of the forest once. *)
Lemma levels_nodes n : ∀ ts,
  Forall (fun t => (height t ≤ n)%nat) ts → levels n ts ≡ₚ ts ≫= nodes.
Proof.
  induction n as [|n IH]; intros ts Hh.
  - destruct ts as [|t ts]; [done|].
    apply Forall_cons in Hh as [Ht _]. destruct t; simpl in *; lia.
  - simpl. rewrite IH by (by apply kids_height). by rewrite <- bind_nodes_kids.
Qed.

Lemma bfs_unfold t : bfs t = t :: bfs_below t.
Proof.
  unfold bfs, bfs_below. destruct t as [a l ks]. simpl. by rewrite app_nil_r.
Qed.

Lemma height_kids_le t :
  Forall (fun k => (height k ≤ pred (height t))%nat) (kids t).
Proof.
  destruct t as [a l ks]. simpl. apply Forall_forall. intros k Hk.
  by apply height_kid.
Qed.

Lemma bfs_nodes t : bfs t ≡ₚ nodes t.
Proof.
  unfold bfs. rewrite levels_nodes.
  - simpl. by rewrite app_nil_r.
  - by apply Forall_singleton.
Qed.

Lemma bfs_below_nodes t : bfs_below t ≡ₚ kids t ≫= nodes.
Proof. apply levels_nodes, height_kids_le. Qed.

Lemma length_nodes t : length (nodes t) = size t.
Proof.
  induction t as [a l ks IH] using tree_ind. simpl. f_equal.
  induction IH as [|k ks Hk _ IHks]; [done|].
  rewrite bind_cons, length_app. simpl. lia.
Qed.

Lemma length_bfs t : length (bfs t) = size t.
Proof. by rewrite bfs_nodes, length_nodes. Qed.

Lemma queue_order_bfs fuel t : (size t < fuel)%nat → queue_order fuel [t] = bfs t.
Proof.
  intros Hfuel. rewrite bfs_unfold. unfold bfs_below.
  pose proof (queue_order_levels (pred (height t)) [t] [] fuel) as H.
  simpl in H. rewrite !app_nil_r in H. apply H.
  - apply Forall_singleton. lia.
  - lia.
Qed.

Lemma queue_order_bfs_below fuel t :
  (size t < fuel)%nat → queue_order fuel (kids t) = bfs_below t.
Proof.
  intros Hfuel. unfold bfs_below.
  pose proof (queue_order_levels (pred (height t)) [] [t] fuel) as H.
  simpl in H. rewrite !app_nil_r in H. apply H.
  - apply Forall_singleton. lia.
  - destruct t; simpl in *. lia.
Qed.

Section WalkOrder.
Variable N : Z.

(** [Walk] with [includeSelf = true] runs the callback along the
    breadth-first order of the subtree. *)
Lemma Walk_bfs {St} h t (walker : walk_callback_t St) fuel s :
  tree_at N h t → (size t < fuel)%nat →
  Walk N fuel h (addr t) walker true s
  = run_walker walker (addr <$> bfs t) s.
Proof.
  intros Ht Hfuel. unfold Walk. rewrite bind_Ok.
  change [addr t] with (addr <$> [t]).
  rewrite (Walk_loop_queue_order N), queue_order_bfs; try done.
  - by apply Forall_singleton.
  - simpl. lia.
Qed.

(** With [includeSelf = false] it runs along the nodes below the root. *)
Lemma Walk_bfs_below {St} h t (walker : walk_callback_t St) fuel s :
  tree_at N h t → (size t < fuel)%nat →
  Walk N fuel h (addr t) walker false s
  = run_walker walker (addr <$> bfs_below t) s.
Proof.
  intros Ht Hfuel. unfold Walk.
  rewrite (tree_at_load N _ _ Ht), bind_Ok, (tree_at_pushed N _ _ Ht), bind_Ok.
  rewrite (Walk_loop_queue_order N), queue_order_bfs_below; try done.
  - by eapply tree_at_kids.
  - destruct t; simpl in *. lia.
Qed.

(** Two trees held at the same address have the same height, so no node
    of a tree is held at the address of one of its ancestors. *)
Lemma tree_at_height h t1 : ∀ t2,
  tree_at N h t1 → tree_at N h t2 → addr t1 = addr t2 →
  height t1 = height t2.
Proof.
  induction t1 as [a1 l1 ks1 IH] using tree_ind. intros [a2 l2 ks2] H1 H2 Ha.
  apply tree_at_inv in H1 as (Hl1 & _ & Hn1 & Hk1 & Hf1).
  apply tree_at_inv in H2 as (Hl2 & _ & Hn2 & Hk2 & Hf2).
  simpl in Ha. subst a2. rewrite Hl1 in Hl2. injection Hl2 as <-.
  assert (length ks1 = length ks2) as Hlen by lia.
  rewrite <- Hlen, Hk1 in Hk2. clear Hl1 Hn1 Hn2 Hk1 Hlen. simpl. f_equal.
  revert ks2 Hk2 Hf2. induction IH as [|k1 ks1 Hk _ IHks]; intros [|k2 ks2] Heq Hf2;
    try done.
  apply Forall_cons in Hf1 as [Hk1 Hf1]. apply Forall_cons in Hf2 as [Hk2 Hf2].
  injection Heq as Ha Heq. simpl. f_equal; [by apply Hk|by apply IHks].
Qed.

Lemma tree_at_nodes h t : tree_at N h t → Forall (tree_at N h) (nodes t).
Proof.
  induction t as [a l ks IH] using tree_ind. intros Ht.
  simpl. constructor; [done|].
  apply tree_at_kids in Ht. simpl in Ht.
  induction IH as [|k ks Hk _ IHks]; [constructor|].
  apply Forall_cons in Ht as [Ht1 Ht2]. simpl. apply Forall_app. auto.
Qed.

Lemma height_below t d : d ∈ kids t ≫= nodes → (height d < height t)%nat.
Proof.
  revert d. induction t as [a l ks IH] using tree_ind. intros d Hd. simpl in *.
  apply list_elem_of_bind in Hd as (k & Hd & Hk).
  rewrite Forall_forall in IH. specialize (IH k Hk d).
  pose proof (height_kid k ks Hk).
  destruct k as [ak lk kks]. simpl in Hd.
  apply elem_of_cons in Hd as [->|Hd]; [simpl in *; lia|].
  specialize (IH Hd). lia.
Qed.

Lemma root_not_below h t : tree_at N h t → addr t ∉ addr <$> bfs_below t.
Proof.
  intros Ht (d & Ha & Hd)%list_elem_of_fmap.
  rewrite bfs_below_nodes in Hd.
  pose proof (height_below _ _ Hd) as Hlt.
  assert (tree_at N h d) as Hdt.
  { pose proof (tree_at_nodes _ _ Ht) as Hall. rewrite Forall_forall in Hall.
    apply Hall. destruct t; simpl. right. done. }
  pose proof (tree_at_height h t d Ht Hdt Ha). lia.
Qed.
End WalkOrder.

(** *** Callbacks *)

Lemma run_walker_never_stops {St} (f : ptr → St → St) order s :
  run_walker (fun leaf s => Ok (false, f leaf s)) order s
  = Ok (foldl (fun s leaf => f leaf s) s order).
Proof. revert s. induction order as [|a order IH]; intros s; simpl; [done|apply IH]. Qed.

Lemma run_walker_always_false {St} (f : ptr → St → St) order s :
  run_walker (always_false f) order s
  = Ok (foldl (fun s leaf => f leaf s) s order).
Proof. revert s. induction order as [|a order IH]; intros s; simpl; [done|apply IH]. Qed.

Lemma run_walker_stop_at {St} (f : ptr → St → St) K order : ∀ count s,
  count < K ≤ count + Z.of_nat (length order) →
  run_walker (stop_at K f) order (count, s)
  = Ok (K, foldl (fun s leaf => f leaf s) s (take (Z.to_nat (K - count)) order)).
Proof.
  induction order as [|a order IH]; intros count s HK; simpl in *; [lia|].
  destruct (Z.eqb_spec (count + 1) K) as [<-|Hne].
  - replace (Z.to_nat (count + 1 - count)) with 1%nat by lia. done.
  - rewrite IH by lia.
    replace (Z.to_nat (K - count)) with (S (Z.to_nat (K - (count + 1)))) by lia.
    done.
Qed.

Lemma foldl_record_visit order visited :
  foldl (fun s leaf => record_visit leaf s) visited order = visited ++ order.
Proof.
  revert visited. induction order as [|a order IH]; intros visited; simpl.
  - by rewrite app_nil_r.
  - rewrite IH. unfold record_visit. by rewrite <- app_assoc.
Qed.

(** *** The maximum search *)

Lemma max_children_walker_step N h t s :
  tree_at N h t → max_children_walker h (addr t) s = Ok (false, max_step s t).
Proof.
  intros Ht. unfold max_children_walker, max_step, child_count.
  rewrite (tree_at_load N _ _ Ht), bind_Ok.
  by destruct (s.1 <? mChildrenAmount (leaf t)).
Qed.

Lemma run_max_children_walker N h order s :
  Forall (tree_at N h) order →
  run_walker (max_children_walker h) (addr <$> order) s
  = Ok (foldl max_step s order).
Proof.
  revert s. induction order as [|t order IH]; intros s Hall; [done|].
  apply Forall_cons in Hall as [Ht Hall].
  rewrite fmap_cons. cbn [run_walker foldl].
  rewrite (max_children_walker_step N _ _ _ Ht), bind_Ok. by apply IH.
Qed.

Lemma foldl_max_step_below order : ∀ s,
  Forall (fun y => child_count y ≤ s.1) order → foldl max_step s order = s.
Proof.
  induction order as [|t order IH]; intros s Hall; [done|].
  apply Forall_cons in Hall as [Ht Hall]. simpl. unfold max_step at 2.
  destruct (Z.ltb_spec s.1 (child_count t)); [lia|]. by apply IH.
Qed.

Lemma first_max_bound order m a x :
  first_max order m a → x ∈ order → child_count x ≤ m.
Proof.
  intros (pre & y & post & -> & _ & Hy & Hpre & Hpost) Hx.
  rewrite Forall_forall in Hpre, Hpost.
  apply elem_of_app in Hx as [Hx|Hx]; [specialize (Hpre _ Hx); lia|].
  apply elem_of_cons in Hx as [->|Hx]; [lia|]. by apply Hpost.
Qed.

Lemma first_max_cons order m a x :
  first_max order m a → child_count x < m → first_max (x :: order) m a.
Proof.
  intros (pre & y & post & -> & Ha & Hy & Hpre & Hpost) Hx.
  exists (x :: pre), y, post. repeat split; try done. by constructor.
Qed.

Lemma foldl_max_step_above order : ∀ s,
  Exists (fun y => s.1 < child_count y) order →
  ∃ m a, foldl max_step s order = (m, a) ∧ first_max order m a.
Proof.
  induction order as [|t order IH]; intros s Hex; [by apply Exists_nil in Hex|].
  simpl. unfold max_step at 2.
  destruct (Z.ltb_spec s.1 (child_count t)) as [Hlt|Hge].
  - destruct (decide (Exists (fun y => child_count t < child_count y) order))
      as [Hmore|Hnone].
    + destruct (IH (child_count t, addr t) Hmore) as (m & a & Hfold & Hmax).
      exists m, a. split; [done|]. apply first_max_cons; [done|].
      apply Exists_exists in Hmore as (y & Hy & Hlty).
      pose proof (first_max_bound _ _ _ _ Hmax Hy). simpl in *. lia.
    + apply not_Exists_Forall in Hnone; [|intros y; apply _].
      exists (child_count t), (addr t). split.
      * apply foldl_max_step_below. simpl.
        eapply Forall_impl; [exact Hnone|]. simpl. lia.
      * exists [], t, order. repeat split; [constructor|].
        eapply Forall_impl; [exact Hnone|]. simpl. lia.
  - apply Exists_cons in Hex as [Hex|Hex]; [lia|].
    destruct (IH s Hex) as (m & a & Hfold & Hmax).
    exists m, a. split; [done|]. apply first_max_cons; [done|].
    apply Exists_exists in Hex as (y & Hy & Hlty).
    pose proof (first_max_bound _ _ _ _ Hmax Hy). lia.
Qed.

(** ** Building through the queue *)

(** *** Arithmetic of the numbering *)

Lemma sumZ_app l k : sumZ (l ++ k) = sumZ l + sumZ k.
Proof. induction l as [|x l IH]; simpl; lia. Qed.

Lemma first_child_0 cs : first_child cs 0 = 1.
Proof. done. Qed.

Lemma first_child_S cs j c :
  cs !! j = Some c → first_child cs (S j) = first_child cs j + c.
Proof.
  intros Hc. unfold first_child.
  rewrite (take_S_r _ _ _ Hc), sumZ_app. simpl. lia.
Qed.

Lemma first_child_snoc cs c j :
  (j ≤ length cs)%nat → first_child (cs ++ [c]) j = first_child cs j.
Proof. intros Hj. unfold first_child. by rewrite take_app_le. Qed.

Lemma first_child_mono cs j1 j2 :
  Forall (fun c => 0 ≤ c) cs → (j1 ≤ j2)%nat → first_child cs j1 ≤ first_child cs j2.
Proof.
  intros Hcs. induction 1 as [|j2 Hle IH]; [lia|].
  destruct (cs !! j2) as [c|] eqn:Hc.
  - rewrite (first_child_S _ _ _ Hc).
    rewrite Forall_forall in Hcs.
    assert (0 ≤ c) by (apply Hcs; by eapply list_elem_of_lookup_2). lia.
  - apply lookup_ge_None in Hc.
    assert (first_child cs (S j2) = first_child cs j2) as ->; [|done].
    unfold first_child. by rewrite !take_ge by lia.
Qed.

(** The children of different nodes are different nodes. *)
Lemma first_child_disjoint cs j1 j2 c1 :
  Forall (fun c => 0 ≤ c) cs → cs !! j1 = Some c1 → (j1 < j2)%nat →
  first_child cs j1 + c1 ≤ first_child cs j2.
Proof.
  intros Hcs Hc Hlt. rewrite <- (first_child_S _ _ _ Hc).
  apply first_child_mono; [done|lia].
Qed.

Lemma first_child_unique cs j1 j2 c1 c2 t1 t2 :
  Forall (fun c => 0 ≤ c) cs →
  cs !! j1 = Some c1 → cs !! j2 = Some c2 →
  0 ≤ t1 < c1 → 0 ≤ t2 < c2 →
  first_child cs j1 + t1 = first_child cs j2 + t2 →
  j1 = j2 ∧ t1 = t2.
Proof.
  intros Hcs H1 H2 Ht1 Ht2 Heq.
  destruct (Nat.lt_trichotomy j1 j2) as [Hlt|[->|Hlt]].
  - pose proof (first_child_disjoint _ _ _ _ Hcs H1 Hlt). lia.
  - split; [done|lia].
  - pose proof (first_child_disjoint _ _ _ _ Hcs H2 Hlt). lia.
Qed.

Lemma counts_nonneg (rs : list (Z * Z)) :
  Forall (fun r => is_uint16 r.1) rs → Forall (fun c => 0 ≤ c) rs.*1.
Proof.
  intros H. apply Forall_fmap. eapply Forall_impl; [exact H|].
  intros r Hr. unfold is_uint16 in Hr. simpl. lia.
Qed.

Lemma to_uint16_small z : is_uint16 z → to_uint16 z = z.
Proof. unfold is_uint16, to_uint16, UINT16_MOD. intros. by apply Z.mod_small. Qed.

Lemma to_uint16_range z : is_uint16 (to_uint16 z).
Proof. unfold is_uint16, to_uint16, UINT16_MOD. apply Z.mod_pos_bound. lia. Qed.

(** *** The store operations *)

Section StoreOps.
Variable N : Z.

Lemma read_child_lookup l index p :
  0 ≤ index < N → mChildren l !! Z.to_nat index = Some p →
  read_child N l index = Ok p.
Proof.
  intros Hi Hp. unfold read_child.
  replace ((0 <=? index) && (index <? N)) with true
    by (symmetry; apply andb_true_iff; split; [apply Z.leb_le|apply Z.ltb_lt]; lia).
  by rewrite Hp.
Qed.

Lemma write_child_Ok h this index p lp :
  cells h !! this = Some lp →
  0 ≤ index < N → Z.of_nat (length (mChildren lp)) = N →
  write_child N h this index p
  = Ok (store h this (set_mChildren (<[Z.to_nat index := p]> (mChildren lp)) lp)).
Proof.
  intros Hlp Hi Hlen. unfold write_child, load. rewrite Hlp. simpl.
  replace ((0 <=? index) && (index <? N) &&
           (index <? Z.of_nat (length (mChildren lp)))) with true; [done|].
  symmetry. rewrite !andb_true_iff, Z.leb_le, !Z.ltb_lt. lia.
Qed.

Lemma write_child_out_of_bounds h this index p :
  ¬ (0 ≤ index < N) → ∀ h', write_child N h this index p ≠ Ok h'.
Proof.
  intros Hi h'. unfold write_child.
  destruct (load h this) as [l|]; simpl; [|done].
  replace ((0 <=? index) && (index <? N)) with false; [done|].
  symmetry. apply andb_false_iff. rewrite Z.leb_gt, Z.ltb_ge. lia.
Qed.

Lemma load_Some h p l : cells h !! p = Some l → load h p = Ok l.
Proof. intros H. unfold load. by rewrite H. Qed.

Lemma load_store_eq h p l : load (store h p l) p = Ok l.
Proof. unfold load, store. simpl. by rewrite lookup_insert_eq. Qed.

Lemma load_store_ne h p q l : p ≠ q → load (store h p l) q = load h q.
Proof. intros. unfold load, store. simpl. by rewrite lookup_insert_ne. Qed.

Lemma update_Ok h p l f : load h p = Ok l → update h p f = Ok (store h p (f l)).
Proof. intros H. unfold update. by rewrite H. Qed.

(** What [SetNChild] leaves in the store. *)
Lemma SetNChild_Ok h this index p lp lc :
  cells h !! this = Some lp → cells h !! p = Some lc → this ≠ p →
  0 ≤ index < N → Z.of_nat (length (mChildren lp)) = N →
  SetNChild N h this index p
  = Ok (mkHeap
          (<[this := mkNLeaf (mValue lp) (mDepth lp) (mChildIndex lp)
                       (to_uint16 (mChildrenAmount lp + 1))
                       (<[Z.to_nat index := p]> (mChildren lp))]>
             (<[p := mkNLeaf (mValue lc) (to_uint16 (mDepth lp + 1)) index
                       (mChildrenAmount lc) (mChildren lc)]> (cells h)))
          (next h)).
Proof.
  intros Hlp Hlc Hne Hi Hlen. unfold SetNChild.
  rewrite (write_child_Ok _ _ _ _ _ Hlp Hi Hlen), bind_Ok.
  rewrite load_store_eq, bind_Ok.
  rewrite (read_child_lookup _ _ p), bind_Ok; [|done|].
  2:{ simpl. apply list_lookup_insert_eq. lia. }
  erewrite update_Ok, bind_Ok
    by (rewrite load_store_ne by done; by apply load_Some).
  rewrite load_store_ne, load_store_eq, bind_Ok by done.
  erewrite update_Ok, bind_Ok by apply load_store_eq.
  erewrite update_Ok
    by (rewrite !load_store_ne by done; apply load_store_eq).
  f_equal. unfold store. simpl. f_equal.
  apply map_eq. intros a.
  destruct (decide (a = this)) as [->|Hat].
  { by rewrite !lookup_insert_eq. }
  rewrite !(lookup_insert_ne _ this) by done.
  destruct (decide (a = p)) as [->|Hap].
  { by rewrite !lookup_insert_eq. }
  rewrite !(lookup_insert_ne _ p) by done.
  by rewrite lookup_insert_ne.
Qed.
End StoreOps.

(** *** One node more *)

Section Step.
Variable N : Z.

Lemma create_leaf_root value h var :
  create_leaf N (mkData VarSlot nullptr 0) value h var
  = Ok (next h,
        mkHeap (<[next h := fresh_leaf N value]> (cells h)) (next h + 1),
        next h).
Proof. done. Qed.

Lemma create_leaf_child p t value h var lp :
  cells h !! p = Some lp → p ≠ nullptr → p ≠ next h →
  0 ≤ t < N → Z.of_nat (length (mChildren lp)) = N →
  create_leaf N (mkData (ChildSlot p t) p t) value h var
  = Ok (next h,
        mkHeap
          (<[p := mkNLeaf (mValue lp) (mDepth lp) (mChildIndex lp)
                    (to_uint16 (mChildrenAmount lp + 1))
                    (<[Z.to_nat t := next h]> (mChildren lp))]>
             (<[next h := mkNLeaf value (to_uint16 (mDepth lp + 1)) t 0
                            (replicate (Z.to_nat N) nullptr)]> (cells h)))
          (next h + 1),
        var).
Proof.
  intros Hlp Hnull Hfresh Ht Hlen. unfold create_leaf, new_NLeaf. simpl.
  erewrite write_child_Ok; [|simpl; by rewrite lookup_insert_ne|done|done].
  rewrite bind_Ok. cbn [bind_Ok]. simpl.
  destruct (decide (p = nullptr)) as [?|_]; [done|].
  erewrite SetNChild_Ok; [| | |done|done|].
  2:{ unfold store. simpl. apply lookup_insert_eq. }
  2:{ unfold store. simpl. rewrite lookup_insert_ne by done. apply lookup_insert_eq. }
  2:{ simpl. by rewrite length_insert. }
  simpl.
  match goal with
  | |- Ok (_, mkHeap ?m1 _, _) = Ok (_, mkHeap ?m2 _, _) =>
      assert (m1 = m2) as ->; [|done]
  end.
  apply map_eq. intros a.
  destruct (decide (a = p)) as [->|Hap].
  { rewrite !lookup_insert_eq. by rewrite list_insert_insert_eq. }
  rewrite !(lookup_insert_ne _ p) by done.
  destruct (decide (a = next h)) as [->|Han].
  { by rewrite !lookup_insert_eq. }
  by repeat (rewrite lookup_insert_ne by done).
Qed.

Lemma create_leaf_out_of_bounds p t value h var :
  ¬ (0 ≤ t < N) →
  ∀ r, create_leaf N (mkData (ChildSlot p t) p t) value h var ≠ Ok r.
Proof.
  intros Ht r. unfold create_leaf, new_NLeaf. simpl.
  destruct (write_child N _ p t (next h)) as [h2|e] eqn:Hw; [|done].
  by apply write_child_out_of_bounds in Hw.
Qed.

Lemma lookup_child_requests a c k req :
  child_requests a c !! k = Some req ↔
  Z.of_nat k < c ∧ req = mkData (ChildSlot a (Z.of_nat k)) a (Z.of_nat k).
Proof.
  unfold child_requests. rewrite list_lookup_fmap_Some.
  setoid_rewrite lookup_seqZ. split.
  - intros (t & -> & -> & Hk). by rewrite Z.add_0_l.
  - intros [Hk ->]. exists (Z.of_nat k). by rewrite Z.add_0_l.
Qed.

Lemma length_child_requests a c : length (child_requests a c) = Z.to_nat c.
Proof. unfold child_requests. by rewrite length_fmap, length_seqZ. Qed.

Lemma created_snoc rs r : created (rs ++ [r]) = created rs + 1.
Proof. unfold created. rewrite length_app. simpl. lia. Qed.

Lemma first_child_last (rs : list (Z * Z)) c v :
  first_child (rs ++ [(c, v)]).*1 (S (length rs))
  = first_child rs.*1 (length rs) + c.
Proof.
  rewrite fmap_app. simpl.
  rewrite (first_child_S _ _ c).
  - rewrite first_child_snoc; [done|by rewrite length_fmap].
  - rewrite lookup_app_r by (by rewrite length_fmap).
    by rewrite length_fmap, Nat.sub_diag.
Qed.

Lemma first_child_old (rs : list (Z * Z)) r j :
  (j ≤ length rs)%nat →
  first_child (rs ++ [r]).*1 j = first_child rs.*1 j.
Proof.
  intros Hj. rewrite fmap_app. simpl. apply first_child_snoc.
  by rewrite length_fmap.
Qed.

(** The queue after the front request is served and the children of the
    new node are requested. *)
Lemma built_queue_step b rs req q c v :
  Forall (fun r => is_uint16 r.1) rs → is_uint16 c →
  built_queue b rs (req :: q) →
  built_queue b (rs ++ [(c, v)]) (q ++ child_requests (b + created rs) c).
Proof.
  intros Hrs Hc [Hlen Hreq]. simpl in Hlen. split.
  - rewrite length_app, length_child_requests, created_snoc.
    rewrite length_app. simpl. rewrite Nat.add_1_r, first_child_last.
    unfold is_uint16 in Hc. lia.
  - intros k r Hr. right.
    destruct (decide (k < length q)%nat) as [Hk|Hk].
    + rewrite lookup_app_l in Hr by done.
      destruct (Hreq (S k) r Hr) as [[-> _]|(j & c0 & v0 & t & Hj & Ht & Hfc & ->)].
      { simpl in Hlen. unfold created, first_child in Hlen. simpl in Hlen. lia. }
      exists j, c0, v0, t. split; [by apply lookup_app_l_Some|].
      split; [done|]. split; [|done].
      rewrite first_child_old by (apply lookup_lt_Some in Hj; lia).
      rewrite created_snoc. lia.
    + rewrite lookup_app_r in Hr by lia.
      apply lookup_child_requests in Hr as [Hkc ->].
      exists (length rs), c, v, (Z.of_nat (k - length q)).
      split; [by rewrite lookup_app_r, Nat.sub_diag by lia|].
      split; [lia|]. split; [|done].
      rewrite first_child_old, created_snoc by lia. unfold created in *. lia.
Qed.
End Step.

Section HeapStep.
Variable N : Z.
Variable b : ptr.

Lemma clamp_inside t c : 0 ≤ t ≤ c → clamp t c = t.
Proof. unfold clamp. lia. Qed.

Lemma clamp_before x c : x ≤ 0 → 0 ≤ c → clamp x c = 0.
Proof. unfold clamp. lia. Qed.

Lemma clamp_after x c : c ≤ x → 0 ≤ c → clamp x c = c.
Proof. unfold clamp. lia. Qed.

(** The first node. *)
Lemma built_heap_root h var c v :
  built_heap N b [] h var → is_uint16 c →
  built_heap N b [(c, v)]
    (mkHeap (<[next h := fresh_leaf N v]> (cells h)) (next h + 1)) (next h).
Proof.
  intros [Hcap Hb _ Hnext _ _ _ _ _] Hc.
  unfold created in Hnext. simpl in Hnext. rewrite Z.add_0_r in Hnext.
  rewrite Hnext.
  split.
  - done.
  - done.
  - by apply Forall_singleton.
  - simpl. unfold created. simpl. lia.
  - done.
  - intros _. exists (fresh_leaf N v). simpl. by rewrite lookup_insert_eq.
  - intros [|j] Hj; simpl in Hj; [|lia]. unfold first_child. simpl. lia.
  - intros [|j] c' v' Hj; [|done]. injection Hj as <- <-.
    exists (fresh_leaf N v). simpl. rewrite Z.add_0_r, lookup_insert_eq.
    unfold is_uint16 in Hc.
    split; [done|]. split; [done|]. split; [done|].
    split; [simpl; rewrite length_replicate; lia|]. simpl. split.
    + rewrite clamp_before; [done| |lia]. unfold created, first_child. simpl. lia.
    + intros t Ht. lia.
  - intros [|j] c' v' t Hj Ht; [|done]. unfold created, first_child. simpl. lia.
Qed.

(** One node more, attached to slot [t] of node [j]. *)
Lemma built_heap_child rs h var j cj vj t lp c v :
  built_heap N b rs h var →
  rs !! j = Some (cj, vj) → 0 ≤ t < cj → 0 ≤ t < N →
  first_child rs.*1 j + t = created rs →
  created rs < first_child rs.*1 (length rs) →
  cells h !! (b + Z.of_nat j) = Some lp →
  is_uint16 c →
  built_heap N b (rs ++ [(c, v)])
    (mkHeap
       (<[b + Z.of_nat j :=
            mkNLeaf (mValue lp) (mDepth lp) (mChildIndex lp)
              (to_uint16 (mChildrenAmount lp + 1))
              (<[Z.to_nat t := next h]> (mChildren lp))]>
          (<[next h := mkNLeaf v (to_uint16 (mDepth lp + 1)) t 0
                         (replicate (Z.to_nat N) nullptr)]> (cells h)))
       (next h + 1))
    var.
Proof.
  intros [Hcap Hb Hcounts Hnext Hres Hroot Hfed Hnodes Hlinks]
    Hj Ht HtN Hfc Hfront Hlp Hc.
  pose proof (counts_nonneg _ Hcounts) as Hnn.
  pose proof (lookup_lt_Some _ _ _ Hj) as Hjlt.
  assert (rs.*1 !! j = Some cj) as Hcj by (by rewrite list_lookup_fmap, Hj).
  assert (is_uint16 cj) as Hcj16.
  { rewrite Forall_forall in Hcounts.
    apply (Hcounts (cj, vj)). by eapply list_elem_of_lookup_2. }
  assert (0 < created rs) as Hpos by (unfold created; lia).
  set (a := next h) in *.
  set (lp' := mkNLeaf (mValue lp) (mDepth lp) (mChildIndex lp)
                (to_uint16 (mChildrenAmount lp + 1))
                (<[Z.to_nat t := a]> (mChildren lp))).
  set (lc' := mkNLeaf v (to_uint16 (mDepth lp + 1)) t 0
                (replicate (Z.to_nat N) nullptr)).
  set (m' := <[b + Z.of_nat j := lp']> (<[a := lc']> (cells h))).
  assert (Hnew : m' !! a = Some lc').
  { unfold m'. rewrite lookup_insert_ne by (unfold created in *; lia).
    apply lookup_insert_eq. }
  assert (Hpar : m' !! (b + Z.of_nat j) = Some lp').
  { unfold m'. apply lookup_insert_eq. }
  assert (Hold : ∀ x l, cells h !! x = Some l → x ≠ a →
            ∃ l', m' !! x = Some l' ∧ mDepth l' = mDepth l ∧
                  mChildIndex l' = mChildIndex l).
  { intros x l Hx Hxa. destruct (decide (x = b + Z.of_nat j)) as [->|Hxp].
    - exists lp'. assert (lp = l) as <- by congruence. by rewrite Hpar.
    - exists l. unfold m'. by rewrite !lookup_insert_ne by done. }
  assert (Hother : ∀ j', j' ≠ j → (j' < length rs)%nat →
            m' !! (b + Z.of_nat j') = cells h !! (b + Z.of_nat j')).
  { intros j' Hne Hlt. unfold m'.
    rewrite !lookup_insert_ne; [done| |]; unfold created in *; lia. }
  destruct (Hnodes _ _ _ Hj) as (lp0 & Hlp0 & Hv0 & Hd0 & Hlen0 & Hamt0 & Hch0).
  assert (lp0 = lp) as -> by congruence.
  assert (mChildrenAmount lp = t) as Hamt.
  { rewrite Hamt0, clamp_inside by lia. lia. }
  split.
  - done.
  - done.
  - apply Forall_app. split; [done|]. by apply Forall_singleton.
  - simpl. rewrite created_snoc. fold a. lia.
  - intros _. by apply Hres.
  - intros _. destruct (Hroot Hpos) as (l & Hl & Hd & Hi).
    destruct (Hold b l Hl) as (l' & Hl' & Hd' & Hi'); [unfold created in *; lia|].
    exists l'. simpl. fold a m'. split; [done|]. split; congruence.
  - intros j' Hj'. rewrite length_app in Hj'. simpl in Hj'.
    rewrite first_child_old by lia.
    destruct (decide (j' < length rs)%nat) as [Hlt|Hge]; [by apply Hfed|].
    assert (j' = length rs) as -> by lia. unfold created in Hfront. lia.
  - intros j' c' v' Hj'. unfold node_ok. simpl. fold a m'.
    rewrite created_snoc.
    apply lookup_app_Some in Hj' as [Hj'|[Hge Hj']].
    + pose proof (lookup_lt_Some _ _ _ Hj') as Hj'lt.
      rewrite first_child_old by lia.
      destruct (decide (j' = j)) as [->|Hne].
      * rewrite Hj in Hj'. injection Hj' as <- <-.
        exists lp'. split; [done|]. simpl.
        unfold is_uint16, UINT16_MOD in Hcj16.
        assert (to_uint16 (mChildrenAmount lp + 1) = t + 1) as Hamt'.
        { rewrite Hamt. apply to_uint16_small. unfold is_uint16, UINT16_MOD. lia. }
        split; [done|]. split; [done|]. split; [by rewrite length_insert|]. split.
        -- rewrite Hamt', clamp_inside by lia. lia.
        -- rewrite Hamt'. intros t' Ht'.
           destruct (decide (t' = t)) as [->|Htne].
           ++ rewrite list_lookup_insert_eq by lia. f_equal. unfold created in *. lia.
           ++ rewrite list_lookup_insert_ne by lia. apply Hch0. lia.
      * destruct (Hnodes _ _ _ Hj') as (l & Hl & Hv & Hd & Hlen & Hamtl & Hch).
        exists l. rewrite Hother by done.
        assert (rs.*1 !! j' = Some c') as Hc' by (by rewrite list_lookup_fmap, Hj').
        assert (0 ≤ c') as Hc'0.
        { rewrite Forall_forall in Hnn. apply Hnn. by eapply list_elem_of_lookup_2. }
        assert (clamp (created rs + 1 - first_child rs.*1 j') c'
                = clamp (created rs - first_child rs.*1 j') c') as Hclamp.
        { destruct (decide (j' < j)%nat) as [Hlt|Hgt].
          - pose proof (first_child_disjoint _ _ _ _ Hnn Hc' Hlt).
            rewrite !clamp_after; lia.
          - assert (j < j')%nat as Hlt by lia.
            pose proof (first_child_disjoint _ _ _ _ Hnn Hcj Hlt).
            rewrite !clamp_before; lia. }
        rewrite Hclamp. done.
    + destruct (j' - length rs)%nat as [|d] eqn:Hd; [|done].
      injection Hj' as <- <-.
      assert (j' = length rs) as -> by lia.
      exists lc'. replace (b + Z.of_nat (length rs)) with a by (unfold created in *; lia).
      split; [done|]. simpl. unfold is_uint16 in Hc.
      split; [done|]. split; [apply to_uint16_range|].
      split; [rewrite length_replicate; lia|]. split.
      * rewrite first_child_old by lia. rewrite clamp_before; lia.
      * intros t' Ht'. lia.
  - intros j' c' v' t' Hj' Ht' Hlt. unfold link_ok. simpl. fold a m'.
    rewrite created_snoc in Hlt.
    apply lookup_app_Some in Hj' as [Hj'|[Hge Hj']].
    + pose proof (lookup_lt_Some _ _ _ Hj') as Hj'lt.
      rewrite first_child_old in * by lia.
      assert (rs.*1 !! j' = Some c') as Hc' by (by rewrite list_lookup_fmap, Hj').
      destruct (decide (first_child rs.*1 j' + t' = created rs)) as [Heq|Hneq].
      * destruct (first_child_unique _ _ _ _ _ _ _ Hnn Hc' Hcj Ht' Ht) as [-> ->];
          [lia|].
        exists lp', lc'. split; [done|].
        replace (b + first_child rs.*1 j + t) with a by (unfold created in *; lia).
        done.
      * destruct (Hlinks _ _ _ _ Hj' Ht') as (l1 & l2 & Hl1 & Hl2 & Hi2 & Hd2); [lia|].
        destruct (Hold _ _ Hl1) as (l1' & Hl1' & Hd1' & _); [unfold created in *; lia|].
        destruct (Hold _ _ Hl2) as (l2' & Hl2' & Hd2' & Hi2'); [unfold created in *; lia|].
        exists l1', l2'. repeat split; try done; congruence.
    + destruct (j' - length rs)%nat as [|d] eqn:Hd; [|done].
      injection Hj' as <- <-. assert (j' = length rs) as -> by lia.
      rewrite first_child_old in Hlt by lia. lia.
Qed.
End HeapStep.

(** *** The loops keep what is built *)

Section Loops.
Variable N : Z.
Variable b : ptr.

Lemma built_step rs h var req q c v leaf h' var' :
  built_heap N b rs h var → built_queue b rs (req :: q) → is_uint16 c →
  create_leaf N req v h var = Ok (leaf, h', var') →
  leaf = b + created rs ∧
  built_heap N b (rs ++ [(c, v)]) h' var' ∧
  built_queue b (rs ++ [(c, v)]) (q ++ child_requests leaf c).
Proof.
  intros Hh Hq Hc Hrun.
  pose proof Hh as [_ Hb Hcounts Hnext _ _ _ Hnodes _].
  pose proof (built_queue_step b rs req q c v Hcounts Hc Hq) as Hq'.
  destruct Hq as [Hlen Hreq].
  destruct (Hreq 0%nat req eq_refl)
    as [[-> ->]|(j & cj & vj & t & Hj & Ht & Hfc & ->)].
  - rewrite create_leaf_root in Hrun. injection Hrun as <- <- <-.
    split; [done|].
    split; [by apply (built_heap_root N b h var)|by rewrite Hnext].
  - destruct (Hnodes _ _ _ Hj) as (lp & Hlp & _ & _ & Hlenp & _).
    pose proof (lookup_lt_Some _ _ _ Hj) as Hjlt.
    destruct (decide (0 ≤ t < N)) as [HtN|HtN].
    2:{ by apply create_leaf_out_of_bounds in Hrun. }
    rewrite (create_leaf_child N _ _ _ _ _ lp) in Hrun; try done.
    2:{ unfold nullptr. lia. }
    2:{ rewrite Hnext. unfold created. lia. }
    injection Hrun as <- <- <-. rewrite Z.add_0_r in Hfc.
    split; [done|]. split; [|by rewrite Hnext].
    apply (built_heap_child N b rs h var j cj vj t lp c v); try done.
    simpl in Hlen. lia.
Qed.

(** Without a fault the front request asks for a slot that exists. *)
Lemma built_step_in_bounds rs h var req q v r :
  built_queue b rs (req :: q) →
  create_leaf N req v h var = Ok r →
  0 ≤ childIndex req ∧ (rs ≠ [] → childIndex req < N).
Proof.
  intros [_ Hreq] Hrun.
  destruct (Hreq 0%nat req eq_refl)
    as [[-> ->]|(j & cj & vj & t & Hj & Ht & Hfc & ->)]; [done|].
  simpl. destruct (decide (0 ≤ t < N)) as [HtN|HtN]; [lia|].
  by apply create_leaf_out_of_bounds in Hrun.
Qed.

Section Deserialize.
Variable valueDeserializer : string → res Z.

Lemma Deserialize_line_cases curline st st' :
  Deserialize_line N valueDeserializer curline st = Ok st' →
  (line_record valueDeserializer curline = None ∧ st' = st) ∨
  ∃ c v req q leaf h var,
    line_record valueDeserializer curline = Some (c, v) ∧
    is_uint16 c ∧
    pending st = req :: q ∧
    create_leaf N req v (bheap st) (result st) = Ok (leaf, h, var) ∧
    st' = mkBuild h var (q ++ child_requests leaf c).
Proof.
  unfold Deserialize_line, line_record.
  destruct (find colon curline) as [pos|]; [|intros [= <-]; by left].
  destruct (valueDeserializer (substring 0 pos curline)) as [amount|]; [|done].
  rewrite bind_Ok.
  destruct (valueDeserializer _) as [value|]; [|done]. rewrite bind_Ok.
  destruct (pending st) as [|req q]; [done|].
  destruct (create_leaf N req value (bheap st) (result st))
    as [[[leaf h] var]|] eqn:Hc; [|done].
  rewrite bind_Ok. intros [= <-]. right.
  exists (to_uint16 amount), value, req, q, leaf, h, var.
  repeat split; try done; apply to_uint16_range.
Qed.

Lemma stream_lines_getline stream curline stream' :
  getline stream = (curline, stream') →
  curline ∈ stream_lines (buffer stream) ∧
  (good stream' = true →
   ∀ line, line ∈ stream_lines (buffer stream') →
           line ∈ stream_lines (buffer stream)).
Proof.
  unfold getline. destruct stream as [s g]. simpl.
  assert (∀ line rest, split_line s = (line, rest) →
            stream_lines s = line :: from_option stream_lines [] rest) as H.
  { induction s as [|c s IH]; simpl; intros line rest.
    - by intros [= <- <-].
    - destruct (Ascii.eqb c newline); [by intros [= <- <-]|].
      destruct (split_line s) as [l r]. intros [= <- <-].
      by rewrite (IH l r eq_refl). }
  destruct (split_line s) as [line [rest|]] eqn:Hs; intros [= <- <-];
    rewrite (H _ _ eq_refl); simpl.
  - split; [by left|]. intros _ l Hl. by right.
  - split; [by left|]. done.
Qed.

(** [Deserialize] extends what is built by one node for each record it
    reads, and every record it reads is the record of a line of the
    stream. *)
Lemma Deserialize_loop_built fuel : ∀ stream st rs stream' st',
  built_heap N b rs (bheap st) (result st) →
  built_queue b rs (pending st) →
  Deserialize_loop N valueDeserializer fuel stream st = Ok (stream', st') →
  ∃ rs',
    built_heap N b (rs ++ rs') (bheap st') (result st') ∧
    built_queue b (rs ++ rs') (pending st') ∧
    (good stream = false → rs' = []) ∧
    Forall (fun r => ∃ line, line ∈ stream_lines (buffer stream) ∧
              line_record valueDeserializer line = Some r) rs'.
Proof.
  induction fuel as [|fuel IH]; intros stream st rs stream' st' Hh Hq Hrun;
    [done|].
  simpl in Hrun.
  destruct (good stream && negb (length (pending st) =? 0)%nat) eqn:Hcond.
  2:{ injection Hrun as <- <-. exists []. rewrite app_nil_r.
      split; [done|]. split; [done|]. split; [done|constructor]. }
  apply andb_true_iff in Hcond as [Hgood _].
  destruct (getline stream) as [curline stream1] eqn:Hget.
  destruct (stream_lines_getline _ _ _ Hget) as [Hcur Hrest].
  assert (Hlines : ∀ (rs0 : list (Z * Z)),
    (good stream1 = false → rs0 = []) →
    Forall (fun r => ∃ line, line ∈ stream_lines (buffer stream1) ∧
              line_record valueDeserializer line = Some r) rs0 →
    Forall (fun r => ∃ line, line ∈ stream_lines (buffer stream) ∧
              line_record valueDeserializer line = Some r) rs0).
  { intros rs0 Hnil Hall. destruct (good stream1) eqn:Hg1.
    - eapply Forall_impl; [exact Hall|]. intros r (line & Hl & Hr). eauto.
    - rewrite Hnil by done. constructor. }
  destruct (String.length curline <=? 0)%nat.
  - destruct (IH _ _ _ _ _ Hh Hq Hrun) as (rs' & Hh' & Hq' & Hnil & Hall).
    exists rs'. split; [done|]. split; [done|].
    split; [intros; congruence|by apply Hlines].
  - destruct (Deserialize_line N valueDeserializer curline st) as [st1|] eqn:Hline;
      [|done].
    rewrite bind_Ok in Hrun.
    apply Deserialize_line_cases in Hline
      as [[_ ->]|(c & v & req & q & leaf & h & var & Hrec & Hc & Hpen & Hcreate & ->)].
    + destruct (IH _ _ _ _ _ Hh Hq Hrun) as (rs' & Hh' & Hq' & Hnil & Hall).
      exists rs'. split; [done|]. split; [done|].
    split; [intros; congruence|by apply Hlines].
    + rewrite Hpen in Hq.
      destruct (built_step _ _ _ _ _ _ v _ _ _ Hh Hq Hc Hcreate) as (-> & Hh1 & Hq1).
      destruct (IH stream1 (mkBuild h var _) (rs ++ [(c, v)]) _ _ Hh1 Hq1 Hrun)
        as (rs' & Hh' & Hq' & Hnil & Hall).
      exists ((c, v) :: rs'). rewrite <- app_assoc in Hh', Hq'.
      split; [done|]. split; [done|]. split; [intros; congruence|].
      constructor; [eauto|by apply Hlines].
Qed.
End Deserialize.
End Loops.

(** *** Walking what was built *)

Section WalkBuilt.
Variable N : Z.
Variable b : ptr.
Variable rs : list (Z * Z).
Variable h : heap.
Variable var : ptr.
Hypothesis Hbuilt : built_heap N b rs h var.

Lemma built_pushed_children k c v l :
  rs !! k = Some (c, v) → cells h !! (b + Z.of_nat k) = Some l →
  pushed_children N l
  = Ok (seqZ (b + first_child rs.*1 k) (mChildrenAmount l)).
Proof.
  intros Hk Hl. destruct Hbuilt as [Hcap _ _ _ _ _ _ Hnodes _].
  destruct (Hnodes _ _ _ Hk) as (l' & Hl' & _ & _ & Hlen & _ & Hch).
  assert (l' = l) as -> by congruence.
  unfold pushed_children. apply mapM_Ok.
  apply Forall2_same_length_lookup. split; [by rewrite !length_seqZ|].
  intros i t p [-> Hi]%lookup_seqZ [-> _]%lookup_seqZ.
  rewrite Z.add_0_l.
  specialize (Hch (Z.of_nat i) ltac:(lia)).
  pose proof (lookup_lt_Some _ _ _ Hch) as Hlt.
  apply read_child_lookup; [lia|]. rewrite Hch. f_equal; lia.
Qed.

(** The queue of [Walk] after [k] nodes: the nodes from [k] on that are
    attached to one of the first [k] nodes. *)
Lemma Walk_loop_built {St} (walker : walk_callback_t St) fuel : ∀ (k : nat) s,
  Z.of_nat k ≤ created rs → created rs - Z.of_nat k < Z.of_nat fuel →
  Walk_loop N fuel h walker
    (seqZ (b + Z.of_nat k)
       (Z.min (first_child rs.*1 k) (created rs) - Z.of_nat k)) s
  = run_walker walker (seqZ (b + Z.of_nat k) (created rs - Z.of_nat k)) s.
Proof.
  pose proof Hbuilt as [Hcap _ Hcounts _ _ _ Hfed Hnodes _].
  pose proof (counts_nonneg _ Hcounts) as Hnn.
  induction fuel as [|fuel IH]; intros k s Hk Hfuel; [lia|].
  destruct (decide (Z.of_nat k = created rs)) as [Heq|Hne].
  { rewrite !seqZ_nil by lia; reflexivity. }
  assert (k < length rs)%nat as Hlt by (unfold created in *; lia).
  pose proof (Hfed k Hlt) as Hfedk.
  destruct (lookup_lt_is_Some_2 rs k Hlt) as [[c v] Hrk].
  destruct (Hnodes _ _ _ Hrk) as (l & Hl & _ & _ & _ & Hamt & _).
  assert (rs.*1 !! k = Some c) as Hck by (by rewrite list_lookup_fmap, Hrk).
  assert (0 ≤ c) as Hc0.
  { rewrite Forall_forall in Hnn. apply Hnn. by eapply list_elem_of_lookup_2. }
  rewrite (seqZ_cons _ (Z.min _ _ - _)), (seqZ_cons _ (created rs - _)) by lia.
  cbn [Walk_loop run_walker].
  rewrite (load_Some _ _ _ Hl), bind_Ok.
  rewrite (built_pushed_children _ _ _ _ Hrk Hl), bind_Ok.
  destruct (walker (b + Z.of_nat k) s) as [[stop s']|e]; [|done].
  rewrite !bind_Ok. destruct stop; [done|].
  replace (Z.succ (b + Z.of_nat k)) with (b + Z.of_nat (S k)) by lia.
  replace (Z.pred (created rs - Z.of_nat k))
    with (created rs - Z.of_nat (S k)) by lia.
  rewrite <- IH by lia. f_equal.
  rewrite (first_child_S _ _ _ Hck), Hamt. unfold clamp.
  destruct (decide (first_child rs.*1 k < created rs)) as [Hin|Hout].
  - replace (Z.pred (Z.min (first_child rs.*1 k) (created rs) - Z.of_nat k))
      with (first_child rs.*1 k - Z.of_nat (S k)) by lia.
    replace (Z.min (first_child rs.*1 k + c) (created rs) - Z.of_nat (S k))
      with ((first_child rs.*1 k - Z.of_nat (S k))
            + Z.max 0 (Z.min (created rs - first_child rs.*1 k) c)) by lia.
    rewrite seqZ_app by lia. do 2 f_equal. lia.
  - rewrite (seqZ_nil _ (Z.max _ _)) by lia. rewrite app_nil_r. f_equal. lia.
Qed.

(** [Walk] from the root visits the created nodes in the order of their
    creation. *)
Lemma Walk_built {St} (walker : walk_callback_t St) fuel s :
  0 < created rs → created rs < Z.of_nat fuel →
  Walk N fuel h b walker true s = run_walker walker (seqZ b (created rs)) s.
Proof.
  intros Hpos Hfuel. unfold Walk. rewrite bind_Ok.
  pose proof (Walk_loop_built walker fuel 0 s) as H.
  change (Z.of_nat 0) with 0 in H.
  rewrite first_child_0, Z.add_0_r, !Z.sub_0_r in H.
  rewrite <- H by lia.
  replace (Z.min 1 (created rs)) with 1 by lia. done.
Qed.
End WalkBuilt.

(** ** What the builders guarantee *)

Section Consequences.
Variable N : Z.
Variable b : ptr.

Lemma built_initial h var :
  0 ≤ N → 0 < next h → b = next h →
  built_heap N b [] h var ∧ built_queue b [] [mkData VarSlot nullptr 0].
Proof.
  intros HN Hb ->. split; split.
  - done.
  - done.
  - constructor.
  - unfold created. simpl. lia.
  - unfold created. simpl. lia.
  - unfold created. simpl. lia.
  - intros j Hj. simpl in Hj. lia.
  - done.
  - done.
  - done.
  - intros [|k] req; [|done]. intros [= <-]. by left.
Qed.

Lemma created_address rs a :
  b ≤ a < b + created rs →
  ∃ j c v, a = b + Z.of_nat j ∧ rs !! j = Some (c, v).
Proof.
  intros Ha. assert (Z.to_nat (a - b) < length rs)%nat as Hlt
    by (unfold created in Ha; lia).
  destruct (lookup_lt_is_Some_2 rs _ Hlt) as [[c v] Hr].
  exists (Z.to_nat (a - b)), c, v. split; [lia|done].
Qed.

Lemma built_depth_linked rs h var :
  built_heap N b rs h var → depth_linked h b (b + created rs).
Proof.
  intros [_ _ Hcounts _ _ _ _ Hnodes Hlinks] p lp t c Hp Hlp Ht Hc.
  destruct (created_address _ _ Hp) as (j & cj & vj & -> & Hj).
  destruct (Hnodes _ _ _ Hj) as (l & Hl & _ & Hd & _ & Hamt & Hch).
  assert (l = lp) as -> by congruence.
  assert (is_uint16 cj) as Hcj.
  { rewrite Forall_forall in Hcounts.
    apply (Hcounts (cj, vj)). by eapply list_elem_of_lookup_2. }
  unfold is_uint16 in Hcj.
  rewrite (Hch t Ht) in Hc. injection Hc as <-.
  destruct (Hlinks j cj vj t Hj) as (lp' & lc & Hlp' & Hlc & Hi & Hdc).
  { rewrite Hamt in Ht. unfold clamp in Ht. lia. }
  { rewrite Hamt in Ht. unfold clamp in Ht. lia. }
  assert (lp' = lp) as -> by congruence.
  exists lc. done.
Qed.

Lemma built_root_depth rs h var :
  built_heap N b rs h var → 0 < created rs → root_depth_0 h var.
Proof.
  intros [_ _ _ _ Hres Hroot _ _ _] Hpos.
  rewrite (Hres Hpos). destruct (Hroot Hpos) as (l & Hl & Hd & _). by exists l.
Qed.

Lemma built_within_capacity rs h var :
  built_heap N b rs h var → Forall (fun r => r.1 ≤ N) rs →
  within_capacity N h b (b + created rs).
Proof.
  intros [HN _ Hcounts _ _ _ _ Hnodes _] Hcap a Ha.
  destruct (created_address _ _ Ha) as (j & c & v & -> & Hj).
  destruct (Hnodes _ _ _ Hj) as (l & Hl & _ & _ & _ & Hamt & _).
  exists l. split; [done|].
  rewrite Forall_forall in Hcap.
  assert (c ≤ N) by (apply (Hcap (c, v)); by eapply list_elem_of_lookup_2).
  rewrite Hamt. unfold clamp. lia.
Qed.

Lemma built_requests_in_bounds rs q :
  built_queue b rs q → Forall (fun r => r.1 ≤ N) rs →
  requests_in_bounds N q.
Proof.
  intros [_ Hreq] Hcap req p t [k Hk]%list_elem_of_lookup Hout.
  destruct (Hreq k req Hk) as [[_ ->]|(j & c & v & t' & Hj & Ht & _ & ->)];
    [done|].
  injection Hout as _ <-.
  rewrite Forall_forall in Hcap.
  assert (c ≤ N) by (apply (Hcap (c, v)); by eapply list_elem_of_lookup_2).
  lia.
Qed.

(** With every count within the capacity the front request is served. *)
Lemma create_leaf_progress rs h var req q v :
  built_heap N b rs h var → built_queue b rs (req :: q) →
  Forall (fun r => r.1 ≤ N) rs →
  ∃ r, create_leaf N req v h var = Ok r.
Proof.
  intros Hh Hq Hcap.
  pose proof Hh as [_ Hb _ Hnext _ _ _ Hnodes _].
  pose proof (built_requests_in_bounds _ _ Hq Hcap) as Hin.
  destruct Hq as [_ Hreq].
  destruct (Hreq 0%nat req eq_refl)
    as [[_ ->]|(j & cj & vj & t & Hj & Ht & _ & ->)].
  - rewrite create_leaf_root. eauto.
  - destruct (Hnodes _ _ _ Hj) as (lp & Hlp & _ & _ & Hlenp & _).
    pose proof (lookup_lt_Some _ _ _ Hj) as Hjlt.
    rewrite (create_leaf_child N _ _ _ _ _ lp); eauto.
    + unfold nullptr. lia.
    + rewrite Hnext. unfold created. lia.
    + eapply Hin; [by left|done].
Qed.
End Consequences.

(** *** GenerateTree *)

Lemma GenerateTree_loop_built b rand maxLeaves fuel : ∀ calls rs st,
  built_heap 5 b rs (bheap st) (result st) →
  built_queue b rs (pending st) →
  Forall (fun r => 2 ≤ r.1 ≤ 5) rs →
  pending st ≠ [] →
  maxLeaves - created rs ≤ Z.of_nat fuel → (0 < fuel)%nat →
  ∃ st' rs' v,
    GenerateTree_loop fuel rand maxLeaves calls (created rs) st = Ok st' ∧
    built_heap 5 b (rs ++ rs' ++ [(0, v)]) (bheap st') (result st') ∧
    requests_in_bounds 5 (pending st') ∧
    Forall (fun r => 2 ≤ r.1 ≤ 5) rs' ∧
    created (rs ++ rs' ++ [(0, v)]) = Z.max (created rs + 1) maxLeaves.
Proof.
  induction fuel as [|fuel IH]; intros calls rs st Hh Hq Hcs Hne Hfuel Hpos; [lia|].
  simpl. destruct (pending st) as [|req q] eqn:Hpen; [done|]. clear Hne.
  set (leafValue := Z.of_nat (rand calls) `mod` 255).
  assert (Forall (fun r => r.1 ≤ 5) rs) as Hcap.
  { eapply Forall_impl; [exact Hcs|]. simpl. lia. }
  destruct (create_leaf_progress 5 b rs (bheap st) (result st) req q leafValue
              Hh Hq Hcap) as [[[leaf h] var] Hcreate].
  rewrite Hcreate, bind_Ok.
  destruct (Z.leb_spec maxLeaves (created rs + 1)) as [Hstop|Hmore].
  - exists (mkBuild h var (req :: q)), [], leafValue. split; [done|].
    destruct (built_step 5 b rs (bheap st) (result st) req q 0 leafValue leaf h var Hh Hq)
      as (_ & Hh' & _); [done|exact Hcreate|].
    simpl. split; [done|].
    split; [by apply (built_requests_in_bounds 5 b rs)|].
    split; [constructor|].
    rewrite created_snoc. lia.
  - set (c := 2 + Z.of_nat (rand (S calls)) `mod` 4).
    assert (2 ≤ c ≤ 5) as Hc.
    { unfold c. pose proof (Z.mod_pos_bound (Z.of_nat (rand (S calls))) 4). lia. }
    destruct (built_step 5 b rs (bheap st) (result st) req q c leafValue leaf h var Hh Hq)
      as (-> & Hh' & Hq'); [unfold is_uint16, UINT16_MOD; lia|exact Hcreate|].
    replace (created rs + 1) with (created (rs ++ [(c, leafValue)]))
      by apply created_snoc.
    assert (Forall (fun r => 2 ≤ r.1 ≤ 5) (rs ++ [(c, leafValue)])) as H1.
    { apply Forall_app. split; [done|]. by apply Forall_singleton. }
    assert (q ++ child_requests (b + created rs) c ≠ []) as H2.
    { intros Hnil. apply (f_equal length) in Hnil.
      rewrite length_app, length_child_requests in Hnil. simpl in Hnil. lia. }
    assert (maxLeaves - created (rs ++ [(c, leafValue)]) ≤ Z.of_nat fuel) as H3
      by (rewrite created_snoc; lia).
    assert (0 < fuel)%nat as H4 by (unfold created in *; lia).
    destruct (IH (S (S calls)) (rs ++ [(c, leafValue)])
                (mkBuild h var (q ++ child_requests (b + created rs) c))
                Hh' Hq' H1 H2 H3 H4)
      as (st' & rs' & v & Hrun & Hh'' & Hin & Hcs' & Hcount).
    exists st', ((c, leafValue) :: rs'), v. rewrite <- app_assoc in Hh'', Hcount.
    split; [done|]. split; [done|]. split; [done|]. split; [by constructor|].
    simpl in *. rewrite Hcount, created_snoc. lia.
Qed.

Lemma GenerateTree_built rand maxLeaves fuel h :
  0 < next h → maxLeaves ≤ Z.of_nat fuel → (0 < fuel)%nat →
  ∃ st rs v,
    GenerateTree fuel rand maxLeaves h = Ok st ∧
    built_heap 5 (next h) (rs ++ [(0, v)]) (bheap st) (result st) ∧
    requests_in_bounds 5 (pending st) ∧
    Forall (fun r => 2 ≤ r.1 ≤ 5) rs ∧
    created (rs ++ [(0, v)]) = Z.max 1 maxLeaves.
Proof.
  intros Hb Hfuel Hpos.
  destruct (built_initial 5 (next h) h nullptr) as [Hh Hq]; [lia|done|done|].
  destruct (GenerateTree_loop_built (next h) rand maxLeaves fuel 0 []
              (mkBuild h nullptr [mkData VarSlot nullptr 0]))
    as (st & rs & v & Hrun & Hh' & Hin & Hcs & Hcount); try done.
  - unfold created. simpl. lia.
  - exists st, rs, v. done.
Qed.

(** *** Generated trees are shallow *)

Lemma sumZ_lower l : Forall (fun c => 2 ≤ c) l → 2 * Z.of_nat (length l) ≤ sumZ l.
Proof. induction 1 as [|c l Hc _ IH]; simpl; lia. Qed.

Lemma first_child_lower cs j :
  Forall (fun c => 2 ≤ c) (take j cs) → (j ≤ length cs)%nat →
  1 + 2 * Z.of_nat j ≤ first_child cs j.
Proof.
  intros Hcs Hj. unfold first_child. apply sumZ_lower in Hcs.
  rewrite length_take in Hcs. lia.
Qed.

(** Every node but the root fills a slot of an earlier node. *)
Lemma parent_exists N b rs h var m :
  built_heap N b rs h var → (1 ≤ m < length rs)%nat →
  ∃ j c v t,
    rs !! j = Some (c, v) ∧ 0 ≤ t < c ∧
    first_child rs.*1 j + t = Z.of_nat m ∧ (j < m)%nat.
Proof.
  intros [_ _ Hcounts _ _ _ Hfed _ _] Hm.
  assert (∀ d i, (m - i = d)%nat → first_child rs.*1 i ≤ Z.of_nat m →
            ∃ j c v t, rs !! j = Some (c, v) ∧ 0 ≤ t < c ∧
              first_child rs.*1 j + t = Z.of_nat m ∧ (j < m)%nat) as Hsearch.
  { induction d as [|d IH]; intros i Hd Hle.
    - pose proof (first_child_mono rs.*1 m i (counts_nonneg _ Hcounts)
                    ltac:(lia)).
      pose proof (Hfed m ltac:(lia)). lia.
    - assert (i < length rs)%nat as Hi by lia.
      destruct (lookup_lt_is_Some_2 rs i Hi) as [[c v] Hr].
      assert (rs.*1 !! i = Some c) as Hc by (by rewrite list_lookup_fmap, Hr).
      pose proof (Hfed i Hi) as Hfedi.
      destruct (decide (Z.of_nat m < first_child rs.*1 i + c)) as [Hin|Hout].
      + exists i, c, v, (Z.of_nat m - first_child rs.*1 i).
        split; [done|]. split; [lia|]. split; lia.
      + apply (IH (S i)); [lia|]. rewrite (first_child_S _ _ _ Hc). lia. }
  apply (Hsearch m 0%nat); [lia|]. rewrite first_child_0. lia.
Qed.

Lemma pow2_depth_small d j : 0 ≤ d → 2 ^ d ≤ j → j ≤ 2 ^ 31 → d ≤ 31.
Proof.
  intros Hd Hpow Hj. destruct (decide (d ≤ 31)) as [|Hbig]; [done|].
  assert (2 ^ 32 ≤ 2 ^ d) by (apply Z.pow_le_mono_r; lia).
  assert (2 ^ 31 < 2 ^ 32) by (apply Z.pow_lt_mono_r; lia). lia.
Qed.

(** With at least two children requested for every node but the last, node
    [m] lies at a depth [d] with [2 ^ d <= m + 1]. *)
Lemma generated_depth_bound b rs v h var :
  built_heap 5 b (rs ++ [(0, v)]) h var →
  Forall (fun r => 2 ≤ r.1 ≤ 5) rs →
  created (rs ++ [(0, v)]) ≤ 2 ^ 31 →
  ∀ m, (m < length (rs ++ [(0%Z, v)]))%nat →
    ∃ l, cells h !! (b + Z.of_nat m) = Some l ∧
         0 ≤ mDepth l ∧ 2 ^ mDepth l ≤ Z.of_nat m + 1.
Proof.
  intros Hbuilt Hcs Hsize m.
  pose proof Hbuilt as [_ _ _ _ _ Hroot _ Hnodes Hlinks].
  induction m as [m IH] using lt_wf_ind. intros Hm.
  destruct (decide (m = 0)%nat) as [->|Hm0].
  - destruct Hroot as (l & Hl & Hd & _); [unfold created; lia|].
    exists l. rewrite Z.add_0_r, Hd. split; [done|]. simpl. lia.
  - destruct (parent_exists 5 b _ h var m Hbuilt) as (j & c & vj & t & Hj & Ht & Hfc & Hjm);
      [lia|].
    destruct (IH j Hjm) as (lp & Hlp & Hd0 & Hpow).
    { apply lookup_lt_Some in Hj. lia. }
    destruct (Hlinks j c vj t Hj Ht) as (lp' & lc & Hlp' & Hlc & _ & Hdc).
    { unfold created. lia. }
    assert (lp' = lp) as -> by congruence.
    assert (j < length rs)%nat as Hjrs.
    { apply lookup_app_Some in Hj as [Hj|[Hge Hj]]; [by apply lookup_lt_Some in Hj|].
      destruct (j - length rs)%nat; [|done]. injection Hj as <- <-. lia. }
    assert (1 + 2 * Z.of_nat j ≤ first_child (rs ++ [(0, v)]).*1 j) as Hlow.
    { apply first_child_lower.
      - rewrite fmap_app, take_app_le by (rewrite length_fmap; lia).
        apply Forall_take, Forall_fmap.
        eapply Forall_impl; [exact Hcs|]. simpl. lia.
      - rewrite length_fmap, length_app. lia. }
    assert (mDepth lp ≤ 31) as Hsmall.
    { apply (pow2_depth_small _ (Z.of_nat j + 1)); [done..|].
      unfold created in Hsize. lia. }
    exists lc. replace (b + Z.of_nat m) with (b + first_child (rs ++ [(0, v)]).*1 j + t)
      by lia.
    split; [done|]. rewrite Hdc, to_uint16_small
      by (unfold is_uint16, UINT16_MOD; lia).
    split; [lia|]. rewrite Z.pow_add_r by lia. lia.
Qed.

Lemma generated_depth_exact b rs v h var :
  built_heap 5 b (rs ++ [(0, v)]) h var →
  Forall (fun r => 2 ≤ r.1 ≤ 5) rs →
  created (rs ++ [(0, v)]) ≤ 2 ^ 31 →
  depth_exact h b (b + created (rs ++ [(0, v)])).
Proof.
  intros Hbuilt Hcs Hsize p lp t c Hp Hlp Ht Hc.
  destruct (built_depth_linked 5 b _ h var Hbuilt p lp t c Hp Hlp Ht Hc)
    as (lc & Hlc & _ & _ & Hdc).
  destruct (created_address b _ _ Hp) as (j & cj & vj & -> & Hj).
  destruct (generated_depth_bound b rs v h var Hbuilt Hcs Hsize j)
    as (l & Hl & Hd0 & Hpow); [by apply lookup_lt_Some in Hj|].
  assert (l = lp) as -> by congruence.
  assert (mDepth lp ≤ 31).
  { apply (pow2_depth_small _ (Z.of_nat j + 1)); [done..|].
    apply lookup_lt_Some in Hj. unfold created in Hsize. lia. }
  exists lc. split; [done|]. rewrite Hdc. apply to_uint16_small.
  unfold is_uint16, UINT16_MOD. lia.
Qed.

(** ** Text *)

Lemma app_empty (s : string) : "" +:+ s = s.
Proof. reflexivity. Qed.

Lemma app_String c (s1 s2 : string) : String c s1 +:+ s2 = String c (s1 +:+ s2).
Proof. reflexivity. Qed.

Lemma string_app_assoc (s1 s2 s3 : string) :
  (s1 +:+ s2) +:+ s3 = s1 +:+ s2 +:+ s3.
Proof.
  induction s1 as [|c s1 IH]; [done|]. rewrite !app_String. by f_equal.
Qed.

Lemma string_app_nil_r (s : string) : s +:+ "" = s.
Proof. induction s as [|c s IH]; [done|]. rewrite app_String. by f_equal. Qed.

Lemma all_chars_app p s1 s2 :
  all_chars p (s1 +:+ s2) = all_chars p s1 && all_chars p s2.
Proof.
  induction s1 as [|c s1 IH]; [done|]. rewrite app_String. simpl.
  rewrite <- andb_assoc. by f_equal.
Qed.

Lemma find_absent c p s :
  p c = false → all_chars p s = true → find c s = None.
Proof.
  intros Hc. induction s as [|c' s IH]; simpl; [done|].
  intros [Hp Hs]%andb_true_iff.
  destruct (Ascii.eqb_spec c' c) as [->|_]; [congruence|].
  by rewrite IH.
Qed.

Lemma find_app_here c s1 s2 :
  find c s1 = None → find c (s1 +:+ String c s2) = Some (String.length s1).
Proof.
  induction s1 as [|c' s1 IH]; [rewrite app_empty|rewrite app_String]; simpl.
  - by rewrite Ascii.eqb_refl.
  - destruct (Ascii.eqb c' c); [done|].
    destruct (find c s1); [done|]. intros _. by rewrite IH.
Qed.

Lemma substring_prefix s1 s2 : substring 0 (String.length s1) (s1 +:+ s2) = s1.
Proof.
  induction s1 as [|c s1 IH]; [rewrite app_empty|rewrite app_String]; simpl;
    [by destruct s2|by f_equal].
Qed.

Lemma substring_all s n : (String.length s ≤ n)%nat → substring 0 n s = s.
Proof.
  revert n. induction s as [|c s IH]; intros [|n] Hn; simpl in *; try done; try lia.
  rewrite IH; [done|lia].
Qed.

Lemma substring_suffix s1 s2 n :
  (String.length s2 ≤ n)%nat →
  substring (String.length s1) n (s1 +:+ s2) = s2.
Proof.
  intros Hn.
  induction s1 as [|c s1 IH]; [rewrite app_empty|rewrite app_String]; simpl;
    [by apply substring_all|done].
Qed.

Lemma length_app_string s1 s2 :
  String.length (s1 +:+ s2) = (String.length s1 + String.length s2)%nat.
Proof.
  induction s1 as [|c s1 IH]; [done|]. rewrite app_String. simpl. by f_equal.
Qed.

Lemma split_line_app line rest :
  find newline line = None →
  split_line (line +:+ String newline rest) = (line, Some rest).
Proof.
  induction line as [|c line IH]; [rewrite app_empty|rewrite app_String]; simpl.
  - done.
  - destruct (Ascii.eqb c newline); [done|].
    destruct (find newline line); [done|]. intros _. by rewrite IH.
Qed.

(** *** Printed integers *)

Lemma digit_char_is_digit d : 0 ≤ d < 10 → is_digit (digit_char d) = true.
Proof.
  intros Hd. assert (d = 0 ∨ d = 1 ∨ d = 2 ∨ d = 3 ∨ d = 4 ∨ d = 5 ∨ d = 6 ∨
                     d = 7 ∨ d = 8 ∨ d = 9) as Hcases by lia.
  destruct Hcases as [->|[->|[->|[->|[->|[->|[->|[->|[->| ->]]]]]]]]]; reflexivity.
Qed.

Lemma digit_val_digit_char d : 0 ≤ d < 10 → digit_val (digit_char d) = Some d.
Proof.
  intros Hd. assert (d = 0 ∨ d = 1 ∨ d = 2 ∨ d = 3 ∨ d = 4 ∨ d = 5 ∨ d = 6 ∨
                     d = 7 ∨ d = 8 ∨ d = 9) as Hcases by lia.
  destruct Hcases as [->|[->|[->|[->|[->|[->|[->|[->|[->| ->]]]]]]]]]; reflexivity.
Qed.

Lemma print_digits_all fuel : ∀ n acc,
  all_chars is_digit acc = true →
  all_chars is_digit (print_digits fuel n acc) = true.
Proof.
  assert (∀ n acc, all_chars is_digit acc = true →
            all_chars is_digit (String (digit_char (n `mod` 10)) acc) = true) as H.
  { intros n acc Hacc. cbn [all_chars]. rewrite Hacc, andb_true_r.
    apply digit_char_is_digit, Z.mod_pos_bound. lia. }
  induction fuel as [|fuel IH]; intros n acc Hacc; cbn [print_digits];
    [by apply H|].
  destruct (n <? 10); [by apply H|]. by apply IH, H.
Qed.

Lemma print_int_chars z : all_chars is_digit_or_minus (print_int z) = true.
Proof.
  assert (∀ s, all_chars is_digit s = true →
            all_chars is_digit_or_minus s = true) as Hweak.
  { induction s as [|c s IH]; cbn [all_chars]; [done|].
    intros [Hc Hs]%andb_true_iff. unfold is_digit_or_minus at 1.
    by rewrite Hc, IH. }
  unfold print_int, print_nat. destruct (z <? 0); cbn [all_chars].
  - change (is_digit_or_minus "-") with true. cbn [andb].
    by apply Hweak, print_digits_all.
  - by apply Hweak, print_digits_all.
Qed.

Lemma print_int_no_newline z : find newline (print_int z) = None.
Proof. by apply (find_absent _ is_digit_or_minus), print_int_chars. Qed.

Lemma print_int_no_colon z : find colon (print_int z) = None.
Proof. by apply (find_absent _ is_digit_or_minus), print_int_chars. Qed.

(** *** Lines of a serialized tree *)

Lemma record_chars c v :
  all_chars is_record_char (print_int c +:+ ":" +:+ print_int v) = true.
Proof.
  assert (∀ s, all_chars is_digit_or_minus s = true →
            all_chars is_record_char s = true) as Hweak.
  { induction s as [|a s IH]; cbn [all_chars]; [done|].
    intros [Ha Hs]%andb_true_iff. unfold is_record_char at 1.
    by rewrite Ha, IH. }
  rewrite !all_chars_app. cbn [all_chars].
  rewrite !Hweak by apply print_int_chars. reflexivity.
Qed.

Lemma getline_record c v rest :
  getline (mkIstream (record_line c v +:+ rest) true)
  = (print_int c +:+ ":" +:+ print_int v, mkIstream rest true).
Proof.
  unfold getline, record_line. cbn [buffer].
  replace ((print_int c +:+ ":" +:+ print_int v +:+ String newline "") +:+ rest)
    with ((print_int c +:+ ":" +:+ print_int v) +:+ String newline rest).
  2:{ by rewrite !string_app_assoc. }
  rewrite split_line_app; [done|].
  by apply (find_absent _ is_record_char), record_chars.
Qed.

Lemma record_nonempty c v :
  (String.length (print_int c +:+ ":" +:+ print_int v) <=? 0)%nat = false.
Proof.
  rewrite !length_app_string. cbn [String.length]. apply Nat.leb_gt. lia.
Qed.

(** A deserializer that reads back what [operator<<] prints recovers the
    record of a line. *)
Lemma line_record_print valueDeserializer c v :
  (∀ z, is_int z → valueDeserializer (print_int z) = Ok z) →
  is_uint16 c → is_int v →
  line_record valueDeserializer (print_int c +:+ ":" +:+ print_int v)
  = Some (c, v).
Proof.
  intros Hvd Hc Hv. unfold line_record.
  change (":" +:+ print_int v) with (String colon (print_int v)).
  rewrite find_app_here by apply print_int_no_colon.
  rewrite substring_prefix.
  replace (String.length (print_int c) + 1)%nat
    with (String.length (print_int c +:+ ":")) by (by rewrite length_app_string).
  replace (print_int c +:+ String colon (print_int v))
    with ((print_int c +:+ ":") +:+ print_int v) by (by rewrite string_app_assoc).
  rewrite substring_suffix.
  2:{ rewrite !length_app_string. cbn [String.length]. lia. }
  rewrite !Hvd; [|done|].
  2:{ unfold is_uint16, UINT16_MOD in Hc. unfold is_int, INT_MIN, INT_MAX. lia. }
  by rewrite to_uint16_small.
Qed.

(** *** [std::stoi] reads back what [operator<<] prints *)

Lemma print_digits_first fuel : ∀ n acc,
  ∃ d r, 0 ≤ d < 10 ∧ print_digits fuel n acc = String (digit_char d) r.
Proof.
  induction fuel as [|fuel IH]; intros n acc; cbn [print_digits].
  - exists (n `mod` 10), acc. split; [apply Z.mod_pos_bound; lia|done].
  - destruct (n <? 10); [|apply IH].
    exists (n `mod` 10), acc. split; [apply Z.mod_pos_bound; lia|done].
Qed.

Lemma parse_digits_cons d s a :
  0 ≤ d < 10 → parse_digits (String (digit_char d) s) a = parse_digits s (10 * a + d).
Proof. intros Hd. cbn [parse_digits]. by rewrite digit_val_digit_char. Qed.

Lemma parse_print_digits fuel : ∀ n acc a,
  0 ≤ n → Z.log2 n ≤ Z.of_nat fuel →
  ∃ k, 0 ≤ k ∧
       parse_digits (print_digits fuel n acc) a = parse_digits acc (a * 10 ^ k + n).
Proof.
  assert (∀ n acc a, 0 ≤ n < 10 →
            parse_digits (String (digit_char (n `mod` 10)) acc) a
            = parse_digits acc (a * 10 ^ 1 + n)) as Hlast.
  { intros n acc a Hn. rewrite Z.mod_small by done.
    rewrite parse_digits_cons by done. f_equal. lia. }
  induction fuel as [|fuel IH]; intros n acc a Hn Hlog; cbn [print_digits].
  - exists 1. split; [lia|]. apply Hlast.
    destruct (decide (n < 2)); [lia|].
    assert (1 ≤ Z.log2 n) by (apply Z.log2_le_pow2; lia). lia.
  - destruct (Z.ltb_spec n 10) as [Hlt|Hge].
    + exists 1. split; [lia|]. apply Hlast. lia.
    + destruct (IH (n / 10) (String (digit_char (n `mod` 10)) acc) a)
        as (k & Hk & Hparse).
      * apply Z.div_pos; lia.
      * assert (Z.log2 (n / 10) ≤ Z.log2 (n / 2)) as Hle.
        { apply Z.log2_le_mono. apply Z.div_le_compat_l; lia. }
        assert (n / 2 = Z.shiftr n 1) as Hshift by (by rewrite Z.shiftr_div_pow2).
        rewrite Hshift, Z.log2_shiftr in Hle by lia. lia.
      * exists (k + 1). split; [lia|]. rewrite Hparse.
        rewrite parse_digits_cons by (apply Z.mod_pos_bound; lia).
        f_equal. rewrite Z.pow_add_r by lia.
        pose proof (Z.div_mod n 10). lia.
Qed.

Lemma parse_print_nat n : 0 ≤ n → parse_digits (print_nat n) 0 = n.
Proof.
  intros Hn. unfold print_nat.
  destruct (parse_print_digits (Z.to_nat (Z.log2 n)) n "" 0 Hn) as (k & _ & ->).
  - pose proof (Z.log2_nonneg n). lia.
  - cbn [parse_digits]. lia.
Qed.

Lemma stoi_digits d r :
  0 ≤ d < 10 →
  stoi (String (digit_char d) r)
  = (let v := parse_digits (String (digit_char d) r) 0 in
     if (INT_MIN <=? v) && (v <=? INT_MAX) then Ok v else Err OutOfRange) ∧
  stoi (String "-" (String (digit_char d) r))
  = (let v := - parse_digits (String (digit_char d) r) 0 in
     if (INT_MIN <=? v) && (v <=? INT_MAX) then Ok v else Err OutOfRange).
Proof.
  intros Hd. assert (d = 0 ∨ d = 1 ∨ d = 2 ∨ d = 3 ∨ d = 4 ∨ d = 5 ∨ d = 6 ∨
                     d = 7 ∨ d = 8 ∨ d = 9) as Hcases by lia.
  destruct Hcases as [->|[->|[->|[->|[->|[->|[->|[->|[->| ->]]]]]]]]];
    split; reflexivity.
Qed.

Theorem stoi_print_int z : is_int z → stoi (print_int z) = Ok z.
Proof.
  intros Hz. unfold is_int in Hz. unfold print_int.
  destruct (Z.ltb_spec z 0) as [Hneg|Hpos].
  - pose proof (parse_print_nat (- z) ltac:(lia)) as Hparse.
    unfold print_nat in *.
    destruct (print_digits_first (Z.to_nat (Z.log2 (- z))) (- z) "")
      as (d & r & Hd & Hr).
    rewrite Hr in *. destruct (stoi_digits d r Hd) as [_ ->].
    cbv zeta. rewrite Hparse, Z.opp_involutive.
    replace ((INT_MIN <=? z) && (z <=? INT_MAX)) with true; [done|].
    symmetry. apply andb_true_iff. split; apply Z.leb_le; lia.
  - pose proof (parse_print_nat z Hpos) as Hparse.
    unfold print_nat in *.
    destruct (print_digits_first (Z.to_nat (Z.log2 z)) z "") as (d & r & Hd & Hr).
    rewrite Hr in *. destruct (stoi_digits d r Hd) as [-> _].
    cbv zeta. rewrite Hparse.
    replace ((INT_MIN <=? z) && (z <=? INT_MAX)) with true; [done|].
    symmetry. apply andb_true_iff. split; apply Z.leb_le; lia.
Qed.

(** ** Serialize, then Deserialize *)

(** *** What [Serialize] writes *)

Section SerializeFacts.
Variable N : Z.
Variable h : heap.

Lemma encode_app rs1 rs2 : encode (rs1 ++ rs2) = encode rs1 +:+ encode rs2.
Proof.
  induction rs1 as [|r rs1 IH]; [done|].
  cbn [app encode foldr]. fold (encode (rs1 ++ rs2)). fold (encode rs1).
  by rewrite IH, string_app_assoc.
Qed.

Lemma serialize_walker_continue t skipDeep stream :
  tree_at N h t → mDepth (leaf t) ≤ skipDeep →
  serialize_walker h skipDeep false (addr t) stream
  = Ok (false, stream +:+ record_line (tree_record t).1 (tree_record t).2).
Proof.
  intros Ht Hd. unfold serialize_walker.
  rewrite (tree_at_load N _ _ Ht), bind_Ok.
  replace (skipDeep <? mDepth (leaf t)) with false
    by (symmetry; apply Z.ltb_ge; lia).
  by rewrite andb_false_r.
Qed.

Lemma serialize_walker_stop t skipDeep stream :
  tree_at N h t → 0 ≤ skipDeep < mDepth (leaf t) →
  serialize_walker h skipDeep false (addr t) stream
  = Ok (true, (stream +:+ record_line (tree_record t).1 (tree_record t).2)
              +:+ "..." +:+ String newline "").
Proof.
  intros Ht Hd. unfold serialize_walker.
  rewrite (tree_at_load N _ _ Ht), bind_Ok.
  replace (skipDeep <? mDepth (leaf t)) with true
    by (symmetry; apply Z.ltb_lt; lia).
  replace (skipDeep =? -1) with false by (symmetry; apply Z.eqb_neq; lia).
  done.
Qed.

(** No node deeper than the limit: one record for each node. *)
Lemma run_serialize_walker_all skipDeep order : ∀ stream,
  Forall (tree_at N h) order →
  Forall (fun t => mDepth (leaf t) ≤ skipDeep) order →
  run_walker (serialize_walker h skipDeep false) (addr <$> order) stream
  = Ok (stream +:+ encode (tree_record <$> order)).
Proof.
  induction order as [|t order IH]; intros stream Hall Hdepth.
  - by rewrite string_app_nil_r.
  - apply Forall_cons in Hall as [Ht Hall].
    apply Forall_cons in Hdepth as [Hd Hdepth].
    rewrite !fmap_cons. cbn [run_walker].
    rewrite serialize_walker_continue, bind_Ok by done.
    rewrite IH by done. cbn [encode foldr]. by rewrite string_app_assoc.
Qed.

(** A node deeper than the limit: its record is written, then the marker,
    and nothing after it. *)
Lemma run_serialize_walker_cut skipDeep pre x post stream :
  0 ≤ skipDeep →
  Forall (tree_at N h) (pre ++ x :: post) →
  Forall (fun t => mDepth (leaf t) ≤ skipDeep) pre →
  skipDeep < mDepth (leaf x) →
  run_walker (serialize_walker h skipDeep false)
    (addr <$> pre ++ x :: post) stream
  = Ok (stream +:+ encode (tree_record <$> pre ++ [x])
               +:+ "..." +:+ String newline "").
Proof.
  intros Hs. revert stream.
  induction pre as [|t pre IH]; intros stream Hall Hdepth Hx.
  - apply Forall_cons in Hall as [Ht _]. cbn [app fmap list_fmap run_walker].
    rewrite serialize_walker_stop, bind_Ok by (done || lia).
    cbn [encode foldr]. by rewrite !string_app_assoc.
  - apply Forall_cons in Hall as [Ht Hall].
    apply Forall_cons in Hdepth as [Hd Hdepth].
    cbn [app fmap list_fmap run_walker].
    rewrite serialize_walker_continue, bind_Ok by done.
    change (list_fmap _ _ addr (pre ++ x :: post)) with (addr <$> pre ++ x :: post).
    rewrite IH by done. cbn [encode foldr].
    change (list_fmap _ _ tree_record (pre ++ [x]))
      with (tree_record <$> pre ++ [x]).
    by rewrite !string_app_assoc.
Qed.

Lemma tree_at_depth t : tree_at N h t → mDepth (leaf t) ≤ 65535.
Proof.
  destruct t as [a l ks]. intros (_ & Hwf & _)%tree_at_inv.
  destruct Hwf as (_ & Hd & _). unfold is_uint16, UINT16_MOD in Hd. simpl. lia.
Qed.

(** [Serialize] without a depth limit writes the records of the nodes in
    breadth-first order. *)
Lemma Serialize_encode t fuel stream :
  tree_at N h t → (size t < fuel)%nat →
  Serialize N fuel h (addr t) stream 65535 false
  = Ok (stream +:+ encode (tree_record <$> bfs t)).
Proof.
  intros Ht Hfuel. unfold Serialize. rewrite (Walk_bfs N) by done.
  assert (Forall (tree_at N h) (bfs t)) as Hall.
  { rewrite bfs_nodes. by apply tree_at_nodes. }
  apply run_serialize_walker_all; [done|].
  eapply Forall_impl; [exact Hall|]. apply tree_at_depth.
Qed.
End SerializeFacts.

(** *** The records of a tree are a complete breadth-first description *)

Section Balance.
Variable N : Z.
Variable h : heap.

Lemma tree_record_count t :
  tree_at N h t → (tree_record t).1 = Z.of_nat (length (kids t)).
Proof. destruct t. by intros (_ & _ & ? & _)%tree_at_inv. Qed.

Lemma queue_order_balance fuel : ∀ q,
  Forall (tree_at N h) q → (sum_list_with size q < fuel)%nat →
  let cs := (tree_record <$> queue_order fuel q).*1 in
  (∀ j, (j < length (queue_order fuel q))%nat →
        Z.of_nat j < Z.of_nat (length q) + sumZ (take j cs)) ∧
  Z.of_nat (length q) + sumZ cs = Z.of_nat (length (queue_order fuel q)).
Proof.
  induction fuel as [|fuel IH]; intros q Hq Hfuel; [lia|].
  destruct q as [|t q]; [split; [simpl; lia|done]|].
  apply Forall_cons in Hq as [Ht Hq].
  assert (Forall (tree_at N h) (q ++ kids t)) as Hq'.
  { apply Forall_app. split; [done|]. by eapply tree_at_kids. }
  assert (sum_list_with size (q ++ kids t) < fuel)%nat as Hfuel'.
  { rewrite sum_list_with_app. destruct t; simpl in *. lia. }
  destruct (IH _ Hq' Hfuel') as [Hfed Hcomplete].
  cbn [queue_order]. rewrite !fmap_cons.
  rewrite (tree_record_count _ Ht). rewrite length_app in Hfed, Hcomplete.
  cbn zeta. split.
  - intros [|j] Hj; [simpl; lia|].
    simpl in Hj. specialize (Hfed j ltac:(lia)).
    cbn [take sumZ foldr length]. fold (sumZ (take j (tree_record <$> queue_order fuel (q ++ kids t)).*1)).
    lia.
  - cbn [sumZ foldr length].
    fold (sumZ (tree_record <$> queue_order fuel (q ++ kids t)).*1). lia.
Qed.

Lemma bfs_records_balanced t :
  tree_at N h t →
  let rs := tree_record <$> bfs t in
  (∀ j, (j < length rs)%nat → Z.of_nat j < first_child rs.*1 j) ∧
  first_child rs.*1 (length rs) = created rs.
Proof.
  intros Ht.
  pose proof (queue_order_balance (S (size t)) [t]) as H.
  rewrite queue_order_bfs in H by lia.
  destruct H as [Hfed Hcomplete].
  { by apply Forall_singleton. }
  { simpl. lia. }
  cbn zeta. rewrite length_fmap. split.
  - intros j Hj. specialize (Hfed j Hj). unfold first_child. simpl in Hfed. lia.
  - unfold first_child, created. rewrite length_fmap.
    rewrite take_ge by (by rewrite !length_fmap).
    simpl in Hcomplete. lia.
Qed.

Lemma bfs_records_wf t :
  tree_at N h t →
  Forall (fun r => (is_uint16 r.1 ∧ r.1 ≤ N) ∧ is_int r.2) (tree_record <$> bfs t).
Proof.
  intros Ht. apply Forall_fmap.
  assert (Forall (tree_at N h) (bfs t)) as Hall.
  { rewrite bfs_nodes. by apply tree_at_nodes. }
  eapply Forall_impl; [exact Hall|]. intros x Hx. simpl.
  pose proof (tree_at_amount_le N _ _ Hx) as Hle.
  pose proof (tree_record_count _ Hx) as Hc.
  destruct x as [a l ks]. apply tree_at_inv in Hx as (_ & Hwf & _).
  destruct Hwf as (Hv & _ & _ & Hn & _). simpl in *.
  unfold tree_record, leaf_record in *. simpl in *. split; [split|]; [done|lia|done].
Qed.
End Balance.

(** *** Reading the records back *)

Section Decode.
Variable N : Z.
Variable b : ptr.
Variable valueDeserializer : string → res Z.
Hypothesis reads_back : ∀ z, is_int z → valueDeserializer (print_int z) = Ok z.

Lemma Deserialize_line_record curline st c v req q leaf h var :
  line_record valueDeserializer curline = Some (c, v) →
  pending st = req :: q →
  create_leaf N req v (bheap st) (result st) = Ok (leaf, h, var) →
  Deserialize_line N valueDeserializer curline st
  = Ok (mkBuild h var (q ++ child_requests leaf c)).
Proof.
  unfold line_record, Deserialize_line. intros Hrec Hpen Hcreate.
  destruct (find colon curline) as [pos|]; [|done].
  destruct (valueDeserializer (substring 0 pos curline)) as [amount|]; [|done].
  destruct (valueDeserializer _) as [value|]; [|done].
  injection Hrec as <- <-.
  by rewrite !bind_Ok, Hpen, Hcreate, bind_Ok.
Qed.

Lemma first_child_prefix (rs1 rs2 : list (Z * Z)) j :
  (j ≤ length rs1)%nat →
  first_child (rs1 ++ rs2).*1 j = first_child rs1.*1 j.
Proof.
  intros Hj. unfold first_child. rewrite fmap_app, take_app_le; [done|].
  by rewrite length_fmap.
Qed.

(** From a state that has built [rs1], reading the lines of [rs2] builds
    [rs1 ++ rs2]. *)
Lemma Deserialize_loop_encode : ∀ rs2 rs1 fuel st,
  built_heap N b rs1 (bheap st) (result st) →
  built_queue b rs1 (pending st) →
  Forall (fun r => r.1 ≤ N) rs1 →
  Forall (fun r => (is_uint16 r.1 ∧ r.1 ≤ N) ∧ is_int r.2) rs2 →
  (∀ j, (j < length (rs1 ++ rs2))%nat →
        Z.of_nat j < first_child (rs1 ++ rs2).*1 j) →
  (length rs2 + 2 ≤ fuel)%nat →
  ∃ stream' st',
    Deserialize_loop N valueDeserializer fuel (mkIstream (encode rs2) true) st
      = Ok (stream', st') ∧
    built_heap N b (rs1 ++ rs2) (bheap st') (result st') ∧
    built_queue b (rs1 ++ rs2) (pending st').
Proof.
  induction rs2 as [|[c v] rs2 IH]; intros rs1 fuel st Hh Hq Hcap Hwf Hfed Hfuel.
  - rewrite app_nil_r. destruct fuel as [|[|fuel]]; [simpl in Hfuel; lia..|].
    cbn [Deserialize_loop good]. destruct (pending st) as [|req q] eqn:Hpen.
    + exists (mkIstream (encode []) true), st. rewrite Hpen. by cbn.
    + cbn. exists (mkIstream "" false), st. rewrite Hpen. by cbn.
  - destruct fuel as [|fuel]; [simpl in Hfuel; lia|].
    apply Forall_cons in Hwf as [[[Hc HcN] Hv] Hwf]. simpl in Hc, HcN, Hv.
    assert (pending st ≠ []) as Hne.
    { intros Hnil. destruct Hq as [Hlen _]. rewrite Hnil in Hlen.
      specialize (Hfed (length rs1)). rewrite length_app in Hfed.
      simpl in Hfed. specialize (Hfed ltac:(lia)).
      rewrite first_child_prefix in Hfed by lia.
      unfold created in Hlen. simpl in Hlen. lia. }
    destruct (pending st) as [|req q] eqn:Hpen; [done|].
    destruct (create_leaf_progress N b rs1 (bheap st) (result st) req q v Hh Hq Hcap)
      as [[[leaf h] var] Hcreate].
    destruct (built_step N b rs1 (bheap st) (result st) req q c v leaf h var
                Hh Hq Hc Hcreate) as (-> & Hh' & Hq').
    destruct (IH (rs1 ++ [(c, v)]) fuel
                (mkBuild h var (q ++ child_requests (b + created rs1) c)))
      as (stream' & st' & Hrun & Hh'' & Hq''); try done.
    + apply Forall_app. split; [done|]. by apply Forall_singleton.
    + by rewrite <- app_assoc.
    + simpl in Hfuel. lia.
    + exists stream', st'. rewrite <- app_assoc in Hh'', Hq''.
      split; [|done].
      cbn [Deserialize_loop good encode foldr]. rewrite Hpen.
      cbn [length Nat.eqb negb andb fst snd].
      fold (encode rs2). rewrite getline_record, record_nonempty.
      erewrite Deserialize_line_record; [| |exact Hpen|exact Hcreate].
      * rewrite bind_Ok. exact Hrun.
      * by apply line_record_print.
Qed.

(** The records of the nodes of a complete tree, read from the store in
    the order of creation. *)
Lemma built_records rs h var :
  built_heap N b rs h var →
  first_child rs.*1 (length rs) = created rs →
  (fun a => from_option leaf_record (0, 0) (cells h !! a)) <$> seqZ b (created rs)
  = rs.
Proof.
  intros [_ _ Hcounts _ _ _ _ Hnodes _] Hcomplete.
  pose proof (counts_nonneg _ Hcounts) as Hnn.
  apply list_eq. intros j. rewrite list_lookup_fmap.
  destruct (rs !! j) as [[c v]|] eqn:Hj.
  - pose proof (lookup_lt_Some _ _ _ Hj) as Hlt.
    rewrite lookup_seqZ_lt by (unfold created; lia). simpl.
    destruct (Hnodes _ _ _ Hj) as (l & -> & Hv & _ & _ & Hamt & _). simpl.
    unfold leaf_record. rewrite Hv, Hamt. do 2 f_equal.
    assert (rs.*1 !! j = Some c) as Hc by (by rewrite list_lookup_fmap, Hj).
    assert (0 ≤ c).
    { rewrite Forall_forall in Hnn. apply Hnn. by eapply list_elem_of_lookup_2. }
    pose proof (first_child_S _ _ _ Hc) as HS.
    pose proof (first_child_mono rs.*1 (S j) (length rs) Hnn ltac:(lia)).
    apply clamp_after; lia.
  - apply lookup_ge_None in Hj.
    rewrite lookup_seqZ_ge by (unfold created; lia). done.
Qed.
End Decode.

(** ** Sample trees are held by their stores *)

Ltac solve_tree_at :=
  repeat first
    [ apply Forall_nil_2
    | apply Forall_cons_2
    | apply tree_at_Tree; [ vm_compute; reflexivity
                          | unfold wf_leaf, is_int, is_uint16; vm_compute;
                            intuition congruence
                          | reflexivity | reflexivity | ] ].

Lemma sample_tree_at : tree_at 5 sample_heap sample_tree.
Proof. unfold sample_tree. solve_tree_at. Qed.

Lemma single_tree_at : tree_at 5 single_heap single_tree.
Proof. unfold single_tree. solve_tree_at. Qed.

Lemma chain_tree_at : tree_at 5 chain_heap chain_tree.
Proof. unfold chain_tree. solve_tree_at. Qed.

(** ** Traversal: order, completeness and early stop *)

(** C6. [Walk] with [includeSelf = true] and a callback that always returns
    false runs the callback along the breadth-first order of the subtree
    (level by level, children in slot order), which lists every node of the
    subtree exactly once.  With [includeSelf = false] it runs it along the
    breadth-first order of the nodes below the start, which lists every
    proper descendant exactly once and does not contain the start. *)
Theorem walk_complete_breadth_first {St} (N : Z) (h : heap) (t : tree)
    (f : ptr → St → St) (s : St) (fuel : nat) :
  tree_at N h t → (size t < fuel)%nat →
  Walk N fuel h (addr t) (always_false f) true s
    = Ok (foldl (fun s leaf => f leaf s) s (addr <$> bfs t)) ∧
  Walk N fuel h (addr t) (always_false record_visit) true []
    = Ok (addr <$> bfs t) ∧
  bfs t ≡ₚ nodes t ∧
  Walk N fuel h (addr t) (always_false f) false s
    = Ok (foldl (fun s leaf => f leaf s) s (addr <$> bfs_below t)) ∧
  Walk N fuel h (addr t) (always_false record_visit) false []
    = Ok (addr <$> bfs_below t) ∧
  bfs_below t ≡ₚ kids t ≫= nodes ∧
  addr t ∉ addr <$> bfs_below t.
Proof.
  intros Ht Hfuel.
  rewrite !(Walk_bfs N), !(Walk_bfs_below N), !run_walker_always_false by done.
  rewrite !foldl_record_visit.
  repeat split; try done.
  - apply bfs_nodes.
  - apply bfs_below_nodes.
  - by eapply root_not_below.
Qed.

Lemma walk_complete_breadth_first_witness :
  Walk 5 5 sample_heap 1 (always_false record_visit) true [] = Ok [1; 2; 3; 4] ∧
  Walk 5 5 sample_heap 1 (always_false record_visit) false [] = Ok [2; 3; 4].
Proof.
  destruct (walk_complete_breadth_first 5 sample_heap sample_tree
              record_visit [] 5 sample_tree_at ltac:(vm_compute; lia))
    as (_ & H1 & _ & _ & H2 & _).
  split; [exact H1|exact H2].
Defined.

(** C5. A callback that returns true on its [K]-th invocation, and false
    before, is invoked exactly [K] times: on the first [K] nodes of the
    breadth-first order and on no node after them. *)
Theorem walk_early_stop {St} (N : Z) (h : heap) (t : tree) (K : Z)
    (f : ptr → St → St) (s : St) (fuel : nat) :
  tree_at N h t → (size t < fuel)%nat →
  1 ≤ K ≤ Z.of_nat (size t) →
  Walk N fuel h (addr t) (stop_at K f) true (0, s)
    = Ok (K, foldl (fun s leaf => f leaf s) s
               (take (Z.to_nat K) (addr <$> bfs t))) ∧
  Walk N fuel h (addr t) (stop_at K record_visit) true (0, [])
    = Ok (K, take (Z.to_nat K) (addr <$> bfs t)).
Proof.
  intros Ht Hfuel HK.
  rewrite !(Walk_bfs N) by done.
  rewrite !run_walker_stop_at by (rewrite length_fmap, length_bfs; lia).
  rewrite Z.sub_0_r, foldl_record_visit. done.
Qed.

Lemma walk_early_stop_witness :
  Walk 5 5 sample_heap 1 (stop_at 2 record_visit) true (0, []) = Ok (2, [1; 2]).
Proof.
  apply (walk_early_stop 5 sample_heap sample_tree 2 record_visit [] 5
           sample_tree_at ltac:(vm_compute; lia) ltac:(vm_compute; split; congruence)).
Defined.

(** ** The maximum search *)

Section MaxChildren.
Variable N : Z.

Lemma GetMaxChildrenSubtree_foldl h t fuel output outputHolder :
  tree_at N h t → (size t < fuel)%nat →
  GetMaxChildrenSubtree N fuel h (addr t) output outputHolder
  = Ok (foldl max_step (output, outputHolder) (bfs t)).
Proof.
  intros Ht Hfuel. unfold GetMaxChildrenSubtree.
  rewrite (Walk_bfs N) by done.
  apply (run_max_children_walker N).
  rewrite bfs_nodes. by apply tree_at_nodes.
Qed.
End MaxChildren.

(** The program calls the search with [maxChildren = 0] and
    [maxChildrenSubtree = nullptr].  On a tree of one node the answer it
    leaves is not the first node that has the largest [childCount]: the
    holder is still null. *)
Lemma max_children_single_node :
  ¬ ∃ m a,
      GetMaxChildrenSubtree 5 2 single_heap (addr single_tree) 0 nullptr
        = Ok (m, a) ∧
      first_max (bfs single_tree) m a.
Proof.
  intros (m & a & Hrun & pre & x & post & Hbfs & Ha & _).
  vm_compute in Hrun. injection Hrun as <- <-.
  assert (x ∈ bfs single_tree) as Hx by (rewrite Hbfs; set_solver).
  vm_compute in Hx. apply list_elem_of_singleton in Hx. subst x. discriminate Ha.
Qed.

(** C8.  What the search does where it keeps its word: when some node has
    more children than the value [output] holds at the call, it leaves in
    [output] the largest [childCount] of the tree and in [outputHolder]
    the first node, in breadth-first order, that has it; the comparison
    is strict, so a later node with the same count does not replace it.
    On the tree whose breadth-first [childCount]s start 3, 5, 5, 2 the
    program's call answers 5 and the second node.  Where no node has more
    children than [output] holds, as on a tree of one node called with 0,
    the holder is not written ([max_children_single_node] above): the
    method does not write the subtree of the maximum through
    [outputHolder], as its comment says it does (ntree.hpp:236-241), and
    [main] goes on to use the holder (main.cpp:168). *)
Theorem max_children_first_wins (N : Z) (h : heap) (t : tree) (fuel : nat)
    (output : Z) (outputHolder : ptr) :
  tree_at N h t → (size t < fuel)%nat →
  Exists (fun x => output < child_count x) (bfs t) →
  (∃ m a,
      GetMaxChildrenSubtree N fuel h (addr t) output outputHolder = Ok (m, a) ∧
      first_max (bfs t) m a) ∧
  (∃ stream' st',
      Deserialize 5 stoi 18 (mkIstream max_sample_text true) empty_heap nullptr
        = Ok (stream', st') ∧
      Walk 5 17 (bheap st') (result st') (always_false record_visit) true []
        = Ok (seqZ 1 16) ∧
      Walk 5 17 (bheap st') (result st')
        (always_false (record_node (bheap st'))) true []
        = Ok ([(3, 100); (5, 101); (5, 102); (2, 103)] ++ replicate 12 (0, 0)) ∧
      GetMaxChildrenSubtree 5 17 (bheap st') (result st') 0 nullptr
        = Ok (5, 2)).
Proof.
  intros Ht Hfuel Hex. split.
  - rewrite (GetMaxChildrenSubtree_foldl N) by done.
    destruct (foldl_max_step_above (bfs t) (output, outputHolder) Hex)
      as (m & a & Hfold & Hmax).
    exists m, a. by rewrite Hfold.
  - eexists _, _. split; [by vm_compute|]. by vm_compute.
Qed.

Lemma max_children_first_wins_witness :
  ∃ m a,
    GetMaxChildrenSubtree 5 5 sample_heap 1 0 nullptr = Ok (m, a) ∧
    first_max (bfs sample_tree) m a.
Proof.
  apply (max_children_first_wins 5 sample_heap sample_tree 5 0 nullptr
           sample_tree_at ltac:(vm_compute; lia)).
  apply Exists_cons_hd. vm_compute. reflexivity.
Defined.

(** C10. When no node has more children than the value [output] holds at
    the call, the search writes neither [output] nor [outputHolder].  On a
    tree of one node, called as the program does with [0] and [nullptr],
    [outputHolder] stays [nullptr]. *)
Theorem max_children_no_write (N : Z) (h : heap) (t : tree) (fuel : nat)
    (output : Z) (outputHolder : ptr) :
  tree_at N h t → (size t < fuel)%nat →
  (Forall (fun x => child_count x ≤ output) (bfs t) →
   GetMaxChildrenSubtree N fuel h (addr t) output outputHolder
     = Ok (output, outputHolder)) ∧
  (kids t = [] →
   GetMaxChildrenSubtree N fuel h (addr t) 0 nullptr = Ok (0, nullptr)).
Proof.
  intros Ht Hfuel.
  rewrite !(GetMaxChildrenSubtree_foldl N) by done. split.
  - intros Hall. by rewrite foldl_max_step_below.
  - intros Hk. rewrite foldl_max_step_below; [done|].
    rewrite bfs_unfold. unfold bfs_below. rewrite Hk.
    assert (levels (pred (height t)) [] = []) as ->.
    { generalize (pred (height t)). intros n. induction n; simpl; done. }
    apply Forall_singleton. unfold child_count. simpl.
    destruct t as [a l ks]. apply tree_at_inv in Ht as (_ & _ & Hn & _).
    simpl in *. subst ks. simpl in Hn. lia.
Qed.

Lemma max_children_no_write_witness :
  GetMaxChildrenSubtree 5 2 single_heap 1 0 nullptr = Ok (0, nullptr).
Proof.
  destruct (max_children_no_write 5 single_heap single_tree 2 0 nullptr
              single_tree_at ltac:(vm_compute; lia)) as [_ H].
  apply H. reflexivity.
Defined.

(** ** Round trip *)

Lemma foldl_count_node order count :
  foldl (fun s leaf => count_node leaf s) count order
  = count + Z.of_nat (length order).
Proof.
  revert count. induction order as [|a order IH]; intros count; simpl; [lia|].
  rewrite IH. unfold count_node. lia.
Qed.

Lemma foldl_record_node h order log :
  foldl (fun s leaf => record_node h leaf s) log order
  = log ++ ((fun a => from_option leaf_record (0, 0) (cells h !! a)) <$> order).
Proof.
  revert log. induction order as [|a order IH]; intros log; simpl.
  - by rewrite app_nil_r.
  - rewrite IH. unfold record_node. by rewrite <- app_assoc.
Qed.

Lemma tree_records_read N h order :
  Forall (tree_at N h) order →
  (fun a => from_option leaf_record (0, 0) (cells h !! a)) <$> (addr <$> order)
  = tree_record <$> order.
Proof.
  induction 1 as [|t order Ht _ IH]; [done|].
  rewrite !fmap_cons, IH. f_equal.
  destruct t as [a l ks]. apply tree_at_inv in Ht as (Hl & _).
  simpl. by rewrite Hl.
Qed.

(** C1. For a tree held in the store (every node with at most [N]
    children), and a value deserializer that reads back what [operator<<]
    prints: [Serialize] with the depth limit left at its default and
    [pretty] off succeeds, [Deserialize] succeeds on its output, and the
    tree it builds has the same number of nodes and, in breadth-first
    order, the same ([childCount], value) records. *)
Theorem serialize_deserialize_round_trip (N : Z)
    (valueDeserializer : string → res Z) (h : heap) (t : tree)
    (h0 : heap) (var0 : ptr) (fuel : nat) :
  (∀ z, is_int z → valueDeserializer (print_int z) = Ok z) →
  tree_at N h t → 0 < next h0 → (size t + 2 ≤ fuel)%nat →
  ∃ text stream' st',
    Serialize N fuel h (addr t) "" (to_uint16 (-1)) false = Ok text ∧
    Deserialize N valueDeserializer fuel (mkIstream text true) h0 var0
      = Ok (stream', st') ∧
    Walk N fuel h (addr t) (always_false count_node) true 0
      = Ok (Z.of_nat (size t)) ∧
    Walk N fuel (bheap st') (result st') (always_false count_node) true 0
      = Ok (Z.of_nat (size t)) ∧
    Walk N fuel h (addr t) (always_false (record_node h)) true []
      = Ok (tree_record <$> bfs t) ∧
    Walk N fuel (bheap st') (result st')
      (always_false (record_node (bheap st'))) true []
      = Ok (tree_record <$> bfs t).
Proof.
  intros Hvd Ht Hh0 Hfuel.
  set (rs := tree_record <$> bfs t).
  assert (0 ≤ N) as HN.
  { destruct t as [a l ks]. apply tree_at_inv in Ht as (_ & Hwf & _).
    destruct Hwf as (_ & _ & _ & _ & Hlen). lia. }
  assert (length rs = size t) as Hlen by (unfold rs; by rewrite length_fmap, length_bfs).
  destruct (bfs_records_balanced N h t Ht) as [Hfed Hcomplete]. fold rs in Hfed, Hcomplete.
  pose proof (bfs_records_wf N h t Ht) as Hwf. fold rs in Hwf.
  destruct (built_initial N (next h0) h0 var0 HN Hh0 eq_refl) as [Hb0 Hq0].
  destruct (Deserialize_loop_encode N (next h0) valueDeserializer Hvd rs [] fuel
              (mkBuild h0 var0 [mkData VarSlot nullptr 0]))
    as (stream' & st' & Hrun & Hbuilt & _); try done; [lia|].
  simpl in Hbuilt.
  assert (0 < created rs) as Hpos.
  { unfold created. rewrite Hlen. destruct t; simpl; lia. }
  assert (result st' = next h0) as Hres by (by apply (built_result _ _ _ _ _ Hbuilt)).
  assert (Forall (tree_at N h) (bfs t)) as Hall.
  { rewrite bfs_nodes. by apply tree_at_nodes. }
  exists (encode rs), stream', st'.
  split; [|split; [exact Hrun|]].
  { change (to_uint16 (-1)) with 65535.
    rewrite (Serialize_encode N) by (done || lia). done. }
  rewrite Hres, !(Walk_built N (next h0) rs (bheap st') (result st') Hbuilt)
    by (done || unfold created; lia).
  rewrite !(Walk_bfs N) by (done || lia).
  rewrite !run_walker_always_false, !foldl_count_node, !foldl_record_node.
  rewrite length_fmap, length_bfs, length_seqZ.
  rewrite (built_records N _ _ _ _ Hbuilt Hcomplete).
  rewrite (tree_records_read N) by done.
  unfold created. rewrite Hlen, Nat2Z.id. done.
Qed.

Lemma serialize_deserialize_round_trip_witness :
  ∃ text stream' st',
    Serialize 5 6 sample_heap 1 "" (to_uint16 (-1)) false = Ok text ∧
    Deserialize 5 stoi 6 (mkIstream text true) empty_heap nullptr
      = Ok (stream', st') ∧
    Walk 5 6 sample_heap 1 (always_false count_node) true 0 = Ok 4 ∧
    Walk 5 6 (bheap st') (result st') (always_false count_node) true 0 = Ok 4 ∧
    Walk 5 6 sample_heap 1 (always_false (record_node sample_heap)) true []
      = Ok [(2, 10); (1, -7); (0, 3); (0, 4)] ∧
    Walk 5 6 (bheap st') (result st')
      (always_false (record_node (bheap st'))) true []
      = Ok [(2, 10); (1, -7); (0, 3); (0, 4)].
Proof.
  apply (serialize_deserialize_round_trip 5 stoi sample_heap sample_tree
           empty_heap nullptr 6 stoi_print_int sample_tree_at
           ltac:(vm_compute; reflexivity) ltac:(vm_compute; lia)).
Defined.

(** ** Depth-limited encoding *)

(** C2: the record of the first node deeper than the limit is written
    before the marker.  In general: with the nodes before it within the
    limit, the output is their records, then its record, then one [...]
    line.  On the chain root, child, grandchild with [depthLimit = 1], the
    record [0:30] of the grandchild (depth 2) is in the output. *)
Theorem serialize_depth_limit_writes_deeper_record (N : Z) (h : heap)
    (t : tree) (fuel : nat) (depthLimit : Z) (pre post : list tree) (x : tree) :
  tree_at N h t → (size t < fuel)%nat → 0 ≤ depthLimit →
  bfs t = pre ++ x :: post →
  Forall (fun y => mDepth (leaf y) ≤ depthLimit) pre →
  depthLimit < mDepth (leaf x) →
  Serialize N fuel h (addr t) "" depthLimit false
    = Ok (encode (tree_record <$> pre ++ [x]) +:+ "..." +:+ String newline "") ∧
  Serialize 5 4 chain_heap (addr chain_tree) "" 1 false
    = Ok (unlines ["1:10"; "1:20"; "0:30"; "..."]).
Proof.
  intros Ht Hfuel Hlimit Hbfs Hpre Hx. split; [|by vm_compute].
  unfold Serialize. rewrite (Walk_bfs N), Hbfs by done.
  rewrite (run_serialize_walker_cut N); try done.
  rewrite <- Hbfs, bfs_nodes. by apply tree_at_nodes.
Qed.

Lemma serialize_depth_limit_writes_deeper_record_witness :
  Serialize 5 4 chain_heap 1 "" 1 false
  = Ok (encode [(1, 10); (1, 20); (0, 30)] +:+ "..." +:+ String newline "").
Proof.
  destruct (serialize_depth_limit_writes_deeper_record 5 chain_heap chain_tree 4 1
              [Tree 1 (mkNLeaf 10 0 0 1 [2; 0; 0; 0; 0])
                 [Tree 2 (mkNLeaf 20 1 0 1 [3; 0; 0; 0; 0])
                    [Tree 3 (mkNLeaf 30 2 0 0 [0; 0; 0; 0; 0]) []]];
               Tree 2 (mkNLeaf 20 1 0 1 [3; 0; 0; 0; 0])
                 [Tree 3 (mkNLeaf 30 2 0 0 [0; 0; 0; 0; 0]) []]]
              []
              (Tree 3 (mkNLeaf 30 2 0 0 [0; 0; 0; 0; 0]) [])
              chain_tree_at ltac:(vm_compute; lia) ltac:(lia) eq_refl
              ltac:(repeat constructor; vm_compute; congruence)
              ltac:(vm_compute; reflexivity)) as [H _].
  exact H.
Defined.

(** ** Teardown *)

(** C4: on the chain root, child, grandchild the destructor of the root
    releases the grandchild twice: once from the destructor of the child,
    and once more from the root's own walk, which queued the grandchild
    before the child was deleted.  On the sample tree node 4, a grandchild,
    is released twice as well. *)
Theorem destructor_releases_grandchild_twice :
  destroy 5 4 chain_heap (addr chain_tree) [] = Ok [3; 2; 3] ∧
  destroy 5 5 sample_heap (addr sample_tree) [] = Ok [4; 2; 3; 4].
Proof. split; by vm_compute. Qed.

(** ** The generator's node count *)

(** C3: the generator builds [max 1 maxLeaves] nodes, whatever [rand]
    returns: [maxLeaves] of them when [maxLeaves >= 1], and still one, the
    root, when [maxLeaves] is 0 or negative. *)
Theorem generate_node_count (rand : nat → nat) (maxLeaves : Z) (h : heap)
    (fuel fuel' : nat) :
  0 < next h → maxLeaves ≤ Z.of_nat fuel → (0 < fuel)%nat →
  Z.max 1 maxLeaves < Z.of_nat fuel' →
  (∃ st,
     GenerateTree fuel rand maxLeaves h = Ok st ∧
     Walk 5 fuel' (bheap st) (result st) (always_false count_node) true 0
       = Ok (Z.max 1 maxLeaves)) ∧
  (∃ st,
     GenerateTree fuel rand 0 h = Ok st ∧
     Walk 5 fuel' (bheap st) (result st) (always_false count_node) true 0
       = Ok 1).
Proof.
  intros Hh Hfuel Hpos Hfuel'.
  assert (∀ m, m ≤ Z.of_nat fuel → Z.max 1 m < Z.of_nat fuel' →
            ∃ st, GenerateTree fuel rand m h = Ok st ∧
              Walk 5 fuel' (bheap st) (result st) (always_false count_node) true 0
              = Ok (Z.max 1 m)) as H.
  { intros m Hm Hm'.
    destruct (GenerateTree_built rand m fuel h Hh Hm Hpos)
      as (st & rs & v & Hrun & Hbuilt & _ & _ & Hcount).
    exists st. split; [done|].
    assert (result st = next h) as Hres
      by (apply (built_result _ _ _ _ _ Hbuilt); lia).
    rewrite Hres in *.
    rewrite (Walk_built 5 (next h) (rs ++ [(0, v)]) (bheap st) (next h) Hbuilt)
      by lia.
    rewrite run_walker_always_false, foldl_count_node, length_seqZ. f_equal. lia. }
  split; [by apply H|]. apply (H 0); lia.
Qed.

Lemma generate_node_count_witness :
  ∃ st,
    GenerateTree 1 (fun k => k) 0 empty_heap = Ok st ∧
    Walk 5 2 (bheap st) (result st) (always_false count_node) true 0 = Ok 1.
Proof.
  destruct (generate_node_count (fun k => k) 0 empty_heap 1 2
              ltac:(vm_compute; reflexivity) ltac:(vm_compute; congruence)
              ltac:(lia) ltac:(vm_compute; reflexivity)) as [_ H].
  exact H.
Defined.

(** ** Depth *)

Lemma chain_lookup n j : (j < n)%nat → chain_records n !! j = Some (1, 0).
Proof.
  intros Hj. unfold chain_records.
  rewrite lookup_app_l by (by rewrite length_replicate).
  by apply lookup_replicate_2.
Qed.

Lemma chain_created n : created (chain_records n) = Z.of_nat n + 1.
Proof.
  unfold created, chain_records. rewrite length_app, length_replicate. simpl. lia.
Qed.

Lemma chain_first_child n j :
  (j ≤ n)%nat → first_child (chain_records n).*1 j = 1 + Z.of_nat j.
Proof.
  induction j as [|j IH]; intros Hj; [done|].
  rewrite (first_child_S _ _ 1).
  - rewrite IH by lia. lia.
  - by rewrite list_lookup_fmap, chain_lookup by lia.
Qed.

(** Decoding the records of a chain builds the chain. *)
Lemma chain_decoded n :
  ∃ stream' st',
    Deserialize 5 stoi (length (chain_records n) + 2)
      (mkIstream (encode (chain_records n)) true) empty_heap nullptr
      = Ok (stream', st') ∧
    built_heap 5 1 (chain_records n) (bheap st') (result st').
Proof.
  destruct (built_initial 5 1 empty_heap nullptr) as [Hb0 Hq0]; [lia|done|done|].
  destruct (Deserialize_loop_encode 5 1 stoi stoi_print_int (chain_records n) []
              (length (chain_records n) + 2)
              (mkBuild empty_heap nullptr [mkData VarSlot nullptr 0]))
    as (stream' & st' & Hrun & Hbuilt & _); try done.
  - unfold chain_records. apply Forall_app. split.
    + apply Forall_replicate. unfold is_uint16, is_int, UINT16_MOD, INT_MIN, INT_MAX.
      simpl. lia.
    + apply Forall_singleton. unfold is_uint16, is_int, UINT16_MOD, INT_MIN, INT_MAX.
      simpl. lia.
  - intros j Hj. rewrite app_nil_l in *. rewrite chain_first_child; [lia|].
    unfold chain_records in Hj. rewrite length_app, length_replicate in Hj.
    simpl in Hj. lia.
  - exists stream', st'. done.
Qed.

(** In the chain the depth field of node [j] is [j] modulo 65536. *)
Lemma chain_depth n h var :
  built_heap 5 1 (chain_records n) h var →
  ∀ j, (j ≤ n)%nat →
    ∃ l, cells h !! (1 + Z.of_nat j) = Some l ∧ mDepth l = to_uint16 (Z.of_nat j).
Proof.
  intros [_ _ _ _ _ Hroot _ _ Hlinks]. induction j as [|j IH]; intros Hj.
  - destruct Hroot as (l & Hl & Hd & _); [rewrite chain_created; lia|].
    exists l. by rewrite Hd.
  - destruct IH as (lp & Hlp & Hdp); [lia|].
    destruct (Hlinks j 1 0 0) as (lp' & lc & Hlp' & Hlc & _ & Hdc).
    { apply chain_lookup. lia. }
    { lia. }
    { rewrite chain_first_child, chain_created by lia. lia. }
    rewrite chain_first_child in Hlc by lia.
    assert (lp' = lp) as -> by congruence.
    exists lc. split.
    + rewrite <- Hlc. f_equal. lia.
    + rewrite Hdc, Hdp. unfold to_uint16, UINT16_MOD.
      rewrite Zplus_mod_idemp_l. f_equal. lia.
Qed.

(** A chain of 65537 nodes, decoded from its records: the node at distance
    65536 from the root has depth 0, not its parent's depth 65535 plus one. *)
Lemma deep_chain_depth_wraps :
  ∃ stream' st',
    Deserialize 5 stoi (length (chain_records (Z.to_nat 65536)) + 2)
      (mkIstream (encode (chain_records (Z.to_nat 65536))) true)
      empty_heap nullptr
      = Ok (stream', st') ∧
    next empty_heap < next (bheap st') ∧
    ¬ depth_exact (bheap st') (next empty_heap) (next (bheap st')).
Proof.
  destruct (chain_decoded (Z.to_nat 65536)) as (stream' & st' & Hrun & Hbuilt).
  exists stream', st'. split; [done|].
  pose proof Hbuilt as [_ _ _ Hnext _ _ _ Hnodes _].
  rewrite chain_created in Hnext.
  split; [rewrite Hnext; simpl; lia|]. intros Hexact.
  destruct (chain_depth _ _ _ Hbuilt (Z.to_nat 65535)) as (lp & Hlp & Hdp); [lia|].
  destruct (chain_depth _ _ _ Hbuilt (Z.to_nat 65536)) as (lc & Hlc & Hdc); [lia|].
  rewrite Z2Nat.id in Hlp, Hdp, Hlc, Hdc by lia.
  destruct (Hnodes (Z.to_nat 65535) 1 0) as (l & Hl & _ & _ & _ & Hamt & Hch).
  { apply chain_lookup. lia. }
  rewrite chain_first_child, chain_created in * by lia.
  rewrite Z2Nat.id in * by lia.
  assert (l = lp) as -> by congruence.
  assert (mChildrenAmount lp = 1) as Hone by (rewrite Hamt; reflexivity).
  destruct (Hexact (1 + 65535) lp 0 (1 + 65536)) as (lc' & Hlc' & Hdc').
  - rewrite Hnext. simpl. lia.
  - done.
  - lia.
  - rewrite (Hch 0) by lia. f_equal.
  - assert (lc' = lc) as -> by congruence.
    rewrite Hdc, Hdp in Hdc'. vm_compute in Hdc'. discriminate.
Qed.

Lemma depth_linked_exact h lo hi p lp t c :
  depth_linked h lo hi →
  lo ≤ p < hi → cells h !! p = Some lp →
  0 ≤ t < mChildrenAmount lp → mChildren lp !! Z.to_nat t = Some c →
  mDepth lp < 65535 →
  ∃ lc, cells h !! c = Some lc ∧ mDepth lc = mDepth lp + 1.
Proof.
  intros Hlinked Hp Hlp Ht Hc Hd.
  destruct (Hlinked p lp t c Hp Hlp Ht Hc) as (lc & Hlc & _ & Hrange & Hdc).
  exists lc. split; [done|]. rewrite Hdc. apply to_uint16_small.
  unfold is_uint16, UINT16_MOD in *. lia.
Qed.

(** C7, amended.  After decoding the root has depth 0 and every attached
    child has the depth of its parent plus one in 16-bit arithmetic:
    exactly one more when the parent's depth is below 65535, and 0 when it
    is 65535.  After generation the root has depth 0 and every attached
    child has exactly the depth of its parent plus one: a generated tree of
    at most [INT_MAX] nodes is never deeper than 31. *)
Theorem depth_invariant_16_bit (N : Z) (valueDeserializer : string → res Z)
    (stream stream' : istream) (h : heap) (var : ptr) (st' : build_state)
    (rand : nat → nat) (maxLeaves : Z) (fuel : nat) :
  0 ≤ N → 0 < next h →
  Deserialize N valueDeserializer fuel stream h var = Ok (stream', st') →
  next h < next (bheap st') →
  maxLeaves ≤ INT_MAX → maxLeaves ≤ Z.of_nat fuel → (0 < fuel)%nat →
  (root_depth_0 (bheap st') (result st') ∧
   depth_linked (bheap st') (next h) (next (bheap st'))) ∧
  (∃ st,
     GenerateTree fuel rand maxLeaves h = Ok st ∧
     root_depth_0 (bheap st) (result st) ∧
     depth_exact (bheap st) (next h) (next (bheap st))).
Proof.
  intros HN Hh Hrun Hsome Hint Hfuel Hpos. split.
  - destruct (built_initial N (next h) h var HN Hh eq_refl) as [Hb0 Hq0].
    destruct (Deserialize_loop_built N (next h) valueDeserializer fuel stream
                (mkBuild h var [mkData VarSlot nullptr 0]) [] stream' st'
                Hb0 Hq0 Hrun) as (rs & Hbuilt & _).
    simpl in Hbuilt.
    pose proof (built_next _ _ _ _ _ Hbuilt) as Hnext. rewrite Hnext in *.
    split.
    + apply (built_root_depth N (next h) rs); [done|lia].
    + by apply (built_depth_linked N (next h) rs _ (result st')).
  - destruct (GenerateTree_built rand maxLeaves fuel h Hh Hfuel Hpos)
      as (st & rs & v & Hrun' & Hbuilt & _ & Hcs & Hcount).
    exists st. split; [done|].
    pose proof (built_next _ _ _ _ _ Hbuilt) as Hnext. rewrite Hnext.
    split.
    + apply (built_root_depth 5 (next h) (rs ++ [(0, v)])); [done|lia].
    + apply (generated_depth_exact (next h) rs v _ (result st)); [done..|].
      rewrite Hcount. unfold INT_MAX in Hint. lia.
Qed.

Lemma sample_decoded :
  Deserialize 5 stoi 6 (mkIstream sample_text true) empty_heap nullptr
  = Ok (mkIstream "" true, mkBuild sample_heap 1 []).
Proof. by vm_compute. Qed.

Lemma depth_invariant_16_bit_witness :
  (root_depth_0 sample_heap 1 ∧ depth_linked sample_heap 1 5) ∧
  (∃ st,
     GenerateTree 6 (fun k => k) 4 empty_heap = Ok st ∧
     root_depth_0 (bheap st) (result st) ∧
     depth_exact (bheap st) 1 (next (bheap st))).
Proof.
  apply (depth_invariant_16_bit 5 stoi (mkIstream sample_text true)
           (mkIstream "" true) empty_heap nullptr (mkBuild sample_heap 1 [])
           (fun k => k) 4 6
           ltac:(lia) ltac:(vm_compute; reflexivity) sample_decoded
           ltac:(vm_compute; reflexivity) ltac:(vm_compute; congruence)
           ltac:(vm_compute; congruence) ltac:(lia)).
Defined.

(** ** Capacity *)

(** [Deserialize] checks no child count against [N]: from the one record
    [6:0], with [N = 5], it queues a request for slot 5 of the new node;
    with six more records it writes [mChildren[5]], outside the array. *)
Lemma decoder_requests_slot_beyond_capacity :
  ∃ stream' st',
    Deserialize 5 stoi 4 (mkIstream (unlines ["6:0"]) true) empty_heap nullptr
      = Ok (stream', st') ∧
    ¬ requests_in_bounds 5 (pending st') ∧
    Deserialize 5 stoi 10 (mkIstream overfull_text true) empty_heap nullptr
      = Err OutOfBounds.
Proof.
  eexists _, _. split; [by vm_compute|]. split; [|by vm_compute].
  intros Hin. cbn [pending] in Hin.
  assert (0 ≤ 5 < 5) as Habs; [|lia].
  apply (Hin (mkData (ChildSlot 1 5) 1 5) 1 5); [|done]. set_solver.
Qed.

(** The count is the field modulo 65536: a field below [N] as an [int] can
    ask for more than [N] children. *)
Lemma negative_count_read_modulo :
  line_record stoi "-65530:0" = Some (6, 0).
Proof. vm_compute. reflexivity. Qed.

(** C9, amended.  [Deserialize] converts the count field of a record to
    [uint16_t], so the number of children a record asks for is the parsed
    [int] modulo 65536 (this is the count [line_record] gives).  When that
    number is at most [N] for every record of the stream, every node
    [Deserialize] creates has at most [N] children and every pending
    request targets a slot below [N]; the generator, which asks for 2 to
    5 children with [N = 5], guarantees the same.  A field that is at most
    [N] as an [int] is not enough: [-65530] asks for 6 children. *)
Theorem capacity_respected (N : Z) (valueDeserializer : string → res Z)
    (stream stream' : istream) (h : heap) (var : ptr) (st' : build_state)
    (rand : nat → nat) (maxLeaves : Z) (fuel : nat) :
  0 ≤ N → 0 < next h →
  (∀ line c v,
     line ∈ stream_lines (buffer stream) →
     line_record valueDeserializer line = Some (c, v) → c ≤ N) →
  Deserialize N valueDeserializer fuel stream h var = Ok (stream', st') →
  maxLeaves ≤ Z.of_nat fuel → (0 < fuel)%nat →
  (within_capacity N (bheap st') (next h) (next (bheap st')) ∧
   requests_in_bounds N (pending st')) ∧
  (∃ st,
     GenerateTree fuel rand maxLeaves h = Ok st ∧
     within_capacity 5 (bheap st) (next h) (next (bheap st)) ∧
     requests_in_bounds 5 (pending st)).
Proof.
  intros HN Hh Hlines Hrun Hfuel Hpos. split.
  - destruct (built_initial N (next h) h var HN Hh eq_refl) as [Hb0 Hq0].
    destruct (Deserialize_loop_built N (next h) valueDeserializer fuel stream
                (mkBuild h var [mkData VarSlot nullptr 0]) [] stream' st'
                Hb0 Hq0 Hrun) as (rs & Hbuilt & Hqueue & _ & Hfrom).
    simpl in Hbuilt, Hqueue, Hfrom.
    assert (Forall (fun r => r.1 ≤ N) rs) as Hcap.
    { eapply Forall_impl; [exact Hfrom|]. intros [c v] (line & Hl & Hr). simpl.
      by eapply Hlines. }
    pose proof (built_next _ _ _ _ _ Hbuilt) as Hnext. rewrite Hnext.
    split.
    + by apply (built_within_capacity N (next h) rs _ (result st')).
    + by apply (built_requests_in_bounds N (next h) rs).
  - destruct (GenerateTree_built rand maxLeaves fuel h Hh Hfuel Hpos)
      as (st & rs & v & Hrun' & Hbuilt & Hin & Hcs & Hcount).
    exists st. split; [done|].
    pose proof (built_next _ _ _ _ _ Hbuilt) as Hnext. rewrite Hnext.
    split; [|done].
    apply (built_within_capacity 5 (next h) _ _ (result st)); [done|].
    apply Forall_app. split.
    + eapply Forall_impl; [exact Hcs|]. simpl. lia.
    + apply Forall_singleton. simpl. lia.
Qed.

Lemma capacity_respected_witness :
  (within_capacity 5 sample_heap 1 5 ∧ requests_in_bounds 5 []) ∧
  (∃ st,
     GenerateTree 6 (fun k => k) 4 empty_heap = Ok st ∧
     within_capacity 5 (bheap st) 1 (next (bheap st)) ∧
     requests_in_bounds 5 (pending st)).
Proof.
  apply (capacity_respected 5 stoi (mkIstream sample_text true)
           (mkIstream "" true) empty_heap nullptr (mkBuild sample_heap 1 [])
           (fun k => k) 4 6
           ltac:(lia) ltac:(vm_compute; reflexivity)).
  - intros line c v Hline. vm_compute in Hline.
    repeat (apply elem_of_cons in Hline as [->|Hline]);
      try (by apply elem_of_nil in Hline);
      vm_compute; intros [= <- <-]; congruence.
  - exact sample_decoded.
  - vm_compute. congruence.
  - lia.
Defined.

(** ** Further properties of the class *)

(** *** Serialize with a depth limit and tabs *)

Section SerializeAll.
Variable N : Z.
Variable h : heap.

Lemma serialize_walker_line t skipDeep pretty stream :
  tree_at N h t → is_uint16 skipDeep →
  serialize_walker h skipDeep pretty (addr t) stream
  = Ok (skipDeep <? mDepth (leaf t),
        stream +:+ serialized_line pretty (leaf t)
               +:+ (if skipDeep <? mDepth (leaf t) then "..." +:+ endl
                    else EmptyString)).
Proof.
  intros Ht Hs. unfold serialize_walker.
  rewrite (tree_at_load N _ _ Ht), bind_Ok.
  replace (skipDeep =? -1) with false
    by (symmetry; apply Z.eqb_neq; unfold is_uint16 in Hs; lia).
  cbn [negb andb]. unfold serialized_line, pretty_prefix, record_line, endl.
  destruct pretty, (skipDeep <? mDepth (leaf t));
    by rewrite ?string_app_assoc, ?app_empty, ?string_app_nil_r.
Qed.

Lemma run_serialize_walker_serialized skipDeep pretty order : ∀ stream,
  Forall (tree_at N h) order → is_uint16 skipDeep →
  run_walker (serialize_walker h skipDeep pretty) (addr <$> order) stream
  = Ok (stream +:+ serialized skipDeep pretty (leaf <$> order)).
Proof.
  induction order as [|t order IH]; intros stream Hall Hs.
  - by rewrite string_app_nil_r.
  - apply Forall_cons in Hall as [Ht Hall].
    rewrite !fmap_cons. cbn [run_walker serialized].
    rewrite serialize_walker_line, bind_Ok by done.
    destruct (skipDeep <? mDepth (leaf t)).
    + by rewrite ?string_app_assoc.
    + rewrite IH by done. by rewrite string_app_nil_r, ?string_app_assoc.
Qed.
End SerializeAll.

(** X1. For every depth limit and with or without tabs, [Serialize] on a
    well-formed tree returns, and what it appends to the stream is: the
    lines of the nodes in breadth-first order, up to and including the
    first node that lies deeper than the limit, and the marker after that
    node. *)
Theorem Serialize_serialized (N : Z) (h : heap) (t : tree) (fuel : nat)
    (stream : string) (skipDeep : Z) (pretty : bool) :
  tree_at N h t → (size t < fuel)%nat → is_uint16 skipDeep →
  Serialize N fuel h (addr t) stream skipDeep pretty
  = Ok (stream +:+ serialized skipDeep pretty (leaf <$> bfs t)).
Proof.
  intros Ht Hfuel Hs. unfold Serialize. rewrite (Walk_bfs N) by done.
  apply (run_serialize_walker_serialized N); [|done].
  rewrite bfs_nodes. by apply tree_at_nodes.
Qed.

Lemma Serialize_serialized_witness :
  Serialize 5 5 sample_heap (addr sample_tree) "" 0 true
  = Ok ("" +:+ serialized 0 true (leaf <$> bfs sample_tree)).
Proof.
  apply (Serialize_serialized 5 sample_heap sample_tree 5 "" 0 true
           sample_tree_at ltac:(vm_compute; lia)
           ltac:(vm_compute; split; congruence)).
Defined.

(** *** GetByteSize *)

Lemma foldl_add_mod {A} (sz M : Z) (order : list A) : ∀ s,
  foldl (fun result _ => (result + sz) mod M) (s mod M) order
  = (s + Z.of_nat (length order) * sz) mod M.
Proof.
  induction order as [|a order IH]; intros s.
  - simpl. f_equal. lia.
  - cbn [foldl]. rewrite IH, <- Z.add_assoc, Zplus_mod_idemp_l. f_equal.
    simpl length. lia.
Qed.

(** X2. [GetByteSize] on a well-formed tree returns the number of its
    nodes times [sizeof(NLeaf<int, N>)], in [size_t] arithmetic. *)
Theorem GetByteSize_size (N : Z) (h : heap) (t : tree) (sizeof_NLeaf : Z)
    (fuel : nat) :
  tree_at N h t → (size t < fuel)%nat →
  GetByteSize N sizeof_NLeaf fuel h (addr t)
  = Ok ((Z.of_nat (size t) * sizeof_NLeaf) mod SIZE_MOD).
Proof.
  intros Ht Hfuel. unfold GetByteSize. rewrite (Walk_bfs N) by done.
  rewrite (run_walker_never_stops
             (fun (_ : ptr) result => (result + sizeof_NLeaf) mod SIZE_MOD)).
  f_equal. change 0 with (0 mod SIZE_MOD) at 1.
  rewrite (foldl_add_mod sizeof_NLeaf SIZE_MOD).
  by rewrite length_fmap, length_bfs.
Qed.

Lemma GetByteSize_size_witness :
  GetByteSize 5 56 5 sample_heap (addr sample_tree) = Ok 224.
Proof.
  apply (GetByteSize_size 5 sample_heap sample_tree 56 5
           sample_tree_at ltac:(vm_compute; lia)).
Defined.

(** *** Deserialize reads the lines that hold a delimiter *)

Lemma stream_lines_split s line rest :
  split_line s = (line, rest) →
  stream_lines s = line :: from_option stream_lines [] rest.
Proof.
  revert line rest. induction s as [|c s IH]; simpl; intros line rest.
  - by intros [= <- <-].
  - destruct (Ascii.eqb c newline); [by intros [= <- <-]|].
    destruct (split_line s) as [l r]. intros [= <- <-].
    by rewrite (IH l r eq_refl).
Qed.

Lemma length_stream_lines s : (0 < length (stream_lines s))%nat.
Proof.
  destruct (split_line s) as [line rest] eqn:Hs.
  rewrite (stream_lines_split _ _ _ Hs). simpl. lia.
Qed.

Section DeserializeLines.
Variable N : Z.
Variable valueDeserializer : string → res Z.

Lemma decode_lines_done lines st :
  pending st = [] → decode_lines N valueDeserializer lines st = Ok st.
Proof. intros Hpen. destruct lines; simpl; [done|by rewrite Hpen]. Qed.

Lemma Deserialize_line_no_colon line st :
  has_colon line = false →
  Deserialize_line N valueDeserializer line st = Ok st.
Proof.
  unfold has_colon, Deserialize_line. by destruct (find colon line).
Qed.

Lemma Deserialize_loop_not_good fuel s st :
  (0 < fuel)%nat →
  Deserialize_loop N valueDeserializer fuel (mkIstream s false) st
  = Ok (mkIstream s false, st).
Proof. destruct fuel; [lia|done]. Qed.

Lemma Deserialize_loop_lines fuel : ∀ text st,
  (length (stream_lines text) < fuel)%nat →
  snd <$> Deserialize_loop N valueDeserializer fuel (mkIstream text true) st
  = decode_lines N valueDeserializer
      (filter (fun line => has_colon line) (stream_lines text)) st.
Proof.
  induction fuel as [|fuel IH]; intros text st Hfuel; [lia|].
  cbn [Deserialize_loop good].
  destruct (pending st) as [|req q] eqn:Hpen.
  { cbn. by rewrite decode_lines_done. }
  cbn [length Nat.eqb negb andb]. unfold getline. cbn [buffer].
  destruct (split_line text) as [line rest] eqn:Hsplit.
  rewrite (stream_lines_split _ _ _ Hsplit) in Hfuel |- *.
  assert (∀ st1,
    snd <$> (let '(curline, stream') :=
               match rest with
               | Some r => (line, mkIstream r true)
               | None => (line, mkIstream "" false)
               end in
             Deserialize_loop N valueDeserializer fuel stream' st1)
    = decode_lines N valueDeserializer
        (filter (fun line => has_colon line)
           (from_option stream_lines [] rest)) st1) as Hrest.
  { intros st1. destruct rest as [r|]; simpl in *.
    - apply IH. lia.
    - rewrite Deserialize_loop_not_good by lia. done. }
  destruct rest as [r|]; cbn [from_option] in *.
  - rewrite filter_cons.
    destruct (String.length line <=? 0)%nat eqn:Hempty.
    + assert (line = EmptyString) as ->.
      { apply Nat.leb_le in Hempty. destruct line; [done|simpl in Hempty; lia]. }
      rewrite decide_False by (vm_compute; tauto). apply (Hrest st).
    + destruct (has_colon line) eqn:Hcolon.
      * rewrite decide_True by (vm_compute; tauto). cbn [decode_lines]. rewrite Hpen.
        destruct (Deserialize_line N valueDeserializer line st) as [st1|e];
          [|done].
        rewrite !bind_Ok. apply (Hrest st1).
      * rewrite decide_False by (vm_compute; tauto).
        rewrite Deserialize_line_no_colon, bind_Ok by done. apply (Hrest st).
  - rewrite filter_cons.
    destruct (String.length line <=? 0)%nat eqn:Hempty.
    + assert (line = EmptyString) as ->.
      { apply Nat.leb_le in Hempty. destruct line; [done|simpl in Hempty; lia]. }
      rewrite decide_False by (vm_compute; tauto). apply (Hrest st).
    + destruct (has_colon line) eqn:Hcolon.
      * rewrite decide_True by (vm_compute; tauto). cbn [decode_lines]. rewrite Hpen.
        destruct (Deserialize_line N valueDeserializer line st) as [st1|e];
          [|done].
        rewrite !bind_Ok. apply (Hrest st1).
      * rewrite decide_False by (vm_compute; tauto).
        rewrite Deserialize_line_no_colon, bind_Ok by done. apply (Hrest st).
Qed.
End DeserializeLines.

(** X3. What [Deserialize] builds depends only on the lines of the stream
    that hold a [':'], in their order: two streams with the same such
    lines give the same store, the same tree and the same queue, or the
    same fault.  Empty lines, lines without a delimiter (the [...] marker
    of a depth-limited output) and a missing last newline change
    nothing. *)
Theorem Deserialize_record_lines_only (N : Z)
    (valueDeserializer : string → res Z) (text1 text2 : string)
    (fuel1 fuel2 : nat) (h : heap) (var : ptr) :
  filter (fun line => has_colon line) (stream_lines text1)
    = filter (fun line => has_colon line) (stream_lines text2) →
  (length (stream_lines text1) < fuel1)%nat →
  (length (stream_lines text2) < fuel2)%nat →
  snd <$> Deserialize N valueDeserializer fuel1 (mkIstream text1 true) h var
  = snd <$> Deserialize N valueDeserializer fuel2 (mkIstream text2 true) h var.
Proof.
  intros Hlines Hfuel1 Hfuel2. unfold Deserialize.
  rewrite !Deserialize_loop_lines by done. by rewrite Hlines.
Qed.

Lemma Deserialize_record_lines_only_witness :
  snd <$> Deserialize 5 stoi 8
            (mkIstream (unlines ["2:10"; ""; "1:-7"; "..."; "0:3"] +:+ "0:4") true)
            empty_heap nullptr
  = snd <$> Deserialize 5 stoi 6 (mkIstream sample_text true) empty_heap nullptr.
Proof.
  apply (Deserialize_record_lines_only 5 stoi
           (unlines ["2:10"; ""; "1:-7"; "..."; "0:3"] +:+ "0:4") sample_text 8 6
           empty_heap nullptr);
    [vm_compute; reflexivity|vm_compute; lia|vm_compute; lia].
Defined.

(** *** Deserialize stops after the last record of the tree *)

Section DecodeRest.
Variable N : Z.
Variable b : ptr.
Variable valueDeserializer : string → res Z.
Hypothesis reads_back : ∀ z, is_int z → valueDeserializer (print_int z) = Ok z.

(** From a state that has built [rs1], reading the lines of [rs2], which
    complete the tree, builds [rs1 ++ rs2] and leaves what follows them
    in the stream. *)
Lemma Deserialize_loop_encode_rest rest : ∀ rs2 rs1 fuel st,
  built_heap N b rs1 (bheap st) (result st) →
  built_queue b rs1 (pending st) →
  Forall (fun r => r.1 ≤ N) rs1 →
  Forall (fun r => (is_uint16 r.1 ∧ r.1 ≤ N) ∧ is_int r.2) rs2 →
  (∀ j, (j < length (rs1 ++ rs2))%nat →
        Z.of_nat j < first_child (rs1 ++ rs2).*1 j) →
  first_child (rs1 ++ rs2).*1 (length (rs1 ++ rs2)) = created (rs1 ++ rs2) →
  (length rs2 < fuel)%nat →
  ∃ st',
    Deserialize_loop N valueDeserializer fuel
      (mkIstream (encode rs2 +:+ rest) true) st
      = Ok (mkIstream rest true, st') ∧
    built_heap N b (rs1 ++ rs2) (bheap st') (result st') ∧
    pending st' = [].
Proof.
  induction rs2 as [|[c v] rs2 IH];
    intros rs1 fuel st Hh Hq Hcap Hwf Hfed Hcomplete Hfuel.
  - rewrite app_nil_r in *. destruct fuel as [|fuel]; [simpl in Hfuel; lia|].
    assert (pending st = []) as Hpen.
    { destruct Hq as [Hlen _]. rewrite Hcomplete in Hlen.
      destruct (pending st); [done|simpl in Hlen; lia]. }
    exists st. cbn [Deserialize_loop good]. rewrite Hpen. by cbn.
  - destruct fuel as [|fuel]; [simpl in Hfuel; lia|].
    apply Forall_cons in Hwf as [[[Hc HcN] Hv] Hwf]. simpl in Hc, HcN, Hv.
    assert (pending st ≠ []) as Hne.
    { intros Hnil. destruct Hq as [Hlen _]. rewrite Hnil in Hlen.
      specialize (Hfed (length rs1)). rewrite length_app in Hfed.
      simpl in Hfed. specialize (Hfed ltac:(lia)).
      rewrite first_child_prefix in Hfed by lia.
      unfold created in Hlen. simpl in Hlen. lia. }
    destruct (pending st) as [|req q] eqn:Hpen; [done|].
    destruct (create_leaf_progress N b rs1 (bheap st) (result st) req q v Hh Hq Hcap)
      as [[[leaf h] var] Hcreate].
    destruct (built_step N b rs1 (bheap st) (result st) req q c v leaf h var
                Hh Hq Hc Hcreate) as (-> & Hh' & Hq').
    destruct (IH (rs1 ++ [(c, v)]) fuel
                (mkBuild h var (q ++ child_requests (b + created rs1) c)))
      as (st' & Hrun & Hh'' & Hdone); try done.
    + apply Forall_app. split; [done|]. by apply Forall_singleton.
    + by rewrite <- app_assoc.
    + by rewrite <- app_assoc.
    + simpl in Hfuel. lia.
    + exists st'. rewrite <- app_assoc in Hh''.
      split; [|done].
      cbn [Deserialize_loop good encode foldr]. rewrite Hpen.
      cbn [length Nat.eqb negb andb fst snd].
      fold (encode rs2). rewrite string_app_assoc.
      rewrite getline_record, record_nonempty.
      erewrite Deserialize_line_record; [| |exact Hpen|exact Hcreate].
      * rewrite bind_Ok. exact Hrun.
      * by apply line_record_print.
Qed.
End DecodeRest.

(** X4. [Deserialize] stops after the last record of the tree: on the
    output of [Serialize] followed by any further text it rebuilds the
    tree (same breadth-first records) and leaves the stream good, with
    exactly that further text unread and its queue empty.  So trees
    written one after the other are read back by successive calls. *)
Theorem Deserialize_leaves_rest (N : Z) (valueDeserializer : string → res Z)
    (h : heap) (t : tree) (rest : string) (h0 : heap) (var0 : ptr)
    (fuel : nat) :
  (∀ z, is_int z → valueDeserializer (print_int z) = Ok z) →
  tree_at N h t → 0 < next h0 → (size t < fuel)%nat →
  ∃ text st',
    Serialize N fuel h (addr t) "" (to_uint16 (-1)) false = Ok text ∧
    Deserialize N valueDeserializer fuel (mkIstream (text +:+ rest) true) h0 var0
      = Ok (mkIstream rest true, st') ∧
    pending st' = [] ∧
    Walk N fuel (bheap st') (result st')
      (always_false (record_node (bheap st'))) true []
      = Ok (tree_record <$> bfs t).
Proof.
  intros Hvd Ht Hh0 Hfuel.
  set (rs := tree_record <$> bfs t).
  assert (0 ≤ N) as HN.
  { destruct t as [a l ks]. apply tree_at_inv in Ht as (_ & Hwf & _).
    destruct Hwf as (_ & _ & _ & _ & Hlen). lia. }
  assert (length rs = size t) as Hlen
    by (unfold rs; by rewrite length_fmap, length_bfs).
  destruct (bfs_records_balanced N h t Ht) as [Hfed Hcomplete].
  fold rs in Hfed, Hcomplete.
  pose proof (bfs_records_wf N h t Ht) as Hwf. fold rs in Hwf.
  destruct (built_initial N (next h0) h0 var0 HN Hh0 eq_refl) as [Hb0 Hq0].
  destruct (Deserialize_loop_encode_rest N (next h0) valueDeserializer Hvd rest
              rs [] fuel (mkBuild h0 var0 [mkData VarSlot nullptr 0]))
    as (st' & Hrun & Hbuilt & Hdone); try done; [lia|].
  simpl in Hbuilt.
  assert (0 < created rs) as Hpos.
  { unfold created. rewrite Hlen. destruct t; simpl; lia. }
  assert (result st' = next h0) as Hres
    by (by apply (built_result _ _ _ _ _ Hbuilt)).
  exists (encode rs), st'.
  split; [|split; [exact Hrun|split; [exact Hdone|]]].
  { change (to_uint16 (-1)) with 65535.
    rewrite (Serialize_encode N) by (done || lia). done. }
  rewrite Hres, (Walk_built N (next h0) rs (bheap st') (result st') Hbuilt)
    by (done || unfold created; lia).
  rewrite run_walker_always_false, foldl_record_node.
  by rewrite (built_records N _ _ _ _ Hbuilt Hcomplete).
Qed.

Lemma Deserialize_leaves_rest_witness :
  ∃ text st',
    Serialize 5 5 sample_heap 1 "" (to_uint16 (-1)) false = Ok text ∧
    Deserialize 5 stoi 5 (mkIstream (text +:+ "0:99") true) empty_heap nullptr
      = Ok (mkIstream "0:99" true, st') ∧
    pending st' = [] ∧
    Walk 5 5 (bheap st') (result st')
      (always_false (record_node (bheap st'))) true []
      = Ok [(2, 10); (1, -7); (0, 3); (0, 4)].
Proof.
  apply (Deserialize_leaves_rest 5 stoi sample_heap sample_tree "0:99"
           empty_heap nullptr 5 stoi_print_int sample_tree_at
           ltac:(vm_compute; reflexivity) ltac:(vm_compute; lia)).
Defined.

(** ** What the builders build is a well-formed tree *)

Lemma exists_list {A} (P : nat → A → Prop) (k : nat) :
  (∀ i, (i < k)%nat → ∃ x, P i x) →
  ∃ l, length l = k ∧ ∀ i x, l !! i = Some x → P i x.
Proof.
  induction k as [|k IH]; intros HP.
  - exists []. split; [done|]. intros i x Hi. done.
  - destruct IH as (l & Hlen & Hl); [intros i Hi; apply HP; lia|].
    destruct (HP k ltac:(lia)) as [x Hx].
    exists (l ++ [x]). split; [rewrite length_app; simpl; lia|].
    intros i y [Hi|[Hge Hi]]%lookup_app_Some; [by apply Hl|].
    rewrite Hlen in Hge, Hi.
    destruct (i - k)%nat as [|n] eqn:Hik; [|done].
    injection Hi as <-. by replace i with k by lia.
Qed.

Section BuiltTree.
Variable N : Z.
Variable b : ptr.
Variable rs : list (Z * Z).
Variable h : heap.
Variable var : ptr.
Hypothesis Hbuilt : built_heap N b rs h var.
Hypothesis Hvalues : Forall (fun r => is_int r.2) rs.

Lemma built_wf_leaf j c v l :
  rs !! j = Some (c, v) → cells h !! (b + Z.of_nat j) = Some l →
  wf_leaf N l.
Proof.
  intros Hj Hl.
  pose proof Hbuilt as [_ _ Hcounts _ _ Hroot _ Hnodes Hlinks].
  destruct (Hnodes _ _ _ Hj) as (l' & Hl' & Hv & Hd & Hlen & Hamt & _).
  assert (l' = l) as -> by congruence.
  pose proof (lookup_lt_Some _ _ _ Hj) as Hlt.
  assert (is_uint16 c) as Hc.
  { rewrite Forall_forall in Hcounts.
    apply (Hcounts (c, v)). by eapply list_elem_of_lookup_2. }
  split; [|split; [done|split; [|split; [|done]]]].
  - rewrite Hv. rewrite Forall_forall in Hvalues.
    apply (Hvalues (c, v)). by eapply list_elem_of_lookup_2.
  - destruct (decide (j = 0)%nat) as [->|Hj0].
    + destruct Hroot as (l0 & Hl0 & _ & Hi); [unfold created; lia|].
      rewrite Z.add_0_r in Hl. assert (l0 = l) as -> by congruence.
      rewrite Hi. unfold is_uint16, UINT16_MOD. lia.
    + destruct (parent_exists N b rs h var j Hbuilt)
        as (p & cp & vp & t & Hp & Ht & Hfc & _); [lia|].
      destruct (Hlinks p cp vp t Hp Ht) as (_ & lc & _ & Hlc & Hi & _).
      { unfold created. lia. }
      replace (b + first_child rs.*1 p + t) with (b + Z.of_nat j) in Hlc
        by lia.
      assert (lc = l) as -> by congruence.
      assert (is_uint16 cp) as Hcp.
      { rewrite Forall_forall in Hcounts.
        apply (Hcounts (cp, vp)). by eapply list_elem_of_lookup_2. }
      unfold is_uint16 in *. lia.
  - rewrite Hamt. unfold clamp, is_uint16 in *. lia.
Qed.

(** Every created node is the root of a well-formed tree. *)
Lemma built_subtree (d : nat) : ∀ j,
  (length rs - j = d)%nat → (j < length rs)%nat →
  ∃ t, tree_at N h t ∧ addr t = b + Z.of_nat j.
Proof.
  induction d as [d IH] using lt_wf_ind. intros j Hd Hlt.
  pose proof Hbuilt as [_ _ Hcounts _ _ _ Hfed Hnodes _].
  destruct (lookup_lt_is_Some_2 rs j Hlt) as [[c v] Hj].
  destruct (Hnodes _ _ _ Hj) as (l & Hl & _ & _ & Hlen & Hamt & Hch).
  pose proof (Hfed j Hlt) as Hfedj.
  assert (0 ≤ mChildrenAmount l ∧
          first_child rs.*1 j + mChildrenAmount l ≤ created rs ∨
          mChildrenAmount l = 0) as Hrange.
  { rewrite Hamt. unfold clamp. lia. }
  destruct (exists_list
              (fun i x => tree_at N h x ∧
                 addr x = b + first_child rs.*1 j + Z.of_nat i)
              (Z.to_nat (mChildrenAmount l))) as (ks & Hks & Hall).
  { intros i Hi.
    set (m := Z.to_nat (first_child rs.*1 j + Z.of_nat i)).
    destruct (IH (length rs - m)%nat) with (j := m) as (x & Hx & Hax).
    - unfold created in Hrange. lia.
    - done.
    - unfold created in Hrange. lia.
    - exists x. split; [done|]. rewrite Hax. unfold m. lia. }
  exists (Tree (b + Z.of_nat j) l ks). split; [|done].
  apply tree_at_Tree.
  - done.
  - by eapply built_wf_leaf.
  - rewrite Hks. rewrite Hamt. unfold clamp. lia.
  - apply list_eq. intros i. rewrite list_lookup_fmap.
    destruct (decide (i < length ks)%nat) as [Hi|Hi].
    + rewrite lookup_take_lt by done.
      destruct (lookup_lt_is_Some_2 ks i Hi) as [x Hx].
      rewrite Hx. simpl. destruct (Hall i x Hx) as [_ ->].
      rewrite <- (Hch (Z.of_nat i)) by lia. by rewrite Nat2Z.id.
    + rewrite lookup_take_ge by lia.
      by rewrite lookup_ge_None_2 by lia.
  - apply Forall_lookup. intros i x Hx. by destruct (Hall i x Hx).
Qed.

(** What was built is a tree, and its breadth-first order is the order
    of creation. *)
Lemma built_tree :
  0 < created rs →
  ∃ t, tree_at N h t ∧ addr t = b ∧ addr <$> bfs t = seqZ b (created rs).
Proof.
  intros Hpos.
  destruct (built_subtree (length rs) 0) as (t & Ht & Ha);
    [lia|unfold created in Hpos; lia|].
  rewrite Z.add_0_r in Ha.
  exists t. split; [done|]. split; [done|].
  set (fuel := S (max (size t) (length rs))).
  pose proof (Walk_bfs N h t (always_false record_visit) fuel []
                Ht ltac:(unfold fuel; lia)) as H1.
  pose proof (Walk_built N b rs h var Hbuilt (always_false record_visit)
                fuel [] Hpos ltac:(unfold fuel, created; lia)) as H2.
  rewrite Ha, H2, !run_walker_always_false, !foldl_record_visit in H1.
  by injection H1 as ->.
Qed.
End BuiltTree.

Lemma line_record_value valueDeserializer line r :
  line_record valueDeserializer line = Some r →
  is_uint16 r.1 ∧ ∃ s, valueDeserializer s = Ok r.2.
Proof.
  unfold line_record. destruct (find colon line) as [pos|]; [|done].
  destruct (valueDeserializer (substring 0 pos line)) as [amount|]; [|done].
  destruct (valueDeserializer _) as [value|] eqn:Hv; [|done].
  intros [= <-]. split; [apply to_uint16_range|]. eauto.
Qed.

(** X5. A run of [Deserialize] that comes to its end without an exception
    of the value deserializer and without a store into a child slot with
    an index of [N] or more (such a store, which the source does not
    guard against, is the fault [OutOfBounds] of the model, and undefined
    in C++) and that has created a node: the store holds a well-formed
    tree under the pointer stored through [output], and the breadth-first
    order of that tree is the order in which the nodes were created.
    Every count in the tree is the number of children attached, also
    where the stream ended before the children a record announced.
    Nothing else is asked of the stream. *)
Theorem Deserialize_builds_tree (N : Z) (valueDeserializer : string → res Z)
    (stream stream' : istream) (h : heap) (var : ptr) (st' : build_state)
    (fuel : nat) :
  0 ≤ N → 0 < next h →
  (∀ s z, valueDeserializer s = Ok z → is_int z) →
  Deserialize N valueDeserializer fuel stream h var = Ok (stream', st') →
  next h < next (bheap st') →
  ∃ t, tree_at N (bheap st') t ∧ addr t = result st' ∧
       addr <$> bfs t = seqZ (next h) (next (bheap st') - next h).
Proof.
  intros HN Hh Hint Hrun Hnew.
  destruct (built_initial N (next h) h var HN Hh eq_refl) as [Hb0 Hq0].
  destruct (Deserialize_loop_built N (next h) valueDeserializer fuel stream
              (mkBuild h var [mkData VarSlot nullptr 0]) [] stream' st'
              Hb0 Hq0 Hrun) as (rs & Hbuilt & _ & _ & Hlines).
  simpl in Hbuilt.
  pose proof (built_next _ _ _ _ _ Hbuilt) as Hnext.
  assert (0 < created rs) as Hpos by lia.
  assert (Forall (fun r => is_int r.2) rs) as Hvalues.
  { eapply Forall_impl; [exact Hlines|]. intros r (line & _ & Hr).
    apply line_record_value in Hr as (_ & s & Hs). by eapply Hint. }
  destruct (built_tree N (next h) rs (bheap st') (result st') Hbuilt Hvalues Hpos)
    as (t & Ht & Ha & Hbfs).
  exists t. split; [done|].
  split; [by rewrite (built_result _ _ _ _ _ Hbuilt Hpos)|].
  rewrite Hbfs. f_equal. lia.
Qed.

Lemma stoi_is_int s z : stoi s = Ok z → is_int z.
Proof.
  unfold stoi.
  destruct (match skip_space s with
            | String "-" r => (true, r)
            | String "+" r => (false, r)
            | _ => (false, skip_space s)
            end) as [negative s2].
  destruct s2 as [|c s2]; [done|]. destruct (digit_val c); [|done].
  cbv zeta.
  destruct ((INT_MIN <=? _) && (_ <=? INT_MAX)) eqn:Hrange; [|done].
  intros [= <-]. apply andb_true_iff in Hrange as [H1 H2].
  apply Z.leb_le in H1, H2. done.
Qed.

Lemma Deserialize_builds_tree_witness :
  ∃ t, tree_at 5 sample_heap t ∧ addr t = 1 ∧
       addr <$> bfs t = seqZ 1 (5 - 1).
Proof.
  apply (Deserialize_builds_tree 5 stoi (mkIstream sample_text true)
           (mkIstream "" true) empty_heap nullptr (mkBuild sample_heap 1 []) 6
           ltac:(lia) ltac:(vm_compute; reflexivity) stoi_is_int sample_decoded
           ltac:(vm_compute; reflexivity)).
Defined.

(** *** Streams on which Deserialize returns *)

Section Returns.
Variable N : Z.
Variable b : ptr.
Variable valueDeserializer : string → res Z.

Lemma decode_lines_built lines : ∀ rs st,
  built_heap N b rs (bheap st) (result st) →
  built_queue b rs (pending st) →
  Forall (fun r => r.1 ≤ N) rs →
  Forall (fun line => ∃ c v,
            line_record valueDeserializer line = Some (c, v) ∧ c ≤ N) lines →
  ∃ st', decode_lines N valueDeserializer lines st = Ok st'.
Proof.
  induction lines as [|line lines IH]; intros rs st Hh Hq Hcap Hlines.
  - by exists st.
  - apply Forall_cons in Hlines as [(c & v & Hrec & HcN) Hlines].
    cbn [decode_lines]. destruct (pending st) as [|req q] eqn:Hpen; [eauto|].
    destruct (create_leaf_progress N b rs (bheap st) (result st) req q v
                Hh Hq Hcap) as [[[leaf h] var] Hcreate].
    destruct (line_record_value _ _ _ Hrec) as [Hc _]. simpl in Hc.
    destruct (built_step N b rs (bheap st) (result st) req q c v leaf h var
                Hh Hq Hc Hcreate) as (-> & Hh' & Hq').
    rewrite (Deserialize_line_record N valueDeserializer line st c v req q
               (b + created rs) h var Hrec Hpen Hcreate), bind_Ok.
    apply (IH (rs ++ [(c, v)])); try done.
    apply Forall_app. split; [done|]. by apply Forall_singleton.
Qed.
End Returns.

(** X6. [Deserialize] returns, without a fault, on every stream in which
    each line that holds a [':'] has two fields the value deserializer
    accepts, the first of them at most [N] as a 16-bit count: whether the
    stream describes a whole tree, stops short of it, or goes on after
    it. *)
Theorem Deserialize_returns (N : Z) (valueDeserializer : string → res Z)
    (text : string) (h : heap) (var : ptr) (fuel : nat) :
  0 ≤ N → 0 < next h →
  Forall (fun line => ∃ c v,
            line_record valueDeserializer line = Some (c, v) ∧ c ≤ N)
    (filter (fun line => has_colon line) (stream_lines text)) →
  (length (stream_lines text) < fuel)%nat →
  ∃ stream' st',
    Deserialize N valueDeserializer fuel (mkIstream text true) h var
    = Ok (stream', st').
Proof.
  intros HN Hh Hlines Hfuel.
  destruct (built_initial N (next h) h var HN Hh eq_refl) as [Hb0 Hq0].
  destruct (decode_lines_built N (next h) valueDeserializer _ []
              (mkBuild h var [mkData VarSlot nullptr 0]) Hb0 Hq0
              ltac:(constructor) Hlines) as [st' Hst'].
  pose proof (Deserialize_loop_lines N valueDeserializer fuel text
                (mkBuild h var [mkData VarSlot nullptr 0]) Hfuel) as Hrun.
  rewrite Hst' in Hrun. unfold Deserialize.
  destruct (Deserialize_loop N valueDeserializer fuel (mkIstream text true) _)
    as [[stream' st'']|e]; [|done].
  by exists stream', st''.
Qed.

Lemma Deserialize_returns_witness :
  ∃ stream' st',
    Deserialize 5 stoi 5 (mkIstream (unlines ["3:1"; "..."; "0:2"]) true)
      empty_heap nullptr
    = Ok (stream', st').
Proof.
  apply (Deserialize_returns 5 stoi (unlines ["3:1"; "..."; "0:2"])
           empty_heap nullptr 5 ltac:(lia) ltac:(vm_compute; reflexivity)).
  - assert (filter (fun line => has_colon line)
              (stream_lines (unlines ["3:1"; "..."; "0:2"]))
            = ["3:1"; "0:2"]) as -> by (vm_compute; reflexivity).
    apply Forall_cons_2; [exists 3, 1; split; [vm_compute; reflexivity|lia]|].
    apply Forall_cons_2; [exists 0, 2; split; [vm_compute; reflexivity|lia]|].
    apply Forall_nil_2.
  - vm_compute. lia.
Defined.

(** ** Generated trees: shape, values and depth *)

(** The invariant of the generator with the values it draws. *)
Lemma GenerateTree_loop_values b rand maxLeaves fuel : ∀ calls rs st,
  built_heap 5 b rs (bheap st) (result st) →
  built_queue b rs (pending st) →
  Forall (fun r => 2 ≤ r.1 ≤ 5) rs →
  pending st ≠ [] →
  maxLeaves - created rs ≤ Z.of_nat fuel → (0 < fuel)%nat →
  ∃ st' rs' v,
    GenerateTree_loop fuel rand maxLeaves calls (created rs) st = Ok st' ∧
    built_heap 5 b (rs ++ rs' ++ [(0, v)]) (bheap st') (result st') ∧
    Forall (fun r => 2 ≤ r.1 ≤ 5) rs' ∧
    Forall (fun r => 0 ≤ r.2 ≤ 254) (rs' ++ [(0, v)]) ∧
    created (rs ++ rs' ++ [(0, v)]) = Z.max (created rs + 1) maxLeaves.
Proof.
  induction fuel as [|fuel IH]; intros calls rs st Hh Hq Hcs Hne Hfuel Hpos; [lia|].
  simpl. destruct (pending st) as [|req q] eqn:Hpen; [done|]. clear Hne.
  set (leafValue := Z.of_nat (rand calls) `mod` 255).
  assert (0 ≤ leafValue ≤ 254) as Hvalue.
  { unfold leafValue. pose proof (Z.mod_pos_bound (Z.of_nat (rand calls)) 255). lia. }
  assert (Forall (fun r => r.1 ≤ 5) rs) as Hcap.
  { eapply Forall_impl; [exact Hcs|]. simpl. lia. }
  destruct (create_leaf_progress 5 b rs (bheap st) (result st) req q leafValue
              Hh Hq Hcap) as [[[leaf h] var] Hcreate].
  rewrite Hcreate, bind_Ok.
  destruct (Z.leb_spec maxLeaves (created rs + 1)) as [Hstop|Hmore].
  - exists (mkBuild h var (req :: q)), [], leafValue. split; [done|].
    destruct (built_step 5 b rs (bheap st) (result st) req q 0 leafValue leaf h var Hh Hq)
      as (_ & Hh' & _); [done|exact Hcreate|].
    simpl. split; [done|]. split; [constructor|].
    split; [by apply Forall_singleton|].
    rewrite created_snoc. lia.
  - set (c := 2 + Z.of_nat (rand (S calls)) `mod` 4).
    assert (2 ≤ c ≤ 5) as Hc.
    { unfold c. pose proof (Z.mod_pos_bound (Z.of_nat (rand (S calls))) 4). lia. }
    destruct (built_step 5 b rs (bheap st) (result st) req q c leafValue leaf h var Hh Hq)
      as (-> & Hh' & Hq'); [unfold is_uint16, UINT16_MOD; lia|exact Hcreate|].
    replace (created rs + 1) with (created (rs ++ [(c, leafValue)]))
      by apply created_snoc.
    assert (Forall (fun r => 2 ≤ r.1 ≤ 5) (rs ++ [(c, leafValue)])) as H1.
    { apply Forall_app. split; [done|]. by apply Forall_singleton. }
    assert (q ++ child_requests (b + created rs) c ≠ []) as H2.
    { intros Hnil. apply (f_equal length) in Hnil.
      rewrite length_app, length_child_requests in Hnil. simpl in Hnil. lia. }
    assert (maxLeaves - created (rs ++ [(c, leafValue)]) ≤ Z.of_nat fuel) as H3
      by (rewrite created_snoc; lia).
    assert (0 < fuel)%nat as H4 by (unfold created in *; lia).
    destruct (IH (S (S calls)) (rs ++ [(c, leafValue)])
                (mkBuild h var (q ++ child_requests (b + created rs) c))
                Hh' Hq' H1 H2 H3 H4)
      as (st' & rs' & v & Hrun & Hh'' & Hcs' & Hvs & Hcount).
    exists st', ((c, leafValue) :: rs'), v. rewrite <- app_assoc in Hh'', Hcount.
    split; [done|]. split; [done|]. split; [by constructor|].
    split; [by constructor|].
    simpl in *. rewrite Hcount, created_snoc. lia.
Qed.

Lemma GenerateTree_values rand maxLeaves fuel h :
  0 < next h → maxLeaves ≤ Z.of_nat fuel → (0 < fuel)%nat →
  ∃ st rs v,
    GenerateTree fuel rand maxLeaves h = Ok st ∧
    built_heap 5 (next h) (rs ++ [(0, v)]) (bheap st) (result st) ∧
    Forall (fun r => 2 ≤ r.1 ≤ 5) rs ∧
    Forall (fun r => 0 ≤ r.2 ≤ 254) (rs ++ [(0, v)]) ∧
    created (rs ++ [(0, v)]) = Z.max 1 maxLeaves.
Proof.
  intros Hb Hfuel Hpos.
  destruct (built_initial 5 (next h) h nullptr) as [Hh Hq]; [lia|done|done|].
  destruct (GenerateTree_loop_values (next h) rand maxLeaves fuel 0 []
              (mkBuild h nullptr [mkData VarSlot nullptr 0]))
    as (st & rs & v & Hrun & Hh' & Hcs & Hvs & Hcount); try done.
  - unfold created. simpl. lia.
  - exists st, rs, v. done.
Qed.

(** The nodes of a tree held by what was built are the created nodes. *)
Lemma built_tree_nodes N b rs h var t x :
  built_heap N b rs h var →
  tree_at N h t → addr <$> bfs t = seqZ b (created rs) →
  x ∈ bfs t →
  ∃ j c v, rs !! j = Some (c, v) ∧ addr x = b + Z.of_nat j ∧
           cells h !! (b + Z.of_nat j) = Some (leaf x).
Proof.
  intros Hbuilt Ht Hbfs Hx.
  assert (addr x ∈ seqZ b (created rs)) as Ha.
  { rewrite <- Hbfs. apply list_elem_of_fmap. eauto. }
  apply elem_of_seqZ in Ha.
  destruct (created_address b rs (addr x) Ha) as (j & c & v & Haddr & Hj).
  exists j, c, v. split; [done|]. split; [done|].
  assert (tree_at N h x) as Hxt.
  { assert (Forall (tree_at N h) (bfs t)) as Hall
      by (rewrite bfs_nodes; by apply tree_at_nodes).
    rewrite Forall_forall in Hall. by apply Hall. }
  rewrite <- Haddr. destruct x as [a l ks].
  by apply tree_at_inv in Hxt as (Hl & _).
Qed.

(** X7. For every sequence of random numbers, [GenerateTree] returns a
    well-formed tree of [max(1, maxLeaves)] nodes in which every value
    lies between 0 and 254, and every node lies at a depth [d] with
    [2 ^ d <= max(1, maxLeaves)]: the tree is filled level by level with at
    least two children for a node, so its depth is logarithmic in its
    size. *)
Theorem GenerateTree_builds_tree (rand : nat → nat) (maxLeaves : Z)
    (h : heap) (fuel : nat) :
  0 < next h → maxLeaves ≤ Z.of_nat fuel → (0 < fuel)%nat →
  maxLeaves ≤ INT_MAX →
  ∃ st t,
    GenerateTree fuel rand maxLeaves h = Ok st ∧
    tree_at 5 (bheap st) t ∧ addr t = result st ∧
    Z.of_nat (size t) = Z.max 1 maxLeaves ∧
    Forall (fun x => 0 ≤ mValue (leaf x) ≤ 254 ∧
                     0 ≤ mDepth (leaf x) ∧
                     2 ^ mDepth (leaf x) ≤ Z.max 1 maxLeaves) (bfs t).
Proof.
  intros Hb Hfuel Hpos Hint.
  destruct (GenerateTree_values rand maxLeaves fuel h Hb Hfuel Hpos)
    as (st & rs & v & Hrun & Hbuilt & Hcs & Hvs & Hcount).
  assert (Forall (fun r => is_int r.2) (rs ++ [(0, v)])) as Hvalues.
  { eapply Forall_impl; [exact Hvs|]. intros r Hr. cbv beta in Hr.
    unfold is_int, INT_MIN, INT_MAX. lia. }
  assert (0 < created (rs ++ [(0, v)])) as Hcreated by lia.
  destruct (built_tree 5 (next h) _ (bheap st) (result st) Hbuilt Hvalues Hcreated)
    as (t & Ht & Ha & Hbfs).
  assert (created (rs ++ [(0, v)]) ≤ 2 ^ 31) as Hsize.
  { rewrite Hcount. unfold INT_MAX in Hint. lia. }
  exists st, t. split; [done|]. split; [done|].
  split; [by rewrite (built_result _ _ _ _ _ Hbuilt Hcreated)|].
  split.
  { rewrite <- Hcount, <- length_bfs, <- (length_fmap addr), Hbfs, length_seqZ.
    lia. }
  apply Forall_forall. intros x Hx.
  destruct (built_tree_nodes 5 _ _ _ _ t x Hbuilt Ht Hbfs Hx)
    as (j & c & vx & Hj & Haddr & Hl).
  pose proof (lookup_lt_Some _ _ _ Hj) as Hlt.
  destruct (built_nodes _ _ _ _ _ Hbuilt j c vx Hj) as (l & Hl' & Hv & _).
  assert (l = leaf x) as -> by congruence.
  destruct (generated_depth_bound (next h) rs v (bheap st) (result st)
              Hbuilt Hcs Hsize j Hlt) as (l & Hl'' & Hd0 & Hpow).
  assert (l = leaf x) as -> by congruence.
  split.
  - rewrite Hv. rewrite Forall_forall in Hvs.
    apply (Hvs (c, vx)). by eapply list_elem_of_lookup_2.
  - split; [done|]. rewrite <- Hcount. unfold created. lia.
Qed.

Lemma GenerateTree_builds_tree_witness :
  ∃ st t,
    GenerateTree 6 (fun k => k) 4 empty_heap = Ok st ∧
    tree_at 5 (bheap st) t ∧ addr t = result st ∧
    Z.of_nat (size t) = Z.max 1 4 ∧
    Forall (fun x => 0 ≤ mValue (leaf x) ≤ 254 ∧
                     0 ≤ mDepth (leaf x) ∧
                     2 ^ mDepth (leaf x) ≤ Z.max 1 4) (bfs t).
Proof.
  apply (GenerateTree_builds_tree (fun k => k) 4 empty_heap 6
           ltac:(vm_compute; reflexivity) ltac:(lia) ltac:(lia)
           ltac:(vm_compute; congruence)).
Defined.

(** ** The output with tabs is not an input *)

Lemma print_digits_app fuel s : ∀ n acc,
  print_digits fuel n acc +:+ s = print_digits fuel n (acc +:+ s).
Proof.
  induction fuel as [|fuel IH]; intros n acc; cbn [print_digits]; [done|].
  destruct (n <? 10); [done|]. by rewrite IH.
Qed.

Lemma stoi_space_digits d r :
  0 ≤ d < 10 →
  stoi (String " " (String (digit_char d) r)) = stoi (String (digit_char d) r).
Proof.
  intros Hd. assert (d = 0 ∨ d = 1 ∨ d = 2 ∨ d = 3 ∨ d = 4 ∨ d = 5 ∨ d = 6 ∨
                     d = 7 ∨ d = 8 ∨ d = 9) as Hcases by lia.
  destruct Hcases as [->|[->|[->|[->|[->|[->|[->|[->|[->| ->]]]]]]]]];
    reflexivity.
Qed.

(** [std::stoi] skips the blank and stops at the first character that is
    not a digit. *)
Lemma stoi_space_nat c ch rest :
  0 ≤ c ≤ INT_MAX → digit_val ch = None →
  stoi (String " " (print_nat c +:+ String ch rest)) = Ok c.
Proof.
  intros Hc Hch. unfold print_nat. rewrite print_digits_app, app_empty.
  destruct (parse_print_digits (Z.to_nat (Z.log2 c)) c (String ch rest) 0)
    as (k & _ & Hparse); [lia|pose proof (Z.log2_nonneg c); lia|].
  destruct (print_digits_first (Z.to_nat (Z.log2 c)) c (String ch rest))
    as (d & r & Hd & Hr).
  rewrite Hr in *. rewrite stoi_space_digits by done.
  destruct (stoi_digits d r Hd) as [-> _]. cbv zeta. rewrite Hparse.
  cbn [parse_digits]. rewrite Hch.
  replace (0 * 10 ^ k + c) with c by lia.
  replace ((INT_MIN <=? c) && (c <=? INT_MAX)) with true; [done|].
  symmetry. apply andb_true_iff. unfold INT_MIN.
  split; apply Z.leb_le; lia.
Qed.

Lemma pretty_prefix_root l :
  mDepth l = 0 → mChildIndex l = 0 → pretty_prefix l = "0: ".
Proof. unfold pretty_prefix. by intros -> ->. Qed.

Lemma split_line_cons c s :
  Ascii.eqb c newline = false →
  split_line (String c s) = (String c (split_line s).1, (split_line s).2).
Proof. cbn [split_line]. intros ->. by destruct (split_line s). Qed.

Lemma getline_pretty_root c v tail :
  getline (mkIstream
             (String "0" (String ":" (String " " (record_line c v +:+ tail))))
             true)
  = (String "0" (String ":" (String " " (print_int c +:+ ":" +:+ print_int v))),
     mkIstream tail true).
Proof.
  pose proof (getline_record c v tail) as H. unfold getline in *.
  cbn [buffer] in *. rewrite !split_line_cons by reflexivity.
  destruct (split_line (record_line c v +:+ tail)) as [line [rest|]];
    by injection H as <- <-.
Qed.

Lemma Deserialize_pretty_root N c v tail h0 var0 fuel :
  is_uint16 c → (2 ≤ fuel)%nat →
  Deserialize N stoi fuel
    (mkIstream (String "0" (String ":" (String " " (record_line c v +:+ tail))))
       true) h0 var0
  = Ok (mkIstream tail true,
        mkBuild (mkHeap (<[next h0 := fresh_leaf N c]> (cells h0)) (next h0 + 1))
          (next h0) []).
Proof.
  intros Hc Hfuel. destruct fuel as [|[|fuel]]; [lia..|].
  unfold Deserialize. cbn [Deserialize_loop good pending length Nat.eqb negb andb].
  rewrite getline_pretty_root.
  cbn [String.length Nat.leb]. unfold Deserialize_line.
  change (find colon (String "0" (String ":" ?s))) with (Some 1%nat).
  cbn [substring String.length Nat.sub Nat.add].
  change (stoi "0") with (Ok 0). rewrite bind_Ok.
  rewrite substring_all by (cbn [String.length]; lia).
  unfold print_int at 1. unfold is_uint16, UINT16_MOD in Hc.
  replace (c <? 0) with false by (symmetry; apply Z.ltb_ge; lia).
  change (":" +:+ print_int v) with (String ":" (print_int v)).
  rewrite stoi_space_nat by (done || unfold INT_MAX; lia).
  rewrite bind_Ok. cbn [pending bheap result].
  rewrite create_leaf_root, bind_Ok. done.
Qed.

(** X8. The output [Serialize] writes with [pretty] set is not read back
    as the tree: on the output for a tree whose root has depth 0,
    [Deserialize] with [std::stoi] takes the depth printed before the
    first colon for the count and the count for the value, so it builds
    one node without children whose value is the number of children of
    the root, and stops. *)
Theorem pretty_output_read_as_one_node (N : Z) (h : heap) (t : tree)
    (skipDeep : Z) (h0 : heap) (var0 : ptr) (fuel : nat) :
  tree_at N h t → mDepth (leaf t) = 0 → mChildIndex (leaf t) = 0 →
  (size t < fuel)%nat → is_uint16 skipDeep →
  ∃ text stream',
    Serialize N fuel h (addr t) "" skipDeep true = Ok text ∧
    Deserialize N stoi fuel (mkIstream text true) h0 var0
    = Ok (stream',
          mkBuild (mkHeap (<[next h0 := fresh_leaf N (child_count t)]> (cells h0))
                     (next h0 + 1))
            (next h0) []).
Proof.
  intros Ht Hd Hi Hfuel Hs.
  unfold Serialize. rewrite (Walk_bfs N) by done.
  rewrite (run_serialize_walker_serialized N);
    [|rewrite bfs_nodes; by apply tree_at_nodes|done].
  rewrite bfs_unfold, fmap_cons. cbn [serialized].
  unfold serialized_line at 1. rewrite pretty_prefix_root by done.
  eexists _, _. split; [done|].
  rewrite app_empty, string_app_assoc, !app_String, app_empty.
  apply Deserialize_pretty_root.
  - destruct t as [a l ks]. apply tree_at_inv in Ht as (_ & Hwf & _).
    by destruct Hwf as (_ & _ & _ & Hc & _).
  - destruct t; simpl in Hfuel; lia.
Qed.

Lemma pretty_output_read_as_one_node_witness :
  ∃ text stream',
    Serialize 5 5 sample_heap 1 "" 6 true = Ok text ∧
    Deserialize 5 stoi 5 (mkIstream text true) empty_heap nullptr
    = Ok (stream',
          mkBuild (mkHeap (<[1 := fresh_leaf 5 2]> ∅) 2) 1 []).
Proof.
  apply (pretty_output_read_as_one_node 5 sample_heap sample_tree 6
           empty_heap nullptr 5 sample_tree_at eq_refl eq_refl
           ltac:(vm_compute; lia) ltac:(vm_compute; split; congruence)).
Defined.

(** ** Children are counted, not looked up *)

(** X9. [SetNChild] counts its calls and [Walk] reads the first
    [mChildrenAmount] slots: when the first child of a new node is put
    into a slot other than slot 0, the count is 1 and slot 0 is still
    null, so a traversal from that node, once its callback has let it go
    on past the node, follows the null pointer. *)
Theorem SetNChild_sparse_slot_breaks_Walk {St} (N : Z) (h : heap)
    (value index : Z) (child : ptr) (lc : NLeaf)
    (walker : walk_callback_t St) (s s' : St) (fuel : nat) :
  0 < next h → cells h !! nullptr = None →
  cells h !! child = Some lc → child ≠ next h →
  0 < index < N →
  walker (next h) s = Ok (false, s') →
  (2 ≤ fuel)%nat →
  ∃ h2,
    SetNChild N (new_NLeaf N value h).2 (new_NLeaf N value h).1 index child
      = Ok h2 ∧
    GetChildAmount h2 (new_NLeaf N value h).1 = Ok 1 ∧
    GetNChild_const N h2 (new_NLeaf N value h).1 0 = Ok nullptr ∧
    Walk N fuel h2 (new_NLeaf N value h).1 walker true s = Err NullDeref.
Proof.
  intros Hnext Hnull Hchild Hne Hindex Hwalker Hfuel.
  unfold new_NLeaf. cbn [fst snd].
  set (lp := mkNLeaf value 0 0 0 (replicate (Z.to_nat N) nullptr)).
  set (h1 := mkHeap (<[next h := lp]> (cells h)) (next h + 1)).
  assert (cells h1 !! next h = Some lp) as Hp by apply lookup_insert_eq.
  assert (cells h1 !! child = Some lc) as Hc.
  { unfold h1. cbn [cells]. by rewrite lookup_insert_ne. }
  assert (Z.of_nat (length (mChildren lp)) = N) as Hlen.
  { unfold lp. cbn [mChildren]. rewrite length_replicate. lia. }
  rewrite (SetNChild_Ok N h1 (next h) index child lp lc Hp Hc) by (done || lia).
  eexists. split; [done|].
  set (lp' := mkNLeaf (mValue lp) (mDepth lp) (mChildIndex lp)
                (to_uint16 (mChildrenAmount lp + 1))
                (<[Z.to_nat index := child]> (mChildren lp))).
  set (h2 := mkHeap _ _).
  assert (cells h2 !! next h = Some lp') as Hp' by apply lookup_insert_eq.
  assert (cells h2 !! nullptr = None) as Hnull'.
  { unfold h2, h1. cbn [cells]. unfold nullptr in *.
    rewrite !lookup_insert_ne; [done|..]; try lia.
    intros ->. congruence. }
  assert (read_child N lp' 0 = Ok nullptr) as Hslot.
  { apply read_child_lookup; [lia|]. unfold lp', lp. cbn [mChildren].
    rewrite list_lookup_insert_ne by lia.
    apply lookup_replicate. split; [done|lia]. }
  split; [|split].
  - unfold GetChildAmount, load. by rewrite Hp'.
  - unfold GetNChild_const, load. rewrite Hp'. exact Hslot.
  - destruct fuel as [|[|fuel]]; [lia..|].
    unfold Walk. rewrite bind_Ok. cbn [Walk_loop].
    rewrite (load_Some _ _ _ Hp'), bind_Ok.
    assert (pushed_children N lp' = Ok [nullptr]) as ->.
    { unfold pushed_children. apply mapM_Ok.
      change (seqZ 0 (mChildrenAmount lp')) with [0].
      by apply Forall2_cons_2. }
    rewrite bind_Ok, Hwalker, bind_Ok. cbn [app].
    unfold load. by rewrite Hnull'.
Qed.

Lemma SetNChild_sparse_slot_breaks_Walk_witness :
  ∃ h2,
    SetNChild 5 (new_NLeaf 5 8 single_heap).2 (new_NLeaf 5 8 single_heap).1 1 1
      = Ok h2 ∧
    GetChildAmount h2 (new_NLeaf 5 8 single_heap).1 = Ok 1 ∧
    GetNChild_const 5 h2 (new_NLeaf 5 8 single_heap).1 0 = Ok nullptr ∧
    Walk 5 2 h2 (new_NLeaf 5 8 single_heap).1 (always_false record_visit) true []
      = Err NullDeref.
Proof.
  apply (SetNChild_sparse_slot_breaks_Walk 5 single_heap 8 1 1
           (mkNLeaf 7 0 0 0 [0; 0; 0; 0; 0]) (always_false record_visit)
           [] [2] 2);
    try (vm_compute; reflexivity); try (vm_compute; congruence); lia.
Defined.

(** ** Teardown of whole trees *)

Lemma levels_nil n : levels n [] = [].
Proof. induction n as [|n IH]; [done|]. simpl. exact IH. Qed.

Lemma bfs_below_flat t :
  Forall (fun k => kids k = []) (kids t) → bfs_below t = kids t.
Proof.
  intros Hflat. unfold bfs_below. destruct t as [a l ks]. cbn [kids] in *.
  destruct ks as [|k ks]; [apply levels_nil|].
  cbn [height pred]. destruct (max_list_with height (k :: ks)) as [|n] eqn:Hmax.
  { destruct k. simpl in Hmax. lia. }
  cbn [levels].
  assert ((k :: ks) ≫= kids = []) as ->.
  { clear Hmax. induction Hflat as [|x xs Hx _ IH]; [done|].
    change ((x :: xs) ≫= kids) with (kids x ++ (xs ≫= kids)).
    by rewrite Hx, IH. }
  by rewrite levels_nil, app_nil_r.
Qed.

Section Teardown.
Variable N : Z.
Variable h : heap.

Lemma deleter_step fuel leaf released :
  deleter N h fuel leaf released
  = (released' ← destroy N fuel h leaf released;
     Ok (false, released' ++ [leaf])).
Proof. reflexivity. Qed.

Lemma destroy_unfold fuel this released :
  destroy N (S fuel) h this released
  = Walk N fuel h this (deleter N h fuel) false released.
Proof. reflexivity. Qed.

(** A node without children: its destructor gives nothing back. *)
Lemma destroy_leaf t fuel released :
  tree_at N h t → kids t = [] → (2 ≤ fuel)%nat →
  destroy N fuel h (addr t) released = Ok released.
Proof.
  intros Ht Hk Hfuel. destruct fuel as [|[|fuel]]; [lia..|].
  rewrite destroy_unfold. unfold Walk.
  rewrite (tree_at_load N _ _ Ht), bind_Ok.
  rewrite (tree_at_pushed N _ _ Ht), bind_Ok, Hk. done.
Qed.

Lemma run_deleter_leaves fuel order : ∀ released,
  Forall (tree_at N h) order → Forall (fun k => kids k = []) order →
  (2 ≤ fuel)%nat →
  run_walker (deleter N h fuel) (addr <$> order) released
  = Ok (released ++ (addr <$> order)).
Proof.
  induction order as [|k order IH]; intros released Hall Hflat Hfuel.
  - by rewrite app_nil_r.
  - apply Forall_cons in Hall as [Hk Hall].
    apply Forall_cons in Hflat as [Hkk Hflat].
    rewrite fmap_cons. cbn [run_walker].
    rewrite (deleter_step fuel (addr k) released).
    rewrite destroy_leaf, !bind_Ok by done.
    rewrite IH by done. by rewrite <- app_assoc.
Qed.
End Teardown.

(** X10. Teardown of a node whose children have no children: the
    destructor gives back exactly the children, each of them once, in the
    order of their slots. *)
Theorem destructor_releases_children_once (N : Z) (h : heap) (t : tree)
    (fuel : nat) (released : list ptr) :
  tree_at N h t → Forall (fun k => kids k = []) (kids t) →
  (size t + 2 ≤ fuel)%nat →
  destroy N fuel h (addr t) released = Ok (released ++ (addr <$> kids t)).
Proof.
  intros Ht Hflat Hfuel. destruct fuel as [|fuel]; [lia|].
  rewrite destroy_unfold, (Walk_bfs_below N) by (done || lia).
  rewrite bfs_below_flat by done.
  apply run_deleter_leaves; [by eapply tree_at_kids|done|].
  destruct t; simpl in Hfuel; lia.
Qed.

Lemma destructor_releases_children_once_witness :
  destroy 5 4 sample_heap 2 [] = Ok [4].
Proof.
  apply (destructor_releases_children_once 5 sample_heap
           (Tree 2 (mkNLeaf (-7) 1 0 1 [4; 0; 0; 0; 0])
              [Tree 4 (mkNLeaf 4 2 0 0 [0; 0; 0; 0; 0]) []]) 4 []).
  - solve_tree_at.
  - by apply Forall_singleton.
  - vm_compute. lia.
Defined.

(** *** The nodes below a node *)

Lemma nodes_self t : t ∈ nodes t.
Proof. destruct t. simpl. by left. Qed.

Lemma nodes_trans t : ∀ x y, x ∈ nodes t → y ∈ nodes x → y ∈ nodes t.
Proof.
  induction t as [a l ks IH] using tree_ind. intros x y Hx Hy.
  cbn [nodes] in Hx. apply elem_of_cons in Hx as [->|Hx]; [done|].
  apply list_elem_of_bind in Hx as (k & Hxk & Hk).
  cbn [nodes]. right. apply list_elem_of_bind. exists k. split; [|done].
  rewrite Forall_forall in IH. by apply (IH k Hk x y).
Qed.

Lemma nodes_size t : ∀ x, x ∈ nodes t → (size x ≤ size t)%nat.
Proof.
  induction t as [a l ks IH] using tree_ind. intros x Hx.
  cbn [nodes] in Hx. apply elem_of_cons in Hx as [->|Hx]; [done|].
  apply list_elem_of_bind in Hx as (k & Hxk & Hk).
  rewrite Forall_forall in IH. specialize (IH k Hk x Hxk).
  pose proof (sum_list_with_in k size ks Hk). simpl. lia.
Qed.

Lemma bfs_below_elem t x :
  x ∈ bfs_below t ↔ ∃ k, k ∈ kids t ∧ x ∈ nodes k.
Proof.
  rewrite bfs_below_nodes, list_elem_of_bind.
  split; intros (k & H1 & H2); exists k; by split.
Qed.

Lemma bfs_below_size t x : x ∈ bfs_below t → (size x < size t)%nat.
Proof.
  intros (k & Hk & Hx)%bfs_below_elem. apply nodes_size in Hx.
  destruct t as [a l ks]. cbn [kids] in Hk.
  pose proof (sum_list_with_in k size ks Hk). simpl. lia.
Qed.

Lemma bfs_below_trans t x y :
  x ∈ bfs_below t → y ∈ bfs_below x → y ∈ bfs_below t.
Proof.
  intros (k & Hk & Hx)%bfs_below_elem (k' & Hk' & Hy)%bfs_below_elem.
  apply bfs_below_elem. exists k. split; [done|].
  apply (nodes_trans k x y Hx). destruct x as [a l ks]. cbn [kids] in Hk'.
  cbn [nodes]. right. apply list_elem_of_bind. eauto.
Qed.

(** *** Teardown with the storage given back *)

Section TeardownStore.
Variable N : Z.
Variable h : heap.

Section Loop.
Variable walker : store_callback_t (list ptr).
Variable M : nat.
Hypothesis walker_removes : ∀ x h' released,
  tree_at N h x → (size x + 1 < M)%nat → cells h' ⊆ cells h →
  removes x h' (walker (addr x) h' released).

Lemma small_kids x : small_tree N h M x → Forall (small_tree N h M) (kids x).
Proof.
  intros [Hx Hsize]. apply Forall_forall. intros k Hk. split.
  - pose proof (tree_at_kids N h x Hx) as Hall.
    rewrite Forall_forall in Hall. by apply Hall.
  - destruct x as [a l ks]. cbn [kids] in Hk.
    pose proof (sum_list_with_in k size ks Hk). simpl in Hsize. lia.
Qed.

Lemma load_part x h' l :
  tree_at N h x → cells h' ⊆ cells h → cells h' !! addr x = Some l →
  l = leaf x.
Proof.
  intros Hx Hsub Hl. apply (lookup_weaken _ _ _ _ Hl) in Hsub.
  pose proof (tree_at_load N h x Hx) as Hload. unfold load in Hload.
  rewrite Hsub in Hload. by injection Hload.
Qed.

(** A node of the queue that is gone already: the loop reads it. *)
Lemma Walk_store_loop_gone fuel : ∀ q h' released,
  Forall (small_tree N h M) q → cells h' ⊆ cells h →
  (sum_list_with size q < fuel)%nat →
  Exists (fun x => cells h' !! addr x = None) q →
  Walk_store_loop N fuel walker (addr <$> q) h' released = Err NullDeref.
Proof.
  induction fuel as [|fuel IH]; intros q h' released Hq Hsub Hfuel Hgone;
    [lia|].
  destruct q as [|y rest]; [by apply Exists_nil in Hgone|].
  apply Forall_cons in Hq as [Hy Hrest].
  rewrite fmap_cons. cbn [Walk_store_loop]. unfold load.
  destruct (cells h' !! addr y) as [l|] eqn:Hl; [|done].
  cbn [of_option]. rewrite bind_Ok.
  rewrite (load_part y h' l) by (done || apply Hy).
  rewrite (tree_at_pushed N h y) by apply Hy. rewrite bind_Ok.
  destruct (walker_removes y h' released) as [->|(h1 & r1 & -> & Hsub1 & _)];
    [apply Hy..|done|done|].
  rewrite bind_Ok. rewrite <- fmap_app. apply IH.
  - apply Forall_app. split; [done|]. by apply small_kids.
  - by transitivity (cells h').
  - rewrite sum_list_with_app. destruct y as [a ly ks].
    cbn [kids]. simpl in Hfuel. lia.
  - apply Exists_app. left. apply Exists_cons in Hgone as [Hgone|Hgone].
    { congruence. }
    eapply Exists_impl; [exact Hgone|]. intros x Hx.
    by apply (lookup_weaken_None _ _ _ Hx).
Qed.

(** A node of the queue that has a child: the callback removes the
    child, and the loop reads it later. *)
Lemma Walk_store_loop_grandchild fuel : ∀ q h' released,
  Forall (small_tree N h M) q → cells h' ⊆ cells h →
  (sum_list_with size q < fuel)%nat →
  Exists (fun x => kids x ≠ []) q →
  Walk_store_loop N fuel walker (addr <$> q) h' released = Err NullDeref.
Proof.
  induction fuel as [|fuel IH]; intros q h' released Hq Hsub Hfuel Hkid;
    [lia|].
  destruct q as [|y rest]; [by apply Exists_nil in Hkid|].
  apply Forall_cons in Hq as [Hy Hrest].
  rewrite fmap_cons. cbn [Walk_store_loop]. unfold load.
  destruct (cells h' !! addr y) as [l|] eqn:Hl; [|done].
  cbn [of_option]. rewrite bind_Ok.
  rewrite (load_part y h' l) by (done || apply Hy).
  rewrite (tree_at_pushed N h y) by apply Hy. rewrite bind_Ok.
  destruct (walker_removes y h' released)
    as [->|(h1 & r1 & -> & Hsub1 & _ & Hbelow)]; [apply Hy..|done|done|].
  rewrite bind_Ok. rewrite <- fmap_app.
  assert (Forall (small_tree N h M) (rest ++ kids y)) as Hq'.
  { apply Forall_app. split; [done|]. by apply small_kids. }
  assert (cells h1 ⊆ cells h) as Hsub' by (by transitivity (cells h')).
  assert (sum_list_with size (rest ++ kids y) < fuel)%nat as Hfuel'.
  { rewrite sum_list_with_app. destruct y as [a ly ks].
    cbn [kids]. simpl in Hfuel. lia. }
  destruct (kids y) as [|g gs] eqn:Hk.
  - rewrite app_nil_r in *. apply IH; try done.
    apply Exists_cons in Hkid as [Hkid|Hkid]; [done|done].
  - apply Walk_store_loop_gone; try done.
    apply Exists_app. right. apply Exists_cons_hd.
    rewrite Forall_forall in Hbelow. apply Hbelow.
    apply bfs_below_elem. exists g. split; [|apply nodes_self].
    rewrite Hk. by left.
Qed.

(** The loop, when it returns, has removed the nodes it went through. *)
Lemma Walk_store_loop_removes fuel : ∀ q h' released,
  Forall (small_tree N h M) q → cells h' ⊆ cells h →
  (sum_list_with size q < fuel)%nat →
  Walk_store_loop N fuel walker (addr <$> q) h' released = Err NullDeref ∨
  ∃ h'' released',
    Walk_store_loop N fuel walker (addr <$> q) h' released
      = Ok (h'', released') ∧
    cells h'' ⊆ cells h' ∧
    Forall (fun x => cells h'' !! addr x = None) (queue_order fuel q).
Proof.
  induction fuel as [|fuel IH]; intros q h' released Hq Hsub Hfuel; [lia|].
  destruct q as [|y rest].
  { right. exists h', released. split; [done|]. split; [done|constructor]. }
  apply Forall_cons in Hq as [Hy Hrest].
  rewrite fmap_cons. cbn [Walk_store_loop queue_order]. unfold load.
  destruct (cells h' !! addr y) as [l|] eqn:Hl; [|by left].
  cbn [of_option]. rewrite bind_Ok.
  rewrite (load_part y h' l) by (done || apply Hy).
  rewrite (tree_at_pushed N h y) by apply Hy. rewrite bind_Ok.
  destruct (walker_removes y h' released)
    as [->|(h1 & r1 & -> & Hsub1 & Hy1 & _)]; [apply Hy..|done|by left|].
  rewrite bind_Ok. rewrite <- fmap_app.
  destruct (IH (rest ++ kids y) h1 r1)
    as [->|(h2 & r2 & -> & Hsub2 & Hall)].
  - apply Forall_app. split; [done|]. by apply small_kids.
  - by transitivity (cells h').
  - rewrite sum_list_with_app. destruct y as [a ly ks].
    cbn [kids]. simpl in Hfuel. lia.
  - by left.
  - right. exists h2, r2. split; [done|].
    split; [by transitivity (cells h1)|].
    apply Forall_cons. split; [|done].
    by apply (lookup_weaken_None _ _ _ Hy1).
Qed.
End Loop.

(** [delete] on a node of the tree. *)
Lemma delete_NLeaf_removes fuel : ∀ x h' released,
  tree_at N h x → (size x + 1 < fuel)%nat → cells h' ⊆ cells h →
  removes x h' (delete_callback N fuel (addr x) h' released).
Proof.
  induction fuel as [|fuel IH]; intros x h' released Hx Hsize Hsub; [lia|].
  unfold removes, delete_callback. cbn [delete_NLeaf].
  fold (delete_callback N fuel). unfold Walk_store, load.
  destruct (cells h' !! addr x) as [l|] eqn:Hl; [|by left].
  cbn [of_option]. rewrite bind_Ok.
  assert (l = leaf x) as ->.
  { apply (lookup_weaken _ _ _ _ Hl) in Hsub.
    pose proof (tree_at_load N h x Hx) as Hload. unfold load in Hload.
    rewrite Hsub in Hload. by injection Hload. }
  rewrite (tree_at_pushed N h x Hx), bind_Ok.
  destruct (Walk_store_loop_removes (delete_callback N fuel) fuel IH fuel
              (kids x) h' released)
    as [->|(h1 & r1 & -> & Hsub1 & Hall)].
  - apply Forall_forall. intros k Hk. split.
    + pose proof (tree_at_kids N h x Hx) as Hks.
      rewrite Forall_forall in Hks. by apply Hks.
    + destruct x as [a lx ks]. cbn [kids] in Hk.
      pose proof (sum_list_with_in k size ks Hk). simpl in Hsize. lia.
  - done.
  - destruct x as [a lx ks]. cbn [kids]. simpl in Hsize. lia.
  - by left.
  - right. exists (free h1 (addr x)), (r1 ++ [addr x]). split; [done|].
    split; [|split].
    + transitivity (cells h1); [apply delete_subseteq|done].
    + apply lookup_delete_eq.
    + rewrite queue_order_bfs_below in Hall
        by (destruct x; simpl in *; lia).
      eapply Forall_impl; [exact Hall|]. intros y Hy. cbn.
      by apply (lookup_weaken_None _ _ _ Hy), delete_subseteq.
Qed.

Lemma delete_callback_leaf y h' released cb :
  tree_at N h y → kids y = [] → load h' (addr y) = Ok (leaf y) →
  (2 ≤ cb)%nat →
  delete_callback N cb (addr y) h' released
  = Ok (false, free h' (addr y), released ++ [addr y]).
Proof.
  intros Hy Hk Hload Hcb. destruct cb as [|[|cb]]; [lia..|].
  unfold delete_callback. cbn [delete_NLeaf]. unfold Walk_store.
  rewrite Hload, bind_Ok, (tree_at_pushed N h y Hy), bind_Ok, Hk.
  done.
Qed.

(** Children without children at distinct addresses: each is given back
    once, and nothing else is touched. *)
Lemma Walk_store_loop_leaves fuel cb : ∀ q h' released,
  Forall (fun k => tree_at N h k ∧ kids k = []) q →
  NoDup (addr <$> q) →
  (∀ a, a ∈ addr <$> q → cells h' !! a = cells h !! a) →
  (length q < fuel)%nat → (2 ≤ cb)%nat →
  ∃ h'',
    Walk_store_loop N fuel (delete_callback N cb) (addr <$> q) h' released
    = Ok (h'', released ++ (addr <$> q)) ∧
    ∀ a, cells h'' !! a
         = if decide (a ∈ addr <$> q) then None else cells h' !! a.
Proof.
  induction fuel as [|fuel IH]; intros q h' released Hq Hdup Hsame Hfuel Hcb;
    [lia|].
  destruct q as [|y rest].
  { exists h'. rewrite app_nil_r. split; [done|]. intros a.
    rewrite decide_False; [done|]. by intros ?%elem_of_nil. }
  apply Forall_cons in Hq as [[Hy Hk] Hrest].
  rewrite fmap_cons in *. apply NoDup_cons in Hdup as [Hnotin Hdup].
  cbn [Walk_store_loop].
  assert (load h' (addr y) = Ok (leaf y)) as Hload.
  { unfold load. rewrite Hsame by (by left). apply (tree_at_load N h y Hy). }
  rewrite Hload, bind_Ok, (tree_at_pushed N h y Hy), bind_Ok, Hk.
  rewrite (delete_callback_leaf y h' released cb) by done.
  rewrite bind_Ok. cbn [fmap list_fmap]. rewrite app_nil_r.
  destruct (IH rest (free h' (addr y)) (released ++ [addr y]))
    as (h'' & Hrun & Hcells); try done.
  - intros a Ha. unfold free. cbn [cells].
    rewrite lookup_delete_ne by (intros <-; done).
    apply Hsame. by right.
  - simpl in Hfuel. lia.
  - exists h''. split.
    + rewrite Hrun. by rewrite <- app_assoc.
    + intros a. rewrite Hcells. unfold free. cbn [cells].
      destruct (decide (a = addr y)) as [->|Hne].
      * rewrite decide_False by done. rewrite lookup_delete_eq.
        rewrite decide_True; [done|by left].
      * rewrite lookup_delete_ne by done.
        destruct (decide (a ∈ addr <$> rest)) as [Hin|Hout].
        -- rewrite decide_True; [done|by right].
        -- rewrite decide_False; [done|].
           intros [?|?]%elem_of_cons; done.
Qed.
End TeardownStore.

(** X11. The destructor with the storage really given back.  When a child
    of the discarded node has a child of its own, the destructor reads a
    node it has given back: [delete] on the child runs the child's
    destructor, which gives the grandchild back, and the traversal of the
    discarded node, which had queued the grandchild, reads it afterwards
    (ntree.hpp:159).  When no child has a child, and the children lie at
    distinct addresses, the destructor returns, has given back each child
    once, in slot order, and has touched no other node. *)
Theorem destructor_reads_released_node (N : Z) (h : heap) (t : tree)
    (fuel : nat) (released : list ptr) :
  tree_at N h t → (size t < fuel)%nat →
  (Exists (fun k => kids k ≠ []) (kids t) →
   destructor_NLeaf N fuel (addr t) h released = Err NullDeref) ∧
  (Forall (fun k => kids k = []) (kids t) → NoDup (addr <$> kids t) →
   ∃ h',
     destructor_NLeaf N fuel (addr t) h released
     = Ok (h', released ++ (addr <$> kids t)) ∧
     ∀ a, cells h' !! a
          = if decide (a ∈ addr <$> kids t) then None else cells h !! a).
Proof.
  intros Ht Hfuel.
  assert (Forall (tree_at N h) (kids t)) as Hkids by (by eapply tree_at_kids).
  assert (sum_list_with size (kids t) < fuel)%nat as Hsum.
  { destruct t as [a l ks]. cbn [kids]. simpl in Hfuel. lia. }
  unfold destructor_NLeaf, Walk_store.
  rewrite (tree_at_load N h t Ht), bind_Ok, (tree_at_pushed N h t Ht), bind_Ok.
  split.
  - intros Hgrand.
    apply (Walk_store_loop_grandchild N h (delete_callback N fuel) fuel
             (delete_NLeaf_removes N h fuel)); try done.
    apply Forall_forall. intros k Hk. split.
    + rewrite Forall_forall in Hkids. by apply Hkids.
    + destruct t as [a l ks]. cbn [kids] in Hk.
      pose proof (sum_list_with_in k size ks Hk). simpl in Hfuel. lia.
  - intros Hflat Hdup.
    apply (Walk_store_loop_leaves N h fuel fuel); try done.
    + apply Forall_forall. intros k Hk. rewrite Forall_forall in Hkids, Hflat.
      split; [by apply Hkids|by apply Hflat].
    + destruct t as [a l ks]. cbn [kids] in *. simpl in Hfuel.
      assert (length ks ≤ sum_list_with size ks)%nat; [|lia].
      clear. induction ks as [|k ks IH]; simpl; [lia|]. destruct k; simpl; lia.
    + destruct t; simpl in Hfuel; lia.
Qed.

Lemma destructor_reads_released_node_witness :
  destructor_NLeaf 5 4 (addr chain_tree) chain_heap [] = Err NullDeref ∧
  ∃ h',
    destructor_NLeaf 5 4 2 sample_heap [] = Ok (h', [] ++ [4]) ∧
    ∀ a, cells h' !! a
         = if decide (a ∈ [4]) then None else cells sample_heap !! a.
Proof.
  split.
  - apply (destructor_reads_released_node 5 chain_heap chain_tree 4 []
             chain_tree_at ltac:(vm_compute; lia)).
    apply Exists_cons_hd. discriminate.
  - apply (destructor_reads_released_node 5 sample_heap
             (Tree 2 (mkNLeaf (-7) 1 0 1 [4; 0; 0; 0; 0])
                [Tree 4 (mkNLeaf 4 2 0 0 [0; 0; 0; 0; 0]) []]) 4 []).
    + solve_tree_at.
    + vm_compute. lia.
    + by apply Forall_singleton.
    + apply NoDup_singleton.
Defined.

(** ** The program *)

Lemma bfs_single t : kids t = [] → bfs t = [t].
Proof.
  intros Hk. rewrite bfs_unfold. unfold bfs_below. by rewrite Hk, levels_nil.
Qed.

Lemma kids_nonempty_size t : (2 ≤ size t)%nat → kids t ≠ [].
Proof. destruct t as [a l ks]. simpl. intros Hs ->. simpl in Hs. lia. Qed.

(** What [main] does once it has its tree. *)
Section MainTail.
Variable fuel : nat.
Variable env : environment.
Variable h : heap.
Variable t : tree.
Variable cout : string.
Variable output : option string.
Hypothesis Hobtain : main_obtain fuel env = Ok (addr t, h, cout, output).
Hypothesis Ht : tree_at 5 h t.
Hypothesis Hfuel : (size t < fuel)%nat.

Lemma main_before_last_tree :
  ∃ cout',
    main_before_last fuel env
    = Ok (mkMain (addr t) h cout'
            ((fun file => file +:+ encode (tree_record <$> bfs t)) <$> output)
            (foldl max_step (0, nullptr) (bfs t)).1
            (foldl max_step (0, nullptr) (bfs t)).2).
Proof.
  unfold main_before_last. rewrite Hobtain, bind_Ok. cbv beta iota.
  rewrite (GetMaxChildrenSubtree_foldl 5) by done.
  destruct (foldl max_step (0, nullptr) (bfs t)) as [m a]. rewrite bind_Ok.
  cbv beta iota zeta.
  assert (∀ stream skipDeep pretty, is_uint16 skipDeep →
            Serialize 5 fuel h (addr t) stream skipDeep pretty
            = Ok (stream +:+ serialized skipDeep pretty (leaf <$> bfs t)))
    as Hserialize.
  { intros stream skipDeep pretty Hs. unfold Serialize.
    rewrite (Walk_bfs 5) by done.
    apply (run_serialize_walker_serialized 5); [|done].
    rewrite bfs_nodes. by apply tree_at_nodes. }
  assert (∃ bytes, GetByteSize 5 (sizeof_NLeaf env) fuel h (addr t) = Ok bytes)
    as [bytes Hbytes].
  { unfold GetByteSize. rewrite (Walk_bfs 5) by done.
    rewrite (run_walker_never_stops
               (fun (_ : ptr) result =>
                  (result + sizeof_NLeaf env) mod SIZE_MOD)).
    eauto. }
  destruct output as [file|].
  - change (to_uint16 (-1)) with 65535.
    rewrite (Serialize_encode 5) by done. rewrite !bind_Ok. cbv beta iota.
    rewrite Hbytes, bind_Ok.
    rewrite Hserialize, bind_Ok by (unfold is_uint16, UINT16_MOD; lia).
    eexists. reflexivity.
  - rewrite !bind_Ok. cbv beta iota.
    rewrite Hbytes, bind_Ok.
    rewrite Hserialize, bind_Ok by (unfold is_uint16, UINT16_MOD; lia).
    eexists. reflexivity.
Qed.

(** A tree of one node: the search leaves the null pointer, and the last
    statement of [main] calls [Serialize] on it. *)
Lemma main_tail_single :
  kids t = [] → cells h !! nullptr = None →
  (∃ cout',
     main_before_last fuel env
     = Ok (mkMain (addr t) h cout'
             ((fun file => file +:+ record_line 0 (mValue (leaf t))) <$> output)
             0 nullptr)) ∧
  main fuel env = Err NullDeref.
Proof.
  intros Hk Hnull.
  destruct main_before_last_tree as [cout' Hrun].
  assert (child_count t = 0) as Hc.
  { destruct t as [a l ks]. apply tree_at_inv in Ht as (_ & _ & Hn & _).
    cbn [kids] in Hk. subst ks. exact Hn. }
  rewrite (bfs_single _ Hk) in Hrun. cbn [foldl] in Hrun.
  unfold max_step in Hrun. rewrite Hc in Hrun. cbn [fst snd] in Hrun.
  change (0 <? 0) with false in Hrun. cbn [fst snd] in Hrun.
  assert (encode (tree_record <$> [t]) = record_line 0 (mValue (leaf t)))
    as Henc.
  { cbn. unfold tree_record, leaf_record. cbn.
    unfold child_count in Hc. rewrite Hc. by rewrite string_app_nil_r. }
  rewrite Henc in Hrun.
  split; [by exists cout'|].
  unfold main. rewrite Hrun, bind_Ok. cbn [main_heap maxChildrenSubtree
    main_cout].
  unfold Serialize, Walk. rewrite bind_Ok.
  destruct fuel as [|fuel']; [lia|]. cbn [Walk_loop].
  unfold load. by rewrite Hnull.
Qed.

(** A tree of more than one node: [main] returns 0. *)
Lemma main_tail_returns :
  kids t ≠ [] →
  ∃ cout',
    main fuel env
    = Ok (0, cout',
          (fun file => file +:+ encode (tree_record <$> bfs t)) <$> output).
Proof.
  intros Hk.
  destruct main_before_last_tree as [cout' Hrun].
  destruct (foldl_max_step_above (bfs t) (0, nullptr)) as (m & a & Hfold & Hmax).
  { rewrite bfs_unfold. apply Exists_cons_hd. cbn [fst].
    unfold child_count.
    destruct t as [a l ks]. apply tree_at_inv in Ht as (_ & _ & Hn & _).
    cbn [kids leaf] in *. rewrite Hn. destruct ks; [done|simpl; lia]. }
  rewrite Hfold in Hrun. cbn [fst snd] in Hrun.
  destruct Hmax as (pre & x & post & Hbfs & Ha & _).
  assert (x ∈ nodes t) as Hx.
  { rewrite <- bfs_nodes, Hbfs. set_solver. }
  assert (tree_at 5 h x) as Hxt.
  { pose proof (tree_at_nodes 5 h t Ht) as Hall.
    rewrite Forall_forall in Hall. by apply Hall. }
  pose proof (nodes_size t x Hx) as Hsize.
  unfold main. rewrite Hrun, bind_Ok. cbn [main_heap maxChildrenSubtree
    main_cout main_output].
  rewrite <- Ha. unfold Serialize. rewrite (Walk_bfs 5) by (done || lia).
  rewrite (run_serialize_walker_serialized 5), bind_Ok.
  - eexists. reflexivity.
  - rewrite bfs_nodes. by apply tree_at_nodes.
  - unfold is_uint16, UINT16_MOD. lia.
Qed.
End MainTail.

Lemma main_obtain_generate fuel env st :
  ntree_nt env = None →
  GenerateTree fuel (env_rand env) (cin_maxLeaves env) empty_heap = Ok st →
  main_obtain fuel env
  = Ok (result st, bheap st,
        ("Enter max amount of leaves: " +:+ endl)
          +:+ profile_report env "1. Generation took " 0,
        if ntree_nt_writable env then Some EmptyString else None).
Proof. intros Hnone Hrun. unfold main_obtain. by rewrite Hnone, Hrun. Qed.

Lemma main_generates_and_saves_aux (env : environment) (fuel : nat) :
  ntree_nt env = None →
  2 ≤ cin_maxLeaves env ≤ INT_MAX →
  cin_maxLeaves env < Z.of_nat fuel →
  ∃ st t cout,
    GenerateTree fuel (env_rand env) (cin_maxLeaves env) empty_heap = Ok st ∧
    tree_at 5 (bheap st) t ∧ addr t = result st ∧
    Z.of_nat (size t) = cin_maxLeaves env ∧
    main fuel env
    = Ok (0, cout,
          if ntree_nt_writable env
          then Some (encode (tree_record <$> bfs t)) else None).
Proof.
  intros Hnone Hmax Hfuel.
  destruct (GenerateTree_values (env_rand env) (cin_maxLeaves env) fuel
              empty_heap) as (st & rs & v & Hrun & Hbuilt & _ & Hvs & Hcount);
    [done|lia|lia|].
  assert (Forall (fun r => is_int r.2) (rs ++ [(0, v)])) as Hvalues.
  { eapply Forall_impl; [exact Hvs|]. intros r Hr. cbv beta in Hr.
    unfold is_int, INT_MIN, INT_MAX. lia. }
  destruct (built_tree 5 _ _ (bheap st) (result st) Hbuilt Hvalues ltac:(lia))
    as (t & Ht & Ha & Hbfs).
  assert (Z.of_nat (size t) = cin_maxLeaves env) as Hsize.
  { rewrite <- length_bfs, <- (length_fmap addr), Hbfs, length_seqZ. lia. }
  assert (addr t = result st) as Hres
    by (rewrite Ha; symmetry; apply (built_result _ _ _ _ _ Hbuilt); lia).
  pose proof (main_obtain_generate fuel env st Hnone Hrun) as Hobtain.
  rewrite <- Hres in Hobtain.
  destruct (main_tail_returns fuel env (bheap st) t _ _ Hobtain Ht ltac:(lia))
    as [cout Hmain]; [apply kids_nonempty_size; lia|].
  exists st, t, cout. split; [done|]. split; [done|]. split; [done|].
  split; [done|].
  rewrite Hmain. by destruct (ntree_nt_writable env).
Qed.

(** X12. Without a file to load and with at least two nodes asked for,
    [main] generates the tree, returns 0 and, when it can open the file
    for writing, leaves in it the records of the generated tree in
    breadth-first order and nothing else. *)
Theorem main_generates_and_saves (env : environment) (fuel : nat) :
  ntree_nt env = None →
  2 ≤ cin_maxLeaves env ≤ INT_MAX →
  cin_maxLeaves env < Z.of_nat fuel →
  ∃ st t cout,
    GenerateTree fuel (env_rand env) (cin_maxLeaves env) empty_heap = Ok st ∧
    tree_at 5 (bheap st) t ∧ addr t = result st ∧
    main fuel env
    = Ok (0, cout,
          if ntree_nt_writable env
          then Some (encode (tree_record <$> bfs t)) else None).
Proof.
  intros Hnone Hmax Hfuel.
  destruct (main_generates_and_saves_aux env fuel Hnone Hmax Hfuel)
    as (st & t & cout & Hrun & Ht & Ha & _ & Hmain).
  by exists st, t, cout.
Qed.

Lemma main_generates_and_saves_witness :
  ∃ st t cout,
    GenerateTree 5 (fun k => k) 3 empty_heap = Ok st ∧
    tree_at 5 (bheap st) t ∧ addr t = result st ∧
    main 5 (mkEnv None true 3 (fun k => k) (fun _ => 0) (fun _ => 0) 56)
    = Ok (0, cout, Some (encode (tree_record <$> bfs t))).
Proof.
  apply (main_generates_and_saves
           (mkEnv None true 3 (fun k => k) (fun _ => 0) (fun _ => 0) 56) 5
           eq_refl ltac:(vm_compute; split; congruence)
           ltac:(vm_compute; reflexivity)).
Defined.

(** X13. A generating run of [main] that is asked for at least two nodes
    ([2 <= maxLeaves <= INT_MAX]) and can open the file for writing: the
    file it writes is read back by a later run, which builds a tree with
    the same records in breadth-first order, returns 0 and writes no
    file.  (With [maxLeaves <= 1] the generating run ends in the null
    dereference of X14.) *)
Theorem main_reloads_saved_tree (env env' : environment) (fuel : nat) :
  ntree_nt env = None → ntree_nt_writable env = true →
  2 ≤ cin_maxLeaves env ≤ INT_MAX →
  cin_maxLeaves env + 2 ≤ Z.of_nat fuel →
  ∃ st t cout file,
    GenerateTree fuel (env_rand env) (cin_maxLeaves env) empty_heap = Ok st ∧
    tree_at 5 (bheap st) t ∧ addr t = result st ∧
    main fuel env = Ok (0, cout, Some file) ∧
    (ntree_nt env' = Some file →
     ∃ s' cout',
       main_before_last fuel env' = Ok s' ∧
       Walk 5 fuel (main_heap s') (main_tree s')
         (always_false (record_node (main_heap s'))) true []
         = Ok (tree_record <$> bfs t) ∧
       main fuel env' = Ok (0, cout', None)).
Proof.
  intros Hnone Hwritable Hmax Hfuel.
  destruct (main_generates_and_saves_aux env fuel Hnone Hmax ltac:(lia))
    as (st & t & cout & Hrun & Ht & Ha & Hsize & Hmain).
  rewrite Hwritable in Hmain.
  exists st, t, cout, (encode (tree_record <$> bfs t)).
  split; [done|]. split; [done|]. split; [done|]. split; [done|].
  intros Hfile.
  set (rs := tree_record <$> bfs t).
  assert (length rs = size t) as Hlen
    by (unfold rs; by rewrite length_fmap, length_bfs).
  destruct (bfs_records_balanced 5 _ t Ht) as [Hfed Hcomplete].
  fold rs in Hfed, Hcomplete.
  pose proof (bfs_records_wf 5 _ t Ht) as Hwf. fold rs in Hwf.
  set (h1 := (new_NLeaf_default 5 empty_heap).2).
  destruct (built_initial 5 (next h1) h1 1 ltac:(lia) ltac:(done) eq_refl)
    as [Hb0 Hq0].
  destruct (Deserialize_loop_encode 5 (next h1) stoi stoi_print_int rs [] fuel
              (mkBuild h1 1 [mkData VarSlot nullptr 0]))
    as (stream' & st' & Hload & Hbuilt & _); try done; [lia|].
  simpl in Hbuilt.
  assert (0 < created rs) as Hpos by (unfold created; lia).
  assert (Forall (fun r => is_int r.2) rs) as Hvalues.
  { eapply Forall_impl; [exact Hwf|]. by intros r [_ ?]. }
  destruct (built_tree 5 _ rs (bheap st') (result st') Hbuilt Hvalues Hpos)
    as (t' & Ht' & Ha' & Hbfs').
  assert (size t' = size t) as Hsize'.
  { rewrite <- Hlen, <- length_bfs, <- (length_fmap addr), Hbfs', length_seqZ.
    unfold created. lia. }
  assert (result st' = addr t') as Hres'
    by (rewrite Ha'; apply (built_result _ _ _ _ _ Hbuilt); lia).
  assert (main_obtain fuel env'
          = Ok (addr t', bheap st',
                profile_report env'
                  "1. Deserialization (loading from file) took " 0,
                None)) as Hobtain.
  { unfold main_obtain. rewrite Hfile.
    change (new_NLeaf_default 5 empty_heap) with (1, h1).
    cbv beta iota. unfold Deserialize. fold rs. rewrite Hload, bind_Ok.
    by rewrite Hres'. }
  destruct (main_before_last_tree fuel env' (bheap st') t' _ _ Hobtain Ht'
              ltac:(lia)) as [cout1 Hbefore].
  destruct (main_tail_returns fuel env' (bheap st') t' _ _ Hobtain Ht'
              ltac:(lia)) as [cout' Hmain'];
    [apply kids_nonempty_size; lia|].
  eexists _, cout'. split; [exact Hbefore|]. split; [|exact Hmain'].
  cbn [main_heap main_tree]. rewrite Ha'.
  rewrite (Walk_built 5 _ rs (bheap st') (result st') Hbuilt)
    by (done || unfold created; lia).
  rewrite run_walker_always_false, foldl_record_node.
  by rewrite (built_records 5 _ _ _ _ Hbuilt Hcomplete).
Qed.

Lemma main_reloads_saved_tree_witness :
  ∃ st t cout file,
    GenerateTree 5 (fun k => k) 3 empty_heap = Ok st ∧
    tree_at 5 (bheap st) t ∧ addr t = result st ∧
    main 5 (mkEnv None true 3 (fun k => k) (fun _ => 0) (fun _ => 0) 56)
    = Ok (0, cout, Some file) ∧
    (ntree_nt (mkEnv (Some (unlines ["2:0"; "0:2"; "0:4"])) false 0
                 (fun k => k) (fun _ => 0) (fun _ => 0) 56) = Some file →
     ∃ s' cout',
       main_before_last 5
         (mkEnv (Some (unlines ["2:0"; "0:2"; "0:4"])) false 0
            (fun k => k) (fun _ => 0) (fun _ => 0) 56) = Ok s' ∧
       Walk 5 5 (main_heap s') (main_tree s')
         (always_false (record_node (main_heap s'))) true []
         = Ok (tree_record <$> bfs t) ∧
       main 5
         (mkEnv (Some (unlines ["2:0"; "0:2"; "0:4"])) false 0
            (fun k => k) (fun _ => 0) (fun _ => 0) 56)
       = Ok (0, cout', None)).
Proof.
  apply (main_reloads_saved_tree
           (mkEnv None true 3 (fun k => k) (fun _ => 0) (fun _ => 0) 56)
           (mkEnv (Some (unlines ["2:0"; "0:2"; "0:4"])) false 0
              (fun k => k) (fun _ => 0) (fun _ => 0) 56) 5
           eq_refl eq_refl ltac:(vm_compute; split; congruence)
           ltac:(vm_compute; congruence)).
Defined.

(** *** A tree of one node *)

Lemma single_node_tree_at value h :
  is_int value →
  tree_at 5 (mkHeap (<[next h := mkNLeaf value 0 0 0 (replicate 5 nullptr)]>
                       (cells h)) (next h + 1))
    (Tree (next h) (mkNLeaf value 0 0 0 (replicate 5 nullptr)) []).
Proof.
  intros Hv. apply tree_at_Tree.
  - apply lookup_insert_eq.
  - unfold wf_leaf, is_uint16, UINT16_MOD, is_int, INT_MIN, INT_MAX in *.
    cbn. lia.
  - done.
  - done.
  - constructor.
Qed.

(** X14. Without a file to load and with at most one node asked for,
    [main] generates a tree of one node, the search leaves
    [maxChildrenSubtree] null, and after the file and the tree are
    written the last statement calls [Serialize] through that null
    pointer. *)
Theorem main_generate_single_node_faults (env : environment) (fuel : nat) :
  ntree_nt env = None → cin_maxLeaves env ≤ 1 → (2 ≤ fuel)%nat →
  (∃ h cout,
     main_before_last fuel env
     = Ok (mkMain 1 h cout
             (if ntree_nt_writable env
              then Some (record_line 0 (Z.of_nat (env_rand env 0) mod 255))
              else None)
             0 nullptr)) ∧
  main fuel env = Err NullDeref.
Proof.
  intros Hnone Hmax Hfuel.
  set (v := Z.of_nat (env_rand env 0) mod 255).
  assert (0 ≤ v < 255) as Hv by (apply Z.mod_pos_bound; lia).
  set (h := mkHeap (<[1 := mkNLeaf v 0 0 0 (replicate 5 nullptr)]> ∅) 2).
  set (t := Tree 1 (mkNLeaf v 0 0 0 (replicate 5 nullptr)) []).
  assert (GenerateTree fuel (env_rand env) (cin_maxLeaves env) empty_heap
          = Ok (mkBuild h 1 [mkData VarSlot nullptr 0])) as Hrun.
  { destruct fuel as [|fuel']; [lia|]. unfold GenerateTree.
    cbn [GenerateTree_loop pending bheap result].
    rewrite create_leaf_root, bind_Ok.
    replace (cin_maxLeaves env <=? 0 + 1) with true
      by (symmetry; apply Z.leb_le; lia).
    done. }
  pose proof (main_obtain_generate fuel env _ Hnone Hrun) as Hobtain.
  cbn [result bheap] in Hobtain.
  assert (tree_at 5 h t) as Ht.
  { apply (single_node_tree_at v empty_heap).
    unfold is_int, INT_MIN, INT_MAX. lia. }
  destruct (main_tail_single fuel env h t _ _ Hobtain Ht) as [[cout Hbefore] Hmain].
  - simpl. lia.
  - done.
  - done.
  - split; [|done]. exists h, cout. rewrite Hbefore. cbn [addr leaf mValue].
    by destruct (ntree_nt_writable env).
Qed.

Lemma main_generate_single_node_faults_witness :
  main 2 (mkEnv None true 1 (fun k => k) (fun _ => 0) (fun _ => 0) 56)
  = Err NullDeref.
Proof.
  apply (main_generate_single_node_faults
           (mkEnv None true 1 (fun k => k) (fun _ => 0) (fun _ => 0) 56) 2
           eq_refl ltac:(vm_compute; congruence) ltac:(lia)).
Defined.

(** X15. With a file that holds no line with a [':'] (an empty file, say),
    [Deserialize] creates nothing, [tree] stays the node [new NTree()]
    made, the search leaves [maxChildrenSubtree] null, no file is written,
    and the last statement of [main] calls [Serialize] through the null
    pointer. *)
Theorem main_load_without_records_faults (env : environment) (text : string)
    (fuel : nat) :
  ntree_nt env = Some text →
  filter (fun line => has_colon line) (stream_lines text) = [] →
  (length (stream_lines text) < fuel)%nat →
  (∃ cout,
     main_before_last fuel env
     = Ok (mkMain 1 (new_NLeaf_default 5 empty_heap).2 cout None 0 nullptr)) ∧
  main fuel env = Err NullDeref.
Proof.
  intros Hfile Hlines Hfuel.
  set (h := (new_NLeaf_default 5 empty_heap).2).
  set (t := Tree 1 (mkNLeaf 0 0 0 0 (replicate 5 nullptr)) []).
  pose proof (Deserialize_loop_lines 5 stoi fuel text
                (mkBuild h 1 [mkData VarSlot nullptr 0]) Hfuel) as Hrun.
  rewrite Hlines in Hrun. cbn [decode_lines] in Hrun.
  assert (main_obtain fuel env
          = Ok (addr t, h,
                profile_report env
                  "1. Deserialization (loading from file) took " 0,
                None)) as Hobtain.
  { unfold main_obtain. rewrite Hfile.
    change (new_NLeaf_default 5 empty_heap) with (1, h).
    cbv beta iota. unfold Deserialize.
    destruct (Deserialize_loop 5 stoi fuel (mkIstream text true) _)
      as [[stream' st']|e]; [|done].
    injection Hrun as ->. by rewrite bind_Ok. }
  assert (tree_at 5 h t) as Ht.
  { apply (single_node_tree_at 0 empty_heap).
    unfold is_int, INT_MIN, INT_MAX. lia. }
  pose proof (length_stream_lines text) as Hpos.
  destruct (main_tail_single fuel env h t _ _ Hobtain Ht) as [[cout Hbefore] Hmain].
  - simpl. lia.
  - done.
  - done.
  - split; [|done]. by exists cout.
Qed.

Lemma main_load_without_records_faults_witness :
  main 2 (mkEnv (Some "") false 0 (fun k => k) (fun _ => 0) (fun _ => 0) 56)
  = Err NullDeref.
Proof.
  apply (main_load_without_records_faults
           (mkEnv (Some "") false 0 (fun k => k) (fun _ => 0) (fun _ => 0) 56)
           "" 2 eq_refl eq_refl ltac:(vm_compute; lia)).
Defined.

(** ** Values and counts *)

Lemma addr_with_value p v t : addr (with_value p v t) = addr t.
Proof. by destruct t. Qed.

Lemma with_value_tree_at N h p lp v t :
  cells h !! p = Some lp → is_int v →
  tree_at N h t →
  tree_at N (store h p (set_mValue v lp)) (with_value p v t).
Proof.
  intros Hp Hv. induction t as [a l ks IH] using tree_ind.
  intros (Hl & Hwf & Hn & Htake & Hks)%tree_at_inv.
  cbn [with_value]. apply tree_at_Tree.
  - unfold store. cbn [cells]. destruct (decide (a = p)) as [->|Hne].
    + rewrite lookup_insert_eq. congruence.
    + by rewrite lookup_insert_ne.
  - destruct (decide (a = p)); [|done].
    destruct Hwf as (_ & Hd & Hi & Hc & Hlen).
    split; [exact Hv|]. split; [exact Hd|]. split; [exact Hi|].
    split; [exact Hc|exact Hlen].
  - rewrite length_fmap. by destruct (decide (a = p)).
  - rewrite length_fmap, <- list_fmap_compose.
    replace (mChildren (if decide (a = p) then set_mValue v l else l))
      with (mChildren l) by (by destruct (decide (a = p))).
    rewrite Htake. apply list_fmap_ext. intros i x _. cbn.
    by rewrite addr_with_value.
  - apply Forall_fmap. rewrite Forall_forall in IH, Hks.
    apply Forall_forall. intros k Hk. cbn. by apply IH, Hks.
Qed.

(** X16. [SetValue] on a node of a well-formed tree stores the value, which
    [GetValue] then returns, and keeps the tree: the same nodes at the same
    addresses with the same children, and the fields of every other node
    as they were. *)
Theorem SetValue_keeps_tree (N : Z) (h : heap) (t : tree) (p : ptr)
    (lp : NLeaf) (value : Z) :
  tree_at N h t → cells h !! p = Some lp → is_int value →
  ∃ h',
    SetValue h p value = Ok h' ∧
    GetValue h' p = Ok value ∧
    tree_at N h' (with_value p value t) ∧
    (∀ q, q ≠ p → cells h' !! q = cells h !! q).
Proof.
  intros Ht Hp Hv. exists (store h p (set_mValue value lp)).
  split; [|split; [|split]].
  - unfold SetValue. by rewrite (update_Ok _ _ lp) by (by apply load_Some).
  - unfold GetValue. by rewrite load_store_eq.
  - by apply with_value_tree_at.
  - intros q Hq. unfold store. cbn [cells]. by rewrite lookup_insert_ne.
Qed.

Lemma SetValue_keeps_tree_witness :
  ∃ h',
    SetValue sample_heap 2 42 = Ok h' ∧
    GetValue h' 2 = Ok 42 ∧
    tree_at 5 h' (with_value 2 42 sample_tree) ∧
    (∀ q, q ≠ 2 → cells h' !! q = cells sample_heap !! q).
Proof.
  apply (SetValue_keeps_tree 5 sample_heap sample_tree 2
           (mkNLeaf (-7) 1 0 1 [4; 0; 0; 0; 0]) 42 sample_tree_at
           ltac:(vm_compute; reflexivity)
           ltac:(vm_compute; split; congruence)).
Defined.

(** *** The count field is a 16-bit number *)

Lemma line_record_print_int c v :
  is_int c → is_int v →
  line_record stoi (print_int c +:+ ":" +:+ print_int v)
  = Some (to_uint16 c, v).
Proof.
  intros Hc Hv. unfold line_record.
  change (":" +:+ print_int v) with (String colon (print_int v)).
  rewrite find_app_here by apply print_int_no_colon.
  rewrite substring_prefix.
  replace (String.length (print_int c) + 1)%nat
    with (String.length (print_int c +:+ ":")) by (by rewrite length_app_string).
  replace (print_int c +:+ String colon (print_int v))
    with ((print_int c +:+ ":") +:+ print_int v) by (by rewrite string_app_assoc).
  rewrite substring_suffix.
  2:{ rewrite !length_app_string. cbn [String.length]. lia. }
  by rewrite !stoi_print_int.
Qed.

(** X17. [Deserialize] converts the count it parsed to [uint16_t] and
    compares it with nothing: from a stream of the one record [c:v], with
    [c] any [int], it creates the root with the value [v] and leaves
    [c mod 65536] requests for its children in the queue, for the slots
    0, 1, 2, ... whatever [N] is.  A count of -1 asks for 65535 children,
    a count of 65536 for none. *)
Theorem Deserialize_count_modulo (N : Z) (c v : Z) (h : heap) (var : ptr)
    (fuel : nat) :
  is_int c → is_int v → (3 ≤ fuel)%nat →
  ∃ stream',
    Deserialize N stoi fuel (mkIstream (record_line c v) true) h var
    = Ok (stream',
          mkBuild
            (mkHeap (<[next h := fresh_leaf N v]> (cells h)) (next h + 1))
            (next h)
            (child_requests (next h) (c mod 65536))).
Proof.
  intros Hc Hv Hfuel. destruct fuel as [|[|[|fuel]]]; [lia..|].
  unfold Deserialize. cbn [Deserialize_loop good pending length Nat.eqb negb andb].
  rewrite <- (string_app_nil_r (record_line c v)).
  rewrite getline_record, record_nonempty.
  rewrite (Deserialize_line_record N stoi _ _ (to_uint16 c) v
             (mkData VarSlot nullptr 0) [] (next h)
             (mkHeap (<[next h := fresh_leaf N v]> (cells h)) (next h + 1))
             (next h)).
  2:{ by apply line_record_print_int. }
  2:{ done. }
  2:{ apply create_leaf_root. }
  rewrite bind_Ok. cbn [app]. change (c mod 65536) with (to_uint16 c).
  cbn [Deserialize_loop good pending].
  destruct (child_requests (next h) (to_uint16 c)) as [|req q] eqn:Hreq.
  - cbn. by eexists.
  - cbn [length Nat.eqb negb andb]. unfold getline. cbn. by eexists.
Qed.

Lemma Deserialize_count_modulo_witness :
  ∃ stream',
    Deserialize 5 stoi 3 (mkIstream (record_line (-1) 7) true) empty_heap nullptr
    = Ok (stream',
          mkBuild (mkHeap (<[1 := fresh_leaf 5 7]> ∅) 2) 1
            (child_requests 1 (-1 mod 65536))).
Proof.
  apply (Deserialize_count_modulo 5 (-1) 7 empty_heap nullptr 3
           ltac:(vm_compute; split; congruence)
           ltac:(vm_compute; split; congruence) ltac:(lia)).
Defined.

(** *** SetNChild and the getters *)

(** X18. [SetNChild(index, leaf)] with [index] below [N], on a node other
    than [leaf]: afterwards [GetNChild(index)] returns [leaf], the other
    slots return what they returned before, [leaf] reports [index] as its
    child index and the depth of the parent plus one (as a 16-bit number)
    as its depth, the count of the parent is one more (as a 16-bit
    number), and the values of both nodes are as before. *)
Theorem SetNChild_then_getters (N : Z) (h : heap) (this leaf : ptr)
    (lp lc : NLeaf) (index : Z) :
  cells h !! this = Some lp → cells h !! leaf = Some lc → this ≠ leaf →
  0 ≤ index < N → Z.of_nat (length (mChildren lp)) = N →
  ∃ h',
    SetNChild N h this index leaf = Ok h' ∧
    GetNChild_const N h' this index = Ok leaf ∧
    (∀ j, j ≠ index →
          GetNChild_const N h' this j = GetNChild_const N h this j) ∧
    GetChildIndex h' leaf = Ok index ∧
    GetDepth h' leaf = Ok (to_uint16 (mDepth lp + 1)) ∧
    GetChildAmount h' this = Ok (to_uint16 (mChildrenAmount lp + 1)) ∧
    GetValue h' this = Ok (mValue lp) ∧
    GetValue h' leaf = Ok (mValue lc).
Proof.
  intros Hp Hc Hne Hindex Hlen.
  rewrite (SetNChild_Ok N h this index leaf lp lc) by done.
  eexists. split; [done|].
  set (lp' := mkNLeaf _ _ _ _ _). set (lc' := mkNLeaf _ _ _ _ _).
  set (h' := mkHeap _ _).
  assert (load h' this = Ok lp') as Hp'.
  { apply load_Some. apply lookup_insert_eq. }
  assert (load h' leaf = Ok lc') as Hc'.
  { apply load_Some. unfold h'. cbn [cells].
    rewrite lookup_insert_ne by done. apply lookup_insert_eq. }
  unfold GetNChild_const, GetChildIndex, GetDepth, GetChildAmount, GetValue.
  rewrite Hp', Hc', (load_Some _ _ _ Hp), !bind_Ok.
  split; [|split; [|done]].
  - apply read_child_lookup; [done|]. unfold lp'. cbn [mChildren].
    apply list_lookup_insert_eq. lia.
  - intros j Hj. rewrite !bind_Ok. unfold read_child.
    destruct ((0 <=? j) && (j <? N)) eqn:Hrange; [|done].
    apply andb_true_iff in Hrange as [H0 H1].
    apply Z.leb_le in H0. apply Z.ltb_lt in H1.
    unfold lp'. cbn [mChildren]. by rewrite list_lookup_insert_ne by lia.
Qed.

Lemma SetNChild_then_getters_witness :
  ∃ h',
    SetNChild 5 sample_heap 3 0 4 = Ok h' ∧
    GetNChild_const 5 h' 3 0 = Ok 4 ∧
    (∀ j, j ≠ 0 →
          GetNChild_const 5 h' 3 j = GetNChild_const 5 sample_heap 3 j) ∧
    GetChildIndex h' 4 = Ok 0 ∧
    GetDepth h' 4 = Ok (to_uint16 (1 + 1)) ∧
    GetChildAmount h' 3 = Ok (to_uint16 (0 + 1)) ∧
    GetValue h' 3 = Ok 3 ∧
    GetValue h' 4 = Ok 4.
Proof.
  apply (SetNChild_then_getters 5 sample_heap 3 4
           (mkNLeaf 3 1 1 0 [0; 0; 0; 0; 0]) (mkNLeaf 4 2 0 0 [0; 0; 0; 0; 0]) 0
           ltac:(vm_compute; reflexivity) ltac:(vm_compute; reflexivity)
           ltac:(vm_compute; congruence) ltac:(lia)
           ltac:(vm_compute; reflexivity)).
Defined.

(** *** A field the value deserializer rejects *)

(** X19. [Deserialize] does not catch what the value deserializer throws:
    when the first line with a [':'] has a count field or a value field
    the deserializer rejects, [Deserialize] ends with that fault
    ([std::invalid_argument] or [std::out_of_range] with [std::stoi]),
    whatever follows in the stream. *)
Theorem Deserialize_rejected_field (N : Z) (valueDeserializer : string → res Z)
    (text line : string) (lines : list string) (pos : nat) (e : fault)
    (h : heap) (var : ptr) (fuel : nat) :
  filter (fun line => has_colon line) (stream_lines text) = line :: lines →
  find colon line = Some pos →
  valueDeserializer (substring 0 pos line) = Err e ∨
  (∃ amount, valueDeserializer (substring 0 pos line) = Ok amount ∧
     valueDeserializer
       (substring (pos + 1) (String.length line - pos) line) = Err e) →
  (length (stream_lines text) < fuel)%nat →
  Deserialize N valueDeserializer fuel (mkIstream text true) h var = Err e.
Proof.
  intros Hlines Hpos Hfield Hfuel. unfold Deserialize.
  pose proof (Deserialize_loop_lines N valueDeserializer fuel text
                (mkBuild h var [mkData VarSlot nullptr 0]) Hfuel) as Hrun.
  rewrite Hlines in Hrun. cbn [decode_lines pending] in Hrun.
  assert (Deserialize_line N valueDeserializer line
            (mkBuild h var [mkData VarSlot nullptr 0]) = Err e) as Hline.
  { unfold Deserialize_line. rewrite Hpos.
    destruct Hfield as [->|(amount & -> & Hvalue)]; [done|].
    rewrite bind_Ok. by rewrite Hvalue. }
  rewrite Hline in Hrun.
  destruct (Deserialize_loop N valueDeserializer fuel _ _) as [r|e']; [done|].
  by injection Hrun as ->.
Qed.

Lemma Deserialize_rejected_field_witness :
  Deserialize 5 stoi 4 (mkIstream (unlines ["Tree: "; "0:1"]) true)
    empty_heap nullptr
  = Err InvalidArgument.
Proof.
  apply (Deserialize_rejected_field 5 stoi (unlines ["Tree: "; "0:1"])
           "Tree: " ["0:1"] 4 InvalidArgument empty_heap nullptr 4
           ltac:(vm_compute; reflexivity) ltac:(vm_compute; reflexivity)
           ltac:(left; vm_compute; reflexivity) ltac:(vm_compute; lia)).
Defined.

